(** * A shallow embedding of sudokuPuzzles.c

    The C program works on [int board[SIZE][SIZE]] arrays that are shared by
    all recursive calls.  The embedding keeps that shape:

    - a board is the flat, row-major array the C compiler lays out, so
      [board[y][x]] is the element at offset [y * SIZE + x];
    - every [int] stored in a cell or a list is a [Z]; array indices and loop
      counters, which the code keeps non-negative, are [nat];
    - the counters [totalSolutions], [backtrackCount] and [removedCount] are
      mathematical integers: signed overflow is undefined behaviour in C, and
      the development speaks about runs in which they stay representable.
      The theorems that state the value of a count or of [backtrackCount]
      carry the hypothesis that keeps it within [INT_MIN .. INT_MAX]; the
      sums [totalSolutions] goes through are sums of counts that are never
      negative, so none of them exceeds the count returned;
    - the program state (the board, the solution board, the global
      [backtrackCount] and the position in the [rand()] sequence) is passed
      explicitly; a ghost [history] records the board after every store the
      engine makes to it;
    - the two recursive searches take a [fuel] argument bounding the depth of
      the recursion and return [None] when it runs out; the theorems show
      that any fuel above the number of empty cells is enough;
    - reads and writes outside an array are undefined behaviour in C.  The
      only place where the code really leaves an array is the shift loop of
      [shuffleValues]; there the value found past the end is the arbitrary
      [stale].  On well-formed boards every other access is in range; the
      model functions [nth] and [upd] read [0] and write nothing outside. *)

From Stdlib Require Import String Ascii DecimalString.
From Stdlib Require Import List ZArith Lia Bool Arith PeanoNat Permutation.
From Stdlib Require FinFun.
From Stdlib Require Import Sorted.
Import ListNotations.

Local Open Scope Z_scope.

(** ** Arrays *)

Definition Grid := list Z.

(** [#define TRUE 1], [#define FALSE 0], [#define EMPTY 0] *)
Notation "'TRUE'" := true (only parsing).
Notation "'FALSE'" := false (only parsing).
Notation "'EMPTY'" := 0%Z (only parsing).

(** [list[i] = v] *)
Fixpoint upd {A : Type} (i : nat) (v : A) (l : list A) : list A :=
  match l, i with
  | [], _ => []
  | _ :: t, O => v :: t
  | h :: t, S i' => h :: upd i' v t
  end.

(** One access to the array handed to [shuffleValues]. *)
Inductive Access : Type :=
| Rd (i : nat)
| Wr (i : nat).

(** ** Program state *)

Record Machine : Type := mkMachine {
  board : Grid;            (* the array every search works on in place *)
  solution : Grid;         (* the output array of solveBoard *)
  backtrackCount : Z;      (* the global counter *)
  randCalls : nat;         (* how many times rand() has been called *)
  history : list Grid      (* ghost: the board after each store, newest first *)
}.

(** ** C integers

    The range of [int] on the platforms the program is built for. *)

Definition INT_MAX : Z := 2147483647.
Definition INT_MIN : Z := -2147483648.

(** ** Console output

    What [printf] sends to the console is a string; successive calls
    append to it. *)

Definition newline : string := String "010"%char EmptyString.

(** [%d] *)
Definition decimal (v : Z) : string := NilZero.string_of_int (Z.to_int v).

Fixpoint spaces (n : nat) : string :=
  match n with
  | O => EmptyString
  | S n' => String " "%char (spaces n')
  end.

(** [%3d]: at least three characters, padded with spaces on the left *)
Definition width3 (v : Z) : string :=
  (spaces (3 - String.length (decimal v)) ++ decimal v)%string.

(** ** Boards used in the examples *)

(** A machine about to run on board [b]: zeroed solution array of the same
    size, counters at zero, no store made yet. *)
Definition start (b : Grid) : Machine :=
  mkMachine b (repeat 0 (length b)) 0 0%nat [].

Definition blank (size : nat) : Grid := repeat 0 (size * size)%nat.

(** A complete order-4 grid. *)
Definition solved4 : Grid :=
  [1; 2; 3; 4;
   3; 4; 1; 2;
   2; 1; 4; 3;
   4; 3; 2; 1].

(** A complete order-9 grid. *)
Definition solved9 : Grid :=
  [9; 2; 4; 5; 6; 8; 3; 1; 7;
   8; 3; 5; 2; 1; 7; 9; 6; 4;
   7; 6; 1; 9; 4; 3; 8; 5; 2;
   5; 8; 3; 1; 7; 9; 4; 2; 6;
   2; 1; 9; 6; 3; 4; 5; 7; 8;
   6; 4; 7; 8; 5; 2; 1; 9; 3;
   4; 5; 8; 7; 9; 6; 2; 3; 1;
   1; 7; 2; 3; 8; 5; 6; 4; 9;
   3; 9; 6; 4; 2; 1; 7; 8; 5].

(** [solved9] with the four cells (row 2, columns 4 and 5) and (row 4,
    columns 4 and 5) cleared: the values 3 and 4 fit there in two ways. *)
Definition twoWays9 : Grid :=
  [9; 2; 4; 5; 6; 8; 3; 1; 7;
   8; 3; 5; 2; 1; 7; 9; 6; 4;
   7; 6; 1; 9; 0; 0; 8; 5; 2;
   5; 8; 3; 1; 7; 9; 4; 2; 6;
   2; 1; 9; 6; 0; 0; 5; 7; 8;
   6; 4; 7; 8; 5; 2; 1; 9; 3;
   4; 5; 8; 7; 9; 6; 2; 3; 1;
   1; 7; 2; 3; 8; 5; 6; 4; 9;
   3; 9; 6; 4; 2; 1; 7; 8; 5].

(** The other completion of [twoWays9]. *)
Definition swapped9 : Grid :=
  [9; 2; 4; 5; 6; 8; 3; 1; 7;
   8; 3; 5; 2; 1; 7; 9; 6; 4;
   7; 6; 1; 9; 3; 4; 8; 5; 2;
   5; 8; 3; 1; 7; 9; 4; 2; 6;
   2; 1; 9; 6; 4; 3; 5; 7; 8;
   6; 4; 7; 8; 5; 2; 1; 9; 3;
   4; 5; 8; 7; 9; 6; 2; 3; 1;
   1; 7; 2; 3; 8; 5; 6; 4; 9;
   3; 9; 6; 4; 2; 1; 7; 8; 5].

(** A [rand()] that always returns 0. *)
Definition rand0 : nat -> nat := fun _ => 0%nat.

(** Full grids of order 16.  [value16 y x false] is the grid whose row [y]
    holds 1 .. 16 turned by [4 * (y mod 4) + y / 4] places.  Its cells fall
    into 64 rectangles, rows [y], [y + 2] of one band and columns [x],
    [x + 8], whose corners hold two values crosswise; [value16 y x true] is
    the value of the cell once the two values of its rectangle have been
    exchanged.  [switched16 bits] exchanges them in the rectangles that
    [bits] selects. *)
Definition rectangle16 (y x : nat) : nat :=
  (8 * (2 * (y / 4) + y mod 2) + x mod 8)%nat.

Definition value16 (y x : nat) (switched : bool) : Z :=
  Z.of_nat ((4 * (y mod 4) + y / 4 + x + (if switched then 8 else 0)) mod 16 + 1)%nat.

Definition switched16 (bits : list bool) : Grid :=
  map (fun i => value16 (i / 16) (i mod 16)
                        (nth (rectangle16 (i / 16) (i mod 16)) bits false))
      (seq 0 256).

(** The top left cell of rectangle [i]. *)
Definition corner16 (i : nat) : nat * nat :=
  (4 * (i / 8 / 2) + (i / 8) mod 2, i mod 8)%nat.

(** All lists of [n] booleans. *)
Fixpoint allBits (n : nat) : list (list bool) :=
  match n with
  | O => [[]]
  | S n' => map (cons false) (allBits n') ++ map (cons true) (allBits n')
  end.

Section Sudoku.

(** [#define SIZE] and [#define MAX_EMPTY]; the [n]-th value returned by
    [rand()], which is never negative; the value lying just past the array
    given to [shuffleValues]. *)
Variable SIZE : nat.
Variable MAX_EMPTY : Z.
Variable rand : nat -> nat.
Variable stale : Z.

(** [(int) sqrt(SIZE)] *)
Definition squareSize : nat := Nat.sqrt SIZE.

(** [board[y][x]] *)
Definition cell (b : Grid) (y x : nat) : Z := nth (y * SIZE + x) b 0.

(** [board[y][x] = v] on a bare array *)
Definition setCell (b : Grid) (y x : nat) (v : Z) : Grid := upd (y * SIZE + x) v b.

(** [board[y][x] = v] on the program state, recorded in the history *)
Definition poke (y x : nat) (v : Z) (m : Machine) : Machine :=
  let b := setCell (board m) y x v in
  mkMachine b (solution m) (backtrackCount m) (randCalls m) (b :: history m).

(** ** nextEmpty *)

(** The inner [while (!found && xVal < SIZE)]; [n] counts the columns left. *)
Fixpoint scanRow (b : Grid) (yVal : nat) (n : nat) (xVal : nat) : option nat :=
  match n with
  | O => None
  | S n' =>
      if cell b yVal xVal =? EMPTY then Some xVal
      else scanRow b yVal n' (S xVal)
  end.

(** The outer [while (!found && yVal < SIZE)]; [n] counts the rows left. *)
Fixpoint scanRows (b : Grid) (n : nat) (yVal : nat) : option (nat * nat) :=
  match n with
  | O => None
  | S n' =>
      match scanRow b yVal SIZE 0 with
      | Some xVal => Some (xVal, yVal)
      | None => scanRows b n' (S yVal)
      end
  end.

(** [Some (xVal, yVal)] stands for a TRUE result with both coordinates
    stored through the pointers, [None] for FALSE. *)
Definition nextEmpty (b : Grid) : option (nat * nat) := scanRows b SIZE 0.

(** ** permittedValue and getValidIntegers *)

(** [permitted[scannedVal] = FALSE]; the cells of a grid lie in [0, SIZE],
    inside the [SIZE + 1] entries of [permitted]. *)
Definition forbid (scannedVal : Z) (permitted : list bool) : list bool :=
  upd (Z.to_nat scannedVal) FALSE permitted.

Definition permittedValue (b : Grid) (xPos yPos : nat) (permitted : list bool)
  : list bool :=
  let permitted :=
    fold_left (fun p i => upd i TRUE p) (seq 1 SIZE) permitted in
  let permitted := forbid EMPTY permitted in
  let permitted :=
    fold_left (fun p xval => forbid (cell b yPos xval) p) (seq 0 SIZE) permitted in
  let permitted :=
    fold_left (fun p yval => forbid (cell b yval xPos) p) (seq 0 SIZE) permitted in
  let xMin := (xPos / squareSize * squareSize)%nat in
  let xMax := (xMin + squareSize - 1)%nat in
  let yMin := (yPos / squareSize * squareSize)%nat in
  let yMax := (yMin + squareSize - 1)%nat in
  fold_left
    (fun p i =>
       fold_left (fun p j => forbid (cell b i j) p)
                 (seq xMin (S xMax - xMin)) p)
    (seq yMin (S yMax - yMin)) permitted.

(** Returns [intIndex] together with the array [validIntegers] it filled.
    The [do ... while (permitIndex <= SIZE)] loop runs for
    [permitIndex = 1 .. SIZE] ([SIZE] is at least 1). *)
Definition getValidIntegers (b : Grid) (xPos yPos : nat) (validIntegers : list Z)
  : nat * list Z :=
  let permitted := permittedValue b xPos yPos (repeat FALSE (SIZE + 1)) in
  fold_left
    (fun '(intIndex, validIntegers) permitIndex =>
       if nth permitIndex permitted FALSE
       then (S intIndex, upd intIndex (Z.of_nat permitIndex) validIntegers)
       else (intIndex, validIntegers))
    (seq 1 SIZE) (O, validIntegers).

(** ** shuffleValues *)

(** [for (i = randomIndex; i < listSize; i++) list[i] = list[i + 1];]
    with [n] iterations left; the accesses are logged newest first. *)
Fixpoint shiftDown (n : nat) (i : nat) (lst : list Z) (log : list Access)
  : list Z * list Access :=
  match n with
  | O => (lst, log)
  | S n' =>
      shiftDown n' (S i) (upd i (nth (S i) lst stale) lst)
                (Wr i :: Rd (S i) :: log)
  end.

(** The [do ... while (listSize > 0)] loop.  Every caller passes
    [listSize >= 1], so the body runs once for each value of [listSize] from
    the initial one down to 1.  [k] is the number of [rand()] calls made so
    far.  [completedIndex] is only ever incremented and is left out. *)
Fixpoint shuffleLoop (listSize : nat) (lst : list Z) (k : nat) (log : list Access)
  : list Z * nat * list Access :=
  match listSize with
  | O => (lst, k, log)
  | S listSize' =>
      let randomIndex := (rand k mod listSize)%nat in
      let listItem := nth randomIndex lst stale in
      let '(lst, log) :=
        shiftDown (listSize - randomIndex) randomIndex lst (Rd randomIndex :: log) in
      let lst := upd listSize' listItem lst in
      shuffleLoop listSize' lst (S k) (Wr listSize' :: log)
  end.

Definition shuffleValues (lst : list Z) (listSize : nat) (k : nat)
  : list Z * nat * list Access :=
  shuffleLoop listSize lst k [].

(** The shuffle run on the program state: only the array and the position in
    the [rand()] sequence matter to the callers. *)
Definition shuffled (lst : list Z) (listSize : nat) (m : Machine)
  : list Z * Machine :=
  let '(lst', k, _) := shuffleValues lst listSize (randCalls m) in
  (lst', mkMachine (board m) (solution m) (backtrackCount m) k (history m)).

(** ** duplicateBoard *)

Definition duplicateBoard (read write : Grid) : Grid :=
  fold_left
    (fun w i =>
       fold_left (fun w j => setCell w i j (cell read i j)) (seq 0 SIZE) w)
    (seq 0 SIZE) write.

(** ** randomFillBoard *)

(** [for (i = 0; i < listSize && !solved; i++)] over the first [listSize]
    entries of the shuffled array; [rec] is the recursive call. *)
Fixpoint fillLoop (rec : Machine -> option (bool * Machine)) (xPos yPos : nat)
    (validIntegers : list Z) (solved : bool) (m : Machine)
  : option (bool * Machine) :=
  match validIntegers with
  | [] => Some (solved, m)
  | v :: rest =>
      if solved then Some (solved, m)
      else
        match rec (poke yPos xPos v m) with
        | None => None
        | Some (solved, m) =>
            let m := if solved then m else poke yPos xPos EMPTY m in
            fillLoop rec xPos yPos rest solved m
        end
  end.

Fixpoint randomFillBoard (fuel : nat) (m : Machine) : option (bool * Machine) :=
  match fuel with
  | O => None
  | S fuel' =>
      match nextEmpty (board m) with
      | None => Some (TRUE, m)
      | Some (xPos, yPos) =>
          let '(listSize, validIntegers) :=
            getValidIntegers (board m) xPos yPos (repeat 0 SIZE) in
          if (listSize <=? 0)%nat then Some (FALSE, m)
          else
            let '(validIntegers, m) := shuffled validIntegers listSize m in
            fillLoop (randomFillBoard fuel') xPos yPos
                     (firstn listSize validIntegers) FALSE m
      end
  end.

(** ** generateBoard *)

Definition zeroBoard (m : Machine) : Machine :=
  fold_left
    (fun m i => fold_left (fun m j => poke i j 0 m) (seq 0 SIZE) m)
    (seq 0 SIZE) m.

Definition generateBoard (fuel : nat) (m : Machine) : option (Z * Machine) :=
  match randomFillBoard fuel (zeroBoard m) with
  | None => None
  | Some (_, m) => Some (1, m)
  end.

(** ** solveBoard

    [backtrackCount] and [totalSolutions] are C [int]s, computed here as
    mathematical integers.  [backtrackCount] is only ever incremented and
    never read; the properties that give its value, or the value of a
    count, assume that it stays within [INT_MIN .. INT_MAX]. *)

Definition bumpBacktrack (m : Machine) : Machine :=
  mkMachine (board m) (solution m) (backtrackCount m + 1) (randCalls m) (history m).

Definition saveSolution (m : Machine) : Machine :=
  mkMachine (board m) (duplicateBoard (board m) (solution m))
            (backtrackCount m) (randCalls m) (history m).

(** [for (i = 0; i < listSize; i++)] over the first [listSize] entries of
    [validIntegers]; [rec] is the recursive call. *)
Fixpoint solveLoop (rec : Machine -> option (Z * Machine)) (xPos yPos : nat)
    (validIntegers : list Z) (totalSolutions : Z) (m : Machine)
  : option (Z * Machine) :=
  match validIntegers with
  | [] => Some (totalSolutions, m)
  | v :: rest =>
      match rec (poke yPos xPos v m) with
      | None => None
      | Some (found, m) =>
          solveLoop rec xPos yPos rest (totalSolutions + found)
                    (bumpBacktrack (poke yPos xPos EMPTY m))
      end
  end.

Fixpoint solveBoard (fuel : nat) (m : Machine) : option (Z * Machine) :=
  match fuel with
  | O => None
  | S fuel' =>
      let totalSolutions := 0 in
      match nextEmpty (board m) with
      | Some (xPos, yPos) =>
          let '(listSize, validIntegers) :=
            getValidIntegers (board m) xPos yPos (repeat 0 SIZE) in
          if (0 <? listSize)%nat then
            solveLoop (solveBoard fuel') xPos yPos
                      (firstn listSize validIntegers) totalSolutions m
          else Some (0, m)
      | None =>
          let m := if totalSolutions =? 0 then saveSolution m else m in
          Some (totalSolutions + 1, m)
      end
  end.

(** ** generatePuzzle *)

(** The [while (index < SIZE*SIZE && removedCount < MAX_EMPTY)] loop.
    [cells] holds [listOfCells[index .. SIZE*SIZE - 1]].  The result carries
    the final [index] next to [removedCount]. *)
Fixpoint reduceLoop (fuel : nat) (cells : list Z) (index : nat) (removedCount : Z)
    (m : Machine) : option (nat * Z * Machine) :=
  match cells with
  | [] => Some (index, removedCount, m)
  | cellNumber :: rest =>
      if removedCount <? MAX_EMPTY then
        let yPos := Z.to_nat (Z.quot cellNumber (Z.of_nat SIZE)) in
        let xPos := Z.to_nat (Z.rem cellNumber (Z.of_nat SIZE)) in
        let cellValue := cell (board m) yPos xPos in
        match solveBoard fuel (poke yPos xPos EMPTY m) with
        | None => None
        | Some (solutions, m) =>
            if 1 <? solutions
            then reduceLoop fuel rest (S index) removedCount
                            (poke yPos xPos cellValue m)
            else reduceLoop fuel rest (S index) (removedCount + 1) m
        end
      else Some (index, removedCount, m)
  end.

Definition generatePuzzle (fuel : nat) (m : Machine) : option (nat * Z * Machine) :=
  let listOfCells := map Z.of_nat (seq 0 (SIZE * SIZE)) in
  let '(listOfCells, m) := shuffled listOfCells (SIZE * SIZE) m in
  reduceLoop fuel (firstn (SIZE * SIZE) listOfCells) 0 0 m.

(** ** printBoard *)

(** [(int) sqrt(SIZE)], as [printBoard] names it *)
Definition subSquareLength : nat := Nat.sqrt SIZE.

(** The horizontal line: [SIZE] times and then [subSquareLength - 1] times
    three dashes, and a line break. *)
Definition printRule : string :=
  let out := fold_left (fun out _ => (out ++ "---")%string) (seq 0 SIZE) EmptyString in
  let out :=
    fold_left (fun out _ => (out ++ "---")%string) (seq 0 (subSquareLength - 1)) out in
  (out ++ newline)%string.

(** Row [i]: each value in three columns, a bar before every sub-square but
    the first, and a line break. *)
Definition printRow (b : Grid) (i : nat) : string :=
  let out :=
    fold_left
      (fun out j =>
         let out :=
           if (j mod subSquareLength =? 0)%nat && (0 <? j)%nat
           then (out ++ "  |")%string else out in
         (out ++ width3 (cell b i j))%string)
      (seq 0 SIZE) EmptyString in
  (out ++ newline)%string.

Definition printBoard (b : Grid) : string :=
  fold_left
    (fun out i =>
       let out :=
         if (i mod subSquareLength =? 0)%nat && (0 <? i)%nat
         then (out ++ printRule)%string else out in
       (out ++ printRow b i)%string)
    (seq 0 SIZE) EmptyString.

(** ** main *)

(** Everything [main] prints after the generation: the puzzle, the number
    of filled cells, the prompt and, once a character has been read, the
    solution array. *)
Definition report (puzzle solution : Grid) (emptyCells : Z) : string :=
  (printBoard puzzle ++ newline ++ newline
   ++ "There are " ++ decimal (Z.of_nat (SIZE * SIZE) - emptyCells)
   ++ " cells already filled in on this Sudoku board." ++ newline
   ++ "Press ENTER to display the solution." ++ newline
   ++ printBoard solution ++ newline ++ newline)%string.

(** [main] starts with both arrays zeroed, [backtrackCount] at 0 and the
    [rand()] sequence at its beginning ([srand] chose the sequence).  It
    returns its exit status and the text printed; what [scanf] reads does
    not matter. *)
Definition main (fuel : nat) : option (Z * string) :=
  let m := mkMachine (repeat 0 (SIZE * SIZE)) (repeat 0 (SIZE * SIZE)) 0 0 [] in
  match generateBoard fuel m with
  | None => None
  | Some (generated, m) =>
      let out :=
        if generated =? 0
        then ("Warning, error generating a Sudoku puzzle." ++ newline)%string
        else EmptyString in
      match generatePuzzle fuel m with
      | None => None
      | Some (_, emptyCells, m) =>
          Some (0, (out ++ report (board m) (solution m) emptyCells)%string)
      end
  end.

(** ** Specification vocabulary

    The definitions below are not part of the program: they say what a grid
    is, what validity and completions are, and in which order the search of
    [solveBoard] meets the complete boards. *)

Local Open Scope nat_scope.

(** A grid of order [SIZE]: [SIZE * SIZE] cells, each EMPTY or in [1, SIZE]. *)
Definition wf (b : Grid) : Prop :=
  length b = SIZE * SIZE /\ Forall (fun v => (0 <= v <= Z.of_nat SIZE)%Z) b.

Definition wfb (b : Grid) : bool :=
  (length b =? SIZE * SIZE)
  && forallb (fun v => (0 <=? v)%Z && (v <=? Z.of_nat SIZE)%Z) b.

Definition complete (b : Grid) : Prop :=
  forall y x, y < SIZE -> x < SIZE -> cell b y x <> EMPTY.

Definition completeb (b : Grid) : bool :=
  forallb (fun y => forallb (fun x => negb (cell b y x =? EMPTY)%Z) (seq 0 SIZE))
          (seq 0 SIZE).

(** The number of cells holding EMPTY. *)
Definition emptyCells (b : Grid) : nat := count_occ Z.eq_dec b EMPTY.

(** Two cells share a row, a column or a box. *)
Definition sameUnit (y x y' x' : nat) : Prop :=
  y = y' \/ x = x' \/
  (y / squareSize = y' / squareSize /\ x / squareSize = x' / squareSize).

Definition sameUnitb (y x y' x' : nat) : bool :=
  (y =? y') || (x =? x')
  || ((y / squareSize =? y' / squareSize) && (x / squareSize =? x' / squareSize)).

(** Validity: in every row, column and box the nonzero values are pairwise
    distinct. *)
Definition valid (b : Grid) : Prop :=
  forall y x y' x',
    y < SIZE -> x < SIZE -> y' < SIZE -> x' < SIZE ->
    (y, x) <> (y', x') -> sameUnit y x y' x' ->
    cell b y x <> EMPTY -> cell b y x <> cell b y' x'.

Definition validb (b : Grid) : bool :=
  forallb (fun y => forallb (fun x => forallb (fun y' => forallb (fun x' =>
    ((y =? y') && (x =? x'))
    || negb (sameUnitb y x y' x')
    || (cell b y x =? EMPTY)%Z
    || negb (cell b y x =? cell b y' x')%Z)
    (seq 0 SIZE)) (seq 0 SIZE)) (seq 0 SIZE)) (seq 0 SIZE).

(** [v] appears nowhere in row [y], column [x] or the box of [(x, y)]. *)
Definition absent (b : Grid) (x y : nat) (v : Z) : Prop :=
  (forall x', x' < SIZE -> cell b y x' <> v) /\
  (forall y', y' < SIZE -> cell b y' x <> v) /\
  (forall y' x', y' < SIZE -> x' < SIZE ->
     y' / squareSize = y / squareSize -> x' / squareSize = x / squareSize ->
     cell b y' x' <> v).

(** [g] keeps every filled cell of [b]. *)
Definition extends (b g : Grid) : Prop :=
  forall y x, y < SIZE -> x < SIZE -> cell b y x <> EMPTY -> cell g y x = cell b y x.

(** [g] is a complete valid grid obtained from [b] by filling its empty
    cells. *)
Definition completion (b g : Grid) : Prop :=
  wf g /\ complete g /\ valid g /\ extends b g.

(** The list of values [getValidIntegers] hands to its callers: the first
    [intIndex] entries of a zero-initialised [validIntegers]. *)
Definition candidates (b : Grid) (xPos yPos : nat) : list Z :=
  let '(listSize, validIntegers) := getValidIntegers b xPos yPos (repeat 0%Z SIZE) in
  firstn listSize validIntegers.

(** The complete boards in the order in which the search of [solveBoard]
    reaches them: cells in [nextEmpty] order, values in the order of
    [getValidIntegers]. *)
Fixpoint searchOrder (fuel : nat) (b : Grid) : list Grid :=
  match fuel with
  | O => []
  | S fuel' =>
      match nextEmpty b with
      | None => [b]
      | Some (xPos, yPos) =>
          flat_map (fun v => searchOrder fuel' (setCell b yPos xPos v))
                   (candidates b xPos yPos)
      end
  end.

(** [b] has at most [n] completions: no duplicate-free list of completions
    is longer. *)
Definition atMostCompletions (b : Grid) (n : Z) : Prop :=
  forall l : list Grid,
    NoDup l -> (forall g, In g l -> completion b g) -> (Z.of_nat (length l) <= n)%Z.

(** A bound on the trial values [solveBoard] writes on a board with [e]
    empty cells: at most [SIZE] values at the first empty cell, and under
    each of them the trials of a board with one empty cell less. *)
Fixpoint trialBound (e : nat) : Z :=
  match e with
  | O => 0%Z
  | S e' => (Z.of_nat SIZE * (1 + trialBound e'))%Z
  end.

(** [b] has two different completions at least. *)
Definition atLeastTwoCompletions (b : Grid) : Prop :=
  exists g1 g2, g1 <> g2 /\ completion b g1 /\ completion b g2.

(** The reduction loop as the specification words it: each trial cell is
    cleared and the solution counter invoked; the cleared value is restored
    exactly when the reported count is at least 2, the tally of emptied
    cells grows exactly when the count is 1; the iteration stops when the
    list is exhausted or the tally has reached [MAX_EMPTY]. *)
Fixpoint reduceLoopSpec (fuel : nat) (cells : list Z) (index : nat) (tally : Z)
    (m : Machine) : option (nat * Z * Machine) :=
  match cells with
  | [] => Some (index, tally, m)
  | cellNumber :: rest =>
      if (MAX_EMPTY <=? tally)%Z then Some (index, tally, m)
      else
        let yPos := Z.to_nat (Z.quot cellNumber (Z.of_nat SIZE)) in
        let xPos := Z.to_nat (Z.rem cellNumber (Z.of_nat SIZE)) in
        let recorded := cell (board m) yPos xPos in
        match solveBoard fuel (poke yPos xPos EMPTY m) with
        | None => None
        | Some (count, m) =>
            let m := if (2 <=? count)%Z then poke yPos xPos recorded m else m in
            let tally := if (count =? 1)%Z then (tally + 1)%Z else tally in
            reduceLoopSpec fuel rest (S index) tally m
        end
  end.

(** A full valid grid for every perfect-square order, the evidence that the
    empty board can be filled: row [y] holds [1 .. SIZE] turned by
    [squareSize * (y mod squareSize) + y / squareSize] places. *)
Definition canonicalGrid : Grid :=
  map (fun i =>
         Z.of_nat ((squareSize * ((i / SIZE) mod squareSize)
                    + (i / SIZE) / squareSize + i mod SIZE) mod SIZE + 1))
      (seq 0 (SIZE * SIZE)).

(** What a search that only tries and erases values leaves of the state
    from [m] to [m']: no number drawn from [rand()], and two stores to the
    board (a trial value, its erasure) for every step of [backtrackCount]. *)
Definition triesAndErases (m m' : Machine) : Prop :=
  randCalls m' = randCalls m /\
  (backtrackCount m <= backtrackCount m')%Z /\
  Z.of_nat (length (history m'))
  = (Z.of_nat (length (history m)) + 2 * (backtrackCount m' - backtrackCount m))%Z.

(** Text laid out in lines: [plain s] when [s] holds no line break, and
    [unlines rows] for the rows printed one after the other, each followed
    by a line break. *)
Fixpoint plain (s : string) : bool :=
  match s with
  | EmptyString => true
  | String c s' => negb (Ascii.eqb c "010"%char) && plain s'
  end.

Fixpoint unlines (rows : list string) : string :=
  match rows with
  | [] => EmptyString
  | r :: rest => (r ++ newline ++ unlines rest)%string
  end.

(** * Properties *)

(** ** Arrays *)

Lemma length_upd {A : Type} (i : nat) (v : A) (l : list A) :
  length (upd i v l) = length l.
Proof.
  clear. revert i; induction l as [|h t IH]; intros [|i]; simpl; auto.
Qed.

Lemma nth_upd_eq {A : Type} (i : nat) (v d : A) (l : list A) :
  i < length l -> nth i (upd i v l) d = v.
Proof.
  clear. revert i; induction l as [|h t IH]; intros [|i] H; simpl in *; try lia; auto.
  apply IH; lia.
Qed.

Lemma nth_upd_neq {A : Type} (i j : nat) (v d : A) (l : list A) :
  i <> j -> nth j (upd i v l) d = nth j l d.
Proof.
  clear. revert i j; induction l as [|h t IH]; intros [|i] [|j] H; simpl; auto; try lia.
Qed.

Lemma upd_same {A : Type} (i : nat) (d : A) (l : list A) :
  upd i (nth i l d) l = l.
Proof.
  clear. revert i; induction l as [|h t IH]; intros [|i]; simpl; auto.
  now rewrite IH.
Qed.

Lemma upd_upd {A : Type} (i : nat) (v w : A) (l : list A) :
  upd i v (upd i w l) = upd i v l.
Proof.
  clear. revert i; induction l as [|h t IH]; intros [|i]; simpl; auto.
  now rewrite IH.
Qed.

Lemma upd_restore {A : Type} (i : nat) (v d : A) (l : list A) :
  upd i (nth i l d) (upd i v l) = l.
Proof.
  clear. now rewrite upd_upd, upd_same.
Qed.

Lemma Forall_upd {A : Type} (P : A -> Prop) (i : nat) (v : A) (l : list A) :
  Forall P l -> P v -> Forall P (upd i v l).
Proof.
  clear. intros Hl Hv; revert i; induction Hl as [|h t Hh Ht IH]; intros [|i]; simpl; auto.
Qed.

Lemma firstn_upd_snoc {A : Type} (i : nat) (v : A) (l : list A) :
  i < length l -> firstn (S i) (upd i v l) = firstn i l ++ [v].
Proof.
  clear. revert i; induction l as [|h t IH]; intros [|i] H; simpl in *; try lia; auto.
  f_equal. apply IH. lia.
Qed.

Lemma count_occ_upd_fill (i : nat) (v : Z) (l : list Z) :
  i < length l -> nth i l 0%Z = 0%Z -> v <> 0%Z ->
  count_occ Z.eq_dec l 0%Z = S (count_occ Z.eq_dec (upd i v l) 0%Z).
Proof.
  clear. revert i; induction l as [|h t IH]; intros [|i] Hi Hn Hv; simpl in *; try lia.
  - subst h. destruct (Z.eq_dec 0 0), (Z.eq_dec v 0); congruence.
  - destruct (Z.eq_dec h 0); rewrite (IH i); auto; lia.
Qed.

(** ** Cells *)

Hypothesis SIZE_square : squareSize * squareSize = SIZE.
Hypothesis SIZE_pos : 0 < SIZE.

Lemma squareSize_pos : 0 < squareSize.
Proof. clear - SIZE_square SIZE_pos. destruct squareSize; simpl in *; lia. Qed.

Lemma offset_lt (y x : nat) : y < SIZE -> x < SIZE -> y * SIZE + x < SIZE * SIZE.
Proof. clear. nia. Qed.

Lemma offset_inj (y x y' x' : nat) :
  x < SIZE -> x' < SIZE -> y * SIZE + x = y' * SIZE + x' -> y = y' /\ x = x'.
Proof. clear. intros. assert (y = y') by nia. subst. lia. Qed.

Lemma cell_setCell_eq (b : Grid) (y x : nat) (v : Z) :
  length b = SIZE * SIZE -> y < SIZE -> x < SIZE ->
  cell (setCell b y x v) y x = v.
Proof.
  clear. intros Hl Hy Hx. unfold cell, setCell.
  apply nth_upd_eq. rewrite Hl. now apply offset_lt.
Qed.

Lemma cell_setCell_neq (b : Grid) (y x y' x' : nat) (v : Z) :
  x < SIZE -> x' < SIZE -> (y, x) <> (y', x') ->
  cell (setCell b y x v) y' x' = cell b y' x'.
Proof.
  clear. intros Hx Hx' Hne. unfold cell, setCell.
  apply nth_upd_neq. intros E. apply offset_inj in E; auto.
  destruct E; subst; congruence.
Qed.

Lemma setCell_restore (b : Grid) (y x : nat) (v : Z) :
  setCell (setCell b y x v) y x (cell b y x) = b.
Proof. clear. unfold setCell, cell. apply upd_restore. Qed.

Lemma wf_setCell (b : Grid) (y x : nat) (v : Z) :
  wf b -> (0 <= v <= Z.of_nat SIZE)%Z -> wf (setCell b y x v).
Proof.
  clear. intros [Hl Hc] Hv. split.
  - unfold setCell. now rewrite length_upd.
  - now apply Forall_upd.
Qed.

Lemma wf_cell_range (b : Grid) (y x : nat) :
  wf b -> (0 <= cell b y x <= Z.of_nat SIZE)%Z.
Proof.
  clear. intros [Hl Hc]. unfold cell.
  destruct (Nat.lt_ge_cases (y * SIZE + x) (length b)) as [H|H].
  - rewrite Forall_forall in Hc. apply Hc. now apply nth_In.
  - rewrite nth_overflow by assumption. lia.
Qed.

Lemma grid_ext (b g : Grid) :
  length b = SIZE * SIZE -> length g = SIZE * SIZE ->
  (forall y x, y < SIZE -> x < SIZE -> cell g y x = cell b y x) -> g = b.
Proof.
  clear - SIZE_pos. intros Hb Hg H.
  apply nth_ext with (d := 0%Z) (d' := 0%Z); [congruence|].
  intros n Hn. rewrite Hg in Hn.
  assert (n / SIZE < SIZE) by (apply Nat.Div0.div_lt_upper_bound; lia).
  assert (n mod SIZE < SIZE) by (apply Nat.mod_upper_bound; lia).
  specialize (H (n / SIZE) (n mod SIZE) ltac:(assumption) ltac:(assumption)).
  unfold cell in H.
  replace (n / SIZE * SIZE + n mod SIZE) with n in H; auto.
  rewrite (Nat.div_mod_eq n SIZE) at 1. lia.
Qed.

Lemma emptyCells_fill (b : Grid) (y x : nat) (v : Z) :
  length b = SIZE * SIZE -> y < SIZE -> x < SIZE ->
  cell b y x = EMPTY -> v <> EMPTY ->
  emptyCells b = S (emptyCells (setCell b y x v)).
Proof.
  clear. intros Hl Hy Hx Hc Hv. unfold emptyCells, setCell.
  apply count_occ_upd_fill; auto. rewrite Hl. now apply offset_lt.
Qed.

(** ** nextEmpty *)

Lemma scanRow_Some (b : Grid) (y n x0 x : nat) :
  scanRow b y n x0 = Some x -> x0 <= x < x0 + n /\ cell b y x = EMPTY.
Proof.
  clear. revert x0; induction n as [|n IH]; intros x0 H; simpl in H; [discriminate|].
  destruct (Z.eqb_spec (cell b y x0) 0) as [E|E].
  - injection H as <-. split; [lia|assumption].
  - apply IH in H. split; [lia|tauto].
Qed.

Lemma scanRow_None (b : Grid) (y n x0 : nat) :
  scanRow b y n x0 = None -> forall x, x0 <= x < x0 + n -> cell b y x <> EMPTY.
Proof.
  clear. revert x0; induction n as [|n IH]; intros x0 H x Hx; simpl in H; [lia|].
  destruct (Z.eqb_spec (cell b y x0) 0) as [E|E]; [discriminate|].
  destruct (Nat.eq_dec x x0) as [->|Hne]; [assumption|].
  apply (IH (S x0)); [assumption|lia].
Qed.

Lemma scanRows_Some (b : Grid) (n y0 x y : nat) :
  scanRows b n y0 = Some (x, y) ->
  x < SIZE /\ y0 <= y < y0 + n /\ cell b y x = EMPTY.
Proof.
  clear. revert y0; induction n as [|n IH]; intros y0 H; simpl in H; [discriminate|].
  destruct (scanRow b y0 SIZE 0) as [x1|] eqn:E.
  - injection H as <- <-. apply scanRow_Some in E. repeat split; try lia; tauto.
  - apply IH in H. repeat split; try lia; tauto.
Qed.

Lemma scanRows_None (b : Grid) (n y0 : nat) :
  scanRows b n y0 = None ->
  forall y x, y0 <= y < y0 + n -> x < SIZE -> cell b y x <> EMPTY.
Proof.
  clear. revert y0; induction n as [|n IH]; intros y0 H y x Hy Hx; simpl in H; [lia|].
  destruct (scanRow b y0 SIZE 0) as [x1|] eqn:E; [discriminate|].
  destruct (Nat.eq_dec y y0) as [->|Hne].
  - apply (scanRow_None _ _ _ _ E). lia.
  - apply (IH (S y0)); [assumption|lia|assumption].
Qed.

Lemma nextEmpty_Some (b : Grid) (x y : nat) :
  nextEmpty b = Some (x, y) -> x < SIZE /\ y < SIZE /\ cell b y x = EMPTY.
Proof.
  clear. intros H. apply scanRows_Some in H. repeat split; try lia; tauto.
Qed.

Lemma nextEmpty_None (b : Grid) : nextEmpty b = None -> complete b.
Proof.
  clear. intros H y x Hy Hx. apply (scanRows_None _ _ _ H); lia.
Qed.

Lemma complete_nextEmpty (b : Grid) : complete b -> nextEmpty b = None.
Proof.
  clear. intros H. destruct (nextEmpty b) as [[x y]|] eqn:E; [|reflexivity].
  apply nextEmpty_Some in E. destruct E as (Hx & Hy & E).
  now apply H in E.
Qed.

(** ** permittedValue *)

Lemma nth_forbid (v : Z) (p : list bool) (k : nat) :
  nth k (forbid v p) false = nth k p false && negb (Z.to_nat v =? k).
Proof.
  clear. unfold forbid. destruct (Nat.eqb_spec (Z.to_nat v) k) as [E|Hne]; simpl.
  - subst k. rewrite andb_false_r.
    destruct (Nat.lt_ge_cases (Z.to_nat v) (length p)).
    + now apply nth_upd_eq.
    + apply nth_overflow. now rewrite length_upd.
  - rewrite andb_true_r. now apply nth_upd_neq.
Qed.

Lemma nth_forbid_all {A : Type} (f : A -> Z) (l : list A) (p : list bool) (k : nat) :
  nth k (fold_left (fun p a => forbid (f a) p) l p) false
  = nth k p false && forallb (fun a => negb (Z.to_nat (f a) =? k)) l.
Proof.
  clear. revert p; induction l as [|a l IH]; intros p; simpl.
  - now rewrite andb_true_r.
  - rewrite IH, nth_forbid. now rewrite andb_assoc.
Qed.

Lemma nth_forbid_box (b : Grid) (ly lx : list nat) (p : list bool) (k : nat) :
  nth k (fold_left (fun p i => fold_left (fun p j => forbid (cell b i j) p) lx p)
                   ly p) false
  = nth k p false
    && forallb (fun i => forallb (fun j => negb (Z.to_nat (cell b i j) =? k)) lx) ly.
Proof.
  clear. revert p; induction ly as [|i ly IH]; intros p; simpl.
  - now rewrite andb_true_r.
  - rewrite IH, (nth_forbid_all (fun j => cell b i j)). now rewrite andb_assoc.
Qed.

Lemma nth_permit_all (l : list nat) (p : list bool) (k : nat) :
  k < length p -> nth k p false = true \/ In k l ->
  nth k (fold_left (fun p i => upd i true p) l p) false = true.
Proof.
  clear. revert p; induction l as [|a l IH]; intros p Hk H; simpl.
  - destruct H as [H|[]]. assumption.
  - apply IH; [now rewrite length_upd|].
    destruct (Nat.eq_dec a k) as [->|Hne].
    + left. now apply nth_upd_eq.
    + destruct H as [H|[H|H]]; [left|congruence|right; assumption].
      now rewrite nth_upd_neq.
Qed.

Lemma box_rows (y i : nat) :
  y < SIZE ->
  (y / squareSize * squareSize <= i < y / squareSize * squareSize + squareSize
   <-> i < SIZE /\ i / squareSize = y / squareSize).
Proof.
  clear - SIZE_square SIZE_pos. intros Hy.
  pose proof squareSize_pos as Hs.
  set (s := squareSize) in *.
  assert (Hq : y / s < s) by (apply Nat.Div0.div_lt_upper_bound; lia).
  split.
  - intros [Hlo Hhi]. split; [nia|].
    symmetry. apply (Nat.div_unique i s (y / s) (i - y / s * s)); lia.
  - intros [Hi E].
    pose proof (Nat.Div0.mul_div_le i s) as H1.
    pose proof (Nat.mul_succ_div_gt i s ltac:(lia)) as H2.
    rewrite E in H1, H2. lia.
Qed.

Lemma permittedValue_spec (b : Grid) (x y k : nat) :
  x < SIZE -> y < SIZE -> 1 <= k <= SIZE ->
  (nth k (permittedValue b x y (repeat false (SIZE + 1))) false = true
   <-> absent b x y (Z.of_nat k)).
Proof.
  clear - SIZE_square SIZE_pos. intros Hx Hy Hk.
  pose proof squareSize_pos as Hs.
  unfold permittedValue.
  rewrite nth_forbid_box.
  rewrite (nth_forbid_all (fun yval => cell b yval x)).
  rewrite (nth_forbid_all (fun xval => cell b y xval)).
  rewrite nth_forbid.
  rewrite nth_permit_all;
    [|rewrite repeat_length; lia|right; apply in_seq; lia].
  replace (Z.to_nat 0 =? k) with false by (symmetry; apply Nat.eqb_neq; lia).
  cbn [negb andb]. rewrite !andb_true_iff, !forallb_forall.
  replace (S (x / squareSize * squareSize + squareSize - 1)
           - x / squareSize * squareSize) with squareSize by lia.
  replace (S (y / squareSize * squareSize + squareSize - 1)
           - y / squareSize * squareSize) with squareSize by lia.
  unfold absent. split.
  - intros [[Hrow Hcol] Hbox]. repeat split.
    + intros x' Hx' E. specialize (Hrow x' ltac:(apply in_seq; lia)).
      apply negb_true_iff, Nat.eqb_neq in Hrow. lia.
    + intros y' Hy' E. specialize (Hcol y' ltac:(apply in_seq; lia)).
      apply negb_true_iff, Nat.eqb_neq in Hcol. lia.
    + intros y' x' Hy' Hx' Ey Ex E.
      assert (Iy : In y' (seq (y / squareSize * squareSize) squareSize))
        by (apply in_seq, box_rows; auto).
      assert (Ix : In x' (seq (x / squareSize * squareSize) squareSize))
        by (apply in_seq, box_rows; auto).
      specialize (Hbox y' Iy). rewrite forallb_forall in Hbox.
      specialize (Hbox x' Ix).
      apply negb_true_iff, Nat.eqb_neq in Hbox. lia.
  - intros (Hrow & Hcol & Hbox). repeat split.
    + intros x' Hx'. apply in_seq in Hx'.
      apply negb_true_iff, Nat.eqb_neq. specialize (Hrow x' ltac:(lia)). lia.
    + intros y' Hy'. apply in_seq in Hy'.
      apply negb_true_iff, Nat.eqb_neq. specialize (Hcol y' ltac:(lia)). lia.
    + intros y' Hy'. apply forallb_forall. intros x' Hx'.
      apply in_seq, box_rows in Hy'; auto. apply in_seq, box_rows in Hx'; auto.
      apply negb_true_iff, Nat.eqb_neq.
      specialize (Hbox y' x' ltac:(tauto) ltac:(tauto) ltac:(tauto) ltac:(tauto)).
      lia.
Qed.

(** ** getValidIntegers *)

Lemma getValidIntegers_loop (permitted : list bool) (l : list nat)
    (intIndex : nat) (validIntegers : list Z) :
  intIndex + length l <= length validIntegers ->
  let '(n, vi) :=
    fold_left
      (fun '(intIndex, validIntegers) permitIndex =>
         if nth permitIndex permitted false
         then (S intIndex, upd intIndex (Z.of_nat permitIndex) validIntegers)
         else (intIndex, validIntegers))
      l (intIndex, validIntegers) in
  length vi = length validIntegers /\
  n <= intIndex + length l /\
  firstn n vi
  = firstn intIndex validIntegers
    ++ map Z.of_nat (filter (fun k => nth k permitted false) l).
Proof.
  clear. revert intIndex validIntegers.
  induction l as [|a l IH]; intros i vi Hlen; simpl in *.
  - rewrite app_nil_r. repeat split; lia.
  - destruct (nth a permitted false) eqn:E.
    + specialize (IH (S i) (upd i (Z.of_nat a) vi)).
      rewrite length_upd in IH. specialize (IH ltac:(lia)).
      destruct (fold_left _ l _) as [n vi'].
      destruct IH as (H1 & H2 & H3). repeat split; [assumption|lia|].
      rewrite H3, firstn_upd_snoc by lia. simpl. now rewrite <- app_assoc.
    + specialize (IH i vi ltac:(lia)).
      destruct (fold_left _ l _) as [n vi'].
      destruct IH as (H1 & H2 & H3). repeat split; [assumption|lia|assumption].
Qed.

Lemma candidates_eq (b : Grid) (x y : nat) :
  candidates b x y
  = map Z.of_nat
      (filter (fun k => nth k (permittedValue b x y (repeat false (SIZE + 1))) false)
              (seq 1 SIZE)).
Proof.
  clear. unfold candidates, getValidIntegers.
  pose proof (getValidIntegers_loop
                (permittedValue b x y (repeat false (SIZE + 1)))
                (seq 1 SIZE) 0 (repeat 0%Z SIZE)) as H.
  rewrite length_seq, repeat_length in H. specialize (H ltac:(lia)).
  destruct (fold_left _ _ _) as [n vi]. tauto.
Qed.

Lemma getValidIntegers_length (b : Grid) (x y : nat) :
  length (snd (getValidIntegers b x y (repeat 0%Z SIZE))) = SIZE /\
  fst (getValidIntegers b x y (repeat 0%Z SIZE)) <= SIZE.
Proof.
  clear. unfold getValidIntegers.
  pose proof (getValidIntegers_loop
                (permittedValue b x y (repeat false (SIZE + 1)))
                (seq 1 SIZE) 0 (repeat 0%Z SIZE)) as H.
  rewrite length_seq, repeat_length in H. specialize (H ltac:(lia)).
  destruct (fold_left _ _ _) as [n vi]. simpl. tauto.
Qed.

Lemma In_candidates (b : Grid) (x y : nat) (v : Z) :
  x < SIZE -> y < SIZE ->
  (In v (candidates b x y) <-> (1 <= v <= Z.of_nat SIZE)%Z /\ absent b x y v).
Proof.
  clear - SIZE_square SIZE_pos. intros Hx Hy. rewrite candidates_eq, in_map_iff. split.
  - intros (k & <- & Hk). apply filter_In in Hk. destruct Hk as [Hk Hp].
    apply in_seq in Hk. split; [lia|].
    apply permittedValue_spec; auto; lia.
  - intros [Hv Ha]. exists (Z.to_nat v). split; [lia|].
    apply filter_In. split; [apply in_seq; lia|].
    apply permittedValue_spec; auto; [lia|].
    now replace (Z.of_nat (Z.to_nat v)) with v by lia.
Qed.

Lemma NoDup_map_of_nat (l : list nat) : NoDup l -> NoDup (map Z.of_nat l).
Proof.
  clear. induction 1 as [|a l Ha Hl IH]; simpl; constructor; auto.
  rewrite in_map_iff. intros (k & E & Hk). apply Nat2Z.inj in E. now subst.
Qed.

Lemma NoDup_candidates (b : Grid) (x y : nat) : NoDup (candidates b x y).
Proof.
  clear. rewrite candidates_eq.
  apply NoDup_map_of_nat, NoDup_filter, seq_NoDup.
Qed.

(** ** Validity under single stores *)

Lemma sameUnit_sym (y x y' x' : nat) : sameUnit y x y' x' -> sameUnit y' x' y x.
Proof. clear. unfold sameUnit. intuition. Qed.

Lemma absent_sameUnit (b : Grid) (x y : nat) (v : Z) (y' x' : nat) :
  absent b x y v -> y' < SIZE -> x' < SIZE -> sameUnit y x y' x' ->
  cell b y' x' <> v.
Proof.
  clear. intros (Hrow & Hcol & Hbox) Hy' Hx' [E|[E|[E1 E2]]].
  - subst y'. now apply Hrow.
  - subst x'. now apply Hcol.
  - apply Hbox; auto.
Qed.

Lemma valid_fill (b : Grid) (y x : nat) (v : Z) :
  length b = SIZE * SIZE -> y < SIZE -> x < SIZE ->
  valid b -> absent b x y v -> valid (setCell b y x v).
Proof.
  clear. intros Hl Hy Hx Hb Ha y1 x1 y2 x2 H1 H1' H2 H2' Hne Hu Hnz.
  destruct (Nat.eq_dec y1 y) as [Ey1|Ny1], (Nat.eq_dec x1 x) as [Ex1|Nx1];
  destruct (Nat.eq_dec y2 y) as [Ey2|Ny2], (Nat.eq_dec x2 x) as [Ex2|Nx2];
    subst; try congruence;
    repeat first
      [ rewrite cell_setCell_eq in * by assumption
      | rewrite (cell_setCell_neq b y x) in * by (auto; congruence) ];
    try (now apply Hb);
    try (intros E; symmetry in E; revert E;
         apply (absent_sameUnit b x y); assumption);
    try (apply (absent_sameUnit b x y); auto using sameUnit_sym).
Qed.

Lemma valid_clear (b : Grid) (y x : nat) :
  length b = SIZE * SIZE -> y < SIZE -> x < SIZE ->
  valid b -> valid (setCell b y x EMPTY).
Proof.
  clear. intros Hl Hy Hx Hb y1 x1 y2 x2 H1 H1' H2 H2' Hne Hu Hnz.
  destruct (Nat.eq_dec y1 y) as [Ey1|Ny1], (Nat.eq_dec x1 x) as [Ex1|Nx1];
  destruct (Nat.eq_dec y2 y) as [Ey2|Ny2], (Nat.eq_dec x2 x) as [Ex2|Nx2];
    subst; try congruence;
    repeat first
      [ rewrite cell_setCell_eq in * by assumption
      | rewrite (cell_setCell_neq b y x) in * by (auto; congruence) ];
    try congruence; try (now apply Hb).
Qed.

(** ** duplicateBoard *)

Lemma copy_row (r : Grid) (i : nat) (lx : list nat) (w : Grid) :
  i < SIZE -> (forall j, In j lx -> j < SIZE) -> length w = SIZE * SIZE ->
  let w' := fold_left (fun w j => setCell w i j (cell r i j)) lx w in
  length w' = SIZE * SIZE /\
  (forall x, In x lx -> cell w' i x = cell r i x) /\
  (forall y x, x < SIZE -> y <> i \/ ~ In x lx -> cell w' y x = cell w y x).
Proof.
  clear. intros Hi. revert w. induction lx as [|a l IH]; intros w Hl Hw; simpl.
  - repeat split; auto. intros x [].
  - assert (Ha : a < SIZE) by (apply Hl; now left).
    destruct (IH (setCell w i a (cell r i a))) as (L1 & L2 & L3).
    + intros j Hj. apply Hl. now right.
    + unfold setCell. now rewrite length_upd.
    + repeat split; auto.
      * intros x [<-|Hx]; auto.
        destruct (in_dec Nat.eq_dec a l) as [Hin|Hin]; auto.
        rewrite L3 by auto. now apply cell_setCell_eq.
      * intros y x Hx Hor. rewrite L3 by tauto.
        apply cell_setCell_neq; auto. intros E. injection E as <- <-. tauto.
Qed.

Lemma copy_rows (r : Grid) (ly : list nat) (w : Grid) :
  (forall i, In i ly -> i < SIZE) -> length w = SIZE * SIZE ->
  let w' :=
    fold_left
      (fun w i => fold_left (fun w j => setCell w i j (cell r i j)) (seq 0 SIZE) w)
      ly w in
  length w' = SIZE * SIZE /\
  (forall y x, In y ly -> x < SIZE -> cell w' y x = cell r y x) /\
  (forall y x, x < SIZE -> ~ In y ly -> cell w' y x = cell w y x).
Proof.
  clear. revert w. induction ly as [|a l IH]; intros w Hl Hw; simpl.
  - repeat split; auto. intros y x [].
  - assert (Ha : a < SIZE) by (apply Hl; now left).
    destruct (copy_row r a (seq 0 SIZE) w Ha) as (R1 & R2 & R3); auto.
    { intros j Hj. apply in_seq in Hj. lia. }
    destruct (IH (fold_left (fun w j => setCell w a j (cell r a j)) (seq 0 SIZE) w))
      as (L1 & L2 & L3); auto.
    { intros j Hj. apply Hl. now right. }
    repeat split; auto.
    + intros y x [<-|Hy] Hx; auto.
      destruct (in_dec Nat.eq_dec a l) as [Hin|Hin]; auto.
      rewrite L3 by auto. apply R2, in_seq. lia.
    + intros y x Hx Hy. rewrite L3 by tauto.
      apply R3; [assumption|left; intros ->; apply Hy; now left].
Qed.

Lemma duplicateBoard_copy (read write : Grid) :
  length read = SIZE * SIZE -> length write = SIZE * SIZE ->
  duplicateBoard read write = read.
Proof.
  clear - SIZE_pos. intros Hr Hw. unfold duplicateBoard.
  destruct (copy_rows read (seq 0 SIZE) write) as (L1 & L2 & L3); auto.
  { intros j Hj. apply in_seq in Hj. lia. }
  apply grid_ext; auto.
  intros y x Hy Hx. apply L2; auto. apply in_seq. lia.
Qed.

(** ** solveBoard *)

Lemma last_default {A : Type} (l : list A) (d d' : A) :
  l <> [] -> last l d = last l d'.
Proof.
  clear. induction l as [|a l IH]; intros H; [congruence|].
  destruct l as [|a' l]; [reflexivity|].
  change (last (a' :: l) d = last (a' :: l) d'). apply IH. discriminate.
Qed.

Lemma last_app {A : Type} (l1 l2 : list A) (d : A) :
  last (l1 ++ l2) d = last l2 (last l1 d).
Proof.
  clear. destruct l2 as [|b l2]; [now rewrite app_nil_r|].
  induction l1 as [|a l1 IH]; [reflexivity|].
  transitivity (last (l1 ++ b :: l2) d).
  - simpl. destruct (l1 ++ b :: l2) eqn:E; [|reflexivity].
    now destruct l1.
  - rewrite IH. apply last_default. discriminate.
Qed.

(** The loop of [solveBoard] at the empty cell [(x, y)] of [b], when every
    recursive call behaves on [setCell b y x v] as [L v] describes. *)
Lemma solveLoop_run (rec : Machine -> option (Z * Machine)) (b : Grid) (x y : nat)
    (L : Z -> list Grid) (vals : list Z) :
  length b = SIZE * SIZE -> x < SIZE -> y < SIZE -> cell b y x = EMPTY ->
  (forall v, In v vals -> valid b -> valid (setCell b y x v)) ->
  (forall v m, In v vals -> board m = setCell b y x v ->
     length (solution m) = SIZE * SIZE ->
     exists m', rec m = Some (Z.of_nat (length (L v)), m') /\
       board m' = board m /\ length (solution m') = SIZE * SIZE /\
       solution m' = last (L v) (solution m) /\
       (valid (board m) -> Forall valid (history m) -> Forall valid (history m'))) ->
  forall total m, board m = b -> length (solution m) = SIZE * SIZE ->
    exists m',
      solveLoop rec x y vals total m
      = Some ((total + Z.of_nat (length (flat_map L vals)))%Z, m') /\
      board m' = b /\ length (solution m') = SIZE * SIZE /\
      solution m' = last (flat_map L vals) (solution m) /\
      (valid b -> Forall valid (history m) -> Forall valid (history m')).
Proof.
  clear. intros Hl Hx Hy Hc. induction vals as [|v vs IH]; intros Hval Hrec total m Hb Hs.
  - exists m. simpl. rewrite Z.add_0_r. repeat split; auto.
  - simpl.
    destruct (Hrec v (poke y x v m)) as (m1 & E1 & B1 & S1 & S1' & H1);
      [now left|simpl; now rewrite Hb|assumption|].
    rewrite E1. simpl in B1.
    destruct (IH (fun v' H => Hval v' (or_intror H))
                 (fun v' m' H => Hrec v' m' (or_intror H))
                 (total + Z.of_nat (length (L v)))%Z
                 (bumpBacktrack (poke y x 0%Z m1)))
      as (m2 & E2 & B2 & S2 & S2' & H2).
    { simpl. rewrite B1, Hb, <- Hc. apply setCell_restore. }
    { assumption. }
    exists m2. rewrite E2. repeat split; auto.
    + f_equal. f_equal. rewrite length_app. lia.
    + rewrite S2'. simpl. now rewrite last_app, S1'.
    + intros Vb Vh. apply H2; auto. simpl.
      assert (Vv : valid (setCell b y x v)) by (apply Hval; auto; now left).
      constructor.
      * rewrite B1, Hb, <- Hc, setCell_restore. assumption.
      * apply H1; simpl; rewrite Hb; auto.
Qed.

Lemma solveBoard_run (fuel : nat) :
  forall m, length (board m) = SIZE * SIZE -> length (solution m) = SIZE * SIZE ->
    emptyCells (board m) < fuel ->
    exists m',
      solveBoard fuel m = Some (Z.of_nat (length (searchOrder fuel (board m))), m') /\
      board m' = board m /\ length (solution m') = SIZE * SIZE /\
      solution m' = last (searchOrder fuel (board m)) (solution m) /\
      (valid (board m) -> Forall valid (history m) -> Forall valid (history m')).
Proof.
  clear - SIZE_square SIZE_pos.
  induction fuel as [|fuel IH]; intros m Hb Hs Hf; [lia|].
  simpl. destruct (nextEmpty (board m)) as [[x y]|] eqn:En.
  - apply nextEmpty_Some in En. destruct En as (Hx & Hy & Hc).
    assert (Hcand : candidates (board m) x y
                    = let '(n, vi) := getValidIntegers (board m) x y (repeat 0%Z SIZE)
                      in firstn n vi) by reflexivity.
    destruct (getValidIntegers (board m) x y (repeat 0%Z SIZE)) as [n vi].
    rewrite Hcand.
    destruct (Nat.ltb_spec 0 n) as [Hn|Hn].
    + destruct (solveLoop_run (solveBoard fuel) (board m) x y
                  (fun v => searchOrder fuel (setCell (board m) y x v))
                  (firstn n vi) Hb Hx Hy Hc) with (total := 0%Z) (m := m)
        as (m' & E & R); auto.
      * intros v Hv Vb. rewrite <- Hcand in Hv.
        apply In_candidates in Hv; auto. now apply valid_fill.
      * intros v m1 Hv B1 S1. rewrite <- Hcand in Hv.
        apply In_candidates in Hv; auto. destruct Hv as [Hv _].
        rewrite <- B1. apply IH; auto.
        -- rewrite B1. unfold setCell. now rewrite length_upd.
        -- rewrite B1.
           rewrite (emptyCells_fill (board m) y x v) in Hf; auto; lia.
      * exists m'. rewrite E. simpl. auto.
    + replace n with 0 by lia. simpl. exists m. repeat split; auto.
  - exists (saveSolution m). simpl. rewrite duplicateBoard_copy by assumption.
    repeat split; auto.
Qed.

(** ** shuffleValues *)

Lemma shiftDown_spec (n i : nat) (l : list Z) (log : list Access) :
  i + n <= length l ->
  length (fst (shiftDown n i l log)) = length l /\
  forall j, nth j (fst (shiftDown n i l log)) stale
            = if (i <=? j) && (j <? i + n) then nth (S j) l stale else nth j l stale.
Proof.
  clear. revert i l log. induction n as [|n IH]; intros i l log Hlen; simpl.
  - split; [reflexivity|]. intros j.
    destruct (i <=? j) eqn:E1, (j <? i + 0) eqn:E2; simpl; auto.
    apply Nat.leb_le in E1. apply Nat.ltb_lt in E2. lia.
  - destruct (IH (S i) (upd i (nth (S i) l stale) l) (Wr i :: Rd (S i) :: log))
      as [H1 H2]; [rewrite length_upd; lia|].
    rewrite length_upd in H1. split; [assumption|].
    intros j. rewrite H2.
    destruct (Nat.leb_spec (S i) j), (Nat.ltb_spec j (S i + n)),
             (Nat.leb_spec i j), (Nat.ltb_spec j (i + S n)); simpl; try lia.
    + apply nth_upd_neq. lia.
    + apply nth_upd_neq. lia.
    + assert (j = i) by lia. subst j. apply nth_upd_eq. lia.
    + apply nth_upd_neq. lia.
Qed.

Lemma firstn_snoc_nth {A : Type} (n : nat) (l : list A) (d : A) :
  n < length l -> firstn (S n) l = firstn n l ++ [nth n l d].
Proof.
  clear. revert n; induction l as [|h t IH]; intros [|n] H; simpl in *; try lia; auto.
  f_equal. apply IH. lia.
Qed.

(** One turn of the loop moves the drawn item to the end of the unshuffled
    part and closes the gap: the part is permuted, the rest is untouched. *)
Lemma shuffle_turn (n' r : nat) (l : list Z) (log : list Access) :
  r <= n' -> S n' <= length l ->
  let l2 := upd n' (nth r l stale) (fst (shiftDown (S n' - r) r l log)) in
  length l2 = length l /\
  Permutation (firstn (S n') l) (firstn (S n') l2) /\
  (forall j, S n' <= j -> nth j l2 stale = nth j l stale).
Proof.
  clear. intros Hr Hn.
  destruct (shiftDown_spec (S n' - r) r l log) as [H1 H2]; [lia|].
  set (l1 := fst (shiftDown (S n' - r) r l log)) in *.
  assert (Hnth : forall j, nth j (upd n' (nth r l stale) l1) stale
                  = if j =? n' then nth r l stale
                    else if (r <=? j) && (j <? n') then nth (S j) l stale
                    else nth j l stale).
  { intros j. destruct (Nat.eqb_spec j n') as [->|Hne].
    - apply nth_upd_eq. lia.
    - rewrite nth_upd_neq by lia. rewrite H2.
      destruct (Nat.leb_spec r j), (Nat.ltb_spec j (r + (S n' - r))),
               (Nat.ltb_spec j n'); simpl; auto; lia. }
  cbv zeta. split; [now rewrite length_upd|]. split.
  - apply (FinFun.Permutation_nth _ _ stale). cbv zeta.
    rewrite !length_firstn, length_upd, H1.
    replace (Nat.min (S n') (length l)) with (S n') by lia.
    split; [reflexivity|].
    exists (fun j => if j =? n' then r
                     else if (r <=? j) && (j <? n') then S j else j).
    split; [|split].
    + intros j Hj.
      destruct (Nat.eqb_spec j n'), (Nat.leb_spec r j), (Nat.ltb_spec j n');
        simpl; lia.
    + intros j j' Hj Hj'.
      destruct (Nat.eqb_spec j n'), (Nat.leb_spec r j), (Nat.ltb_spec j n'),
               (Nat.eqb_spec j' n'), (Nat.leb_spec r j'), (Nat.ltb_spec j' n');
        simpl; lia.
    + intros j Hj. rewrite !nth_firstn, Hnth.
      destruct (Nat.ltb_spec j (S n')); [|lia].
      destruct (Nat.eqb_spec j n'), (Nat.leb_spec r j), (Nat.ltb_spec j n');
        simpl;
        match goal with
        | |- _ = if ?c then _ else _ =>
            destruct c eqn:E; [reflexivity|apply Nat.ltb_ge in E; lia]
        end.
  - intros j Hj. rewrite Hnth.
    destruct (Nat.eqb_spec j n'), (Nat.leb_spec r j), (Nat.ltb_spec j n');
      simpl; auto; lia.
Qed.

Lemma shuffleLoop_spec (n : nat) :
  forall (l : list Z) (k : nat) (log : list Access),
    n <= length l ->
    let l' := fst (fst (shuffleLoop n l k log)) in
    length l' = length l /\
    Permutation (firstn n l) (firstn n l') /\
    (forall j, n <= j -> nth j l' stale = nth j l stale) /\
    snd (fst (shuffleLoop n l k log)) = k + n.
Proof.
  clear. induction n as [|n IH]; intros l k log Hn.
  - simpl. repeat split; auto.
  - cbn [shuffleLoop].
    assert (Hr : rand k mod S n <= n)
      by (pose proof (Nat.mod_upper_bound (rand k) (S n)); lia).
    pose proof (shuffle_turn n (rand k mod S n) l (Rd (rand k mod S n) :: log) Hr Hn)
      as T.
    destruct (shiftDown (S n - rand k mod S n) (rand k mod S n) l
                        (Rd (rand k mod S n) :: log)) as [l1 log1].
    cbn [fst] in T. destruct T as (T1 & T2 & T3).
    specialize (IH (upd n (nth (rand k mod S n) l stale) l1) (S k) (Wr n :: log1)).
    destruct IH as (I1 & I2 & I3 & I4); [lia|].
    set (l2 := upd n (nth (rand k mod S n) l stale) l1) in *.
    set (l' := fst (fst (shuffleLoop n l2 (S k) (Wr n :: log1)))) in *.
    cbn zeta. repeat split.
    + congruence.
    + rewrite T2.
      rewrite (firstn_snoc_nth n l2 stale), (firstn_snoc_nth n l' stale) by lia.
      rewrite I3 by lia. now apply Permutation_app_tail.
    + intros j Hj. rewrite I3 by lia. apply T3. lia.
    + rewrite I4. lia.
Qed.

Lemma shuffled_spec (l : list Z) (n : nat) (m : Machine) :
  n <= length l ->
  let '(l', m') := shuffled l n m in
  length l' = length l /\ Permutation (firstn n l) (firstn n l') /\
  board m' = board m /\ solution m' = solution m /\
  backtrackCount m' = backtrackCount m /\ history m' = history m.
Proof.
  clear. intros Hn. unfold shuffled, shuffleValues.
  destruct (shuffleLoop_spec n l (randCalls m) [] Hn) as (H1 & H2 & _).
  destruct (shuffleLoop n l (randCalls m) []) as [[l' k] log]. simpl in *.
  repeat split; auto.
Qed.

(** ** randomFillBoard *)

Lemma wf_fill (b : Grid) (y x : nat) (v : Z) :
  wf b -> (1 <= v <= Z.of_nat SIZE)%Z -> wf (setCell b y x v).
Proof. clear. intros Hb Hv. apply wf_setCell; auto. lia. Qed.

(** The loop of [randomFillBoard] at the empty cell [(x, y)] of [b], when
    every recursive call on [setCell b y x v] either fails and restores its
    board or succeeds with a full board. *)
Lemma fillLoop_run (rec : Machine -> option (bool * Machine)) (b : Grid) (x y : nat)
    (vals : list Z) :
  length b = SIZE * SIZE -> x < SIZE -> y < SIZE -> cell b y x = EMPTY ->
  (forall v, In v vals -> valid b -> valid (setCell b y x v)) ->
  (forall v m, In v vals -> board m = setCell b y x v ->
     exists s m', rec m = Some (s, m') /\
       (s = false -> board m' = board m) /\
       (s = true -> wf (board m') /\ complete (board m') /\
                    (valid (board m) -> valid (board m'))) /\
       (valid (board m) -> Forall valid (history m) -> Forall valid (history m'))) ->
  forall m, board m = b ->
    exists s m',
      fillLoop rec x y vals false m = Some (s, m') /\
      (s = false -> board m' = b) /\
      (s = true -> wf (board m') /\ complete (board m') /\
                   (valid b -> valid (board m'))) /\
      (valid b -> Forall valid (history m) -> Forall valid (history m')).
Proof.
  clear. intros Hl Hx Hy Hc. induction vals as [|v vs IH]; intros Hval Hrec m Hb.
  - exists false, m. simpl. repeat split; auto; discriminate.
  - simpl.
    destruct (Hrec v (poke y x v m)) as (s & m1 & E1 & F1 & T1 & H1);
      [now left|simpl; now rewrite Hb|].
    rewrite E1. simpl in F1, T1, H1. rewrite Hb in F1, T1, H1.
    assert (Vv : valid b -> valid (setCell b y x v)) by (apply Hval; now left).
    destruct s.
    + exists true, m1. split.
      * destruct vs; reflexivity.
      * repeat split; try discriminate; try (apply T1; reflexivity).
        -- intros Vb. apply T1; auto.
        -- intros Vb Vh. apply H1; auto.
    + destruct (IH (fun v' H => Hval v' (or_intror H))
                   (fun v' m' H => Hrec v' m' (or_intror H))
                   (poke y x 0%Z m1))
        as (s & m2 & E2 & F2 & T2 & H2).
      { simpl. rewrite F1 by reflexivity. rewrite <- Hc. apply setCell_restore. }
      exists s, m2. rewrite E2. repeat split; auto; try (apply T2; assumption).
      intros Vb Vh. apply H2; auto. simpl. constructor.
      * rewrite F1 by reflexivity. rewrite <- Hc, setCell_restore. assumption.
      * apply H1; auto.
Qed.

Lemma randomFillBoard_run (fuel : nat) :
  forall m, wf (board m) -> emptyCells (board m) < fuel ->
    exists s m',
      randomFillBoard fuel m = Some (s, m') /\
      (s = false -> board m' = board m) /\
      (s = true -> wf (board m') /\ complete (board m') /\
                   (valid (board m) -> valid (board m'))) /\
      (valid (board m) -> Forall valid (history m) -> Forall valid (history m')).
Proof.
  clear - SIZE_square SIZE_pos.
  induction fuel as [|fuel IH]; intros m Hb Hf; [lia|].
  simpl. destruct (nextEmpty (board m)) as [[x y]|] eqn:En.
  - apply nextEmpty_Some in En. destruct En as (Hx & Hy & Hc).
    assert (Hcand : candidates (board m) x y
                    = let '(n, vi) := getValidIntegers (board m) x y (repeat 0%Z SIZE)
                      in firstn n vi) by reflexivity.
    pose proof (getValidIntegers_length (board m) x y) as [Lvi Ln].
    destruct (getValidIntegers (board m) x y (repeat 0%Z SIZE)) as [n vi].
    simpl in Lvi, Ln.
    destruct (Nat.leb_spec n 0) as [Hn|Hn].
    + exists false, m. repeat split; auto; discriminate.
    + pose proof (shuffled_spec vi n m ltac:(lia)) as Hsh.
      destruct (shuffled vi n m) as [vi' m1].
      destruct Hsh as (_ & Hperm & B1 & _ & _ & H1).
      destruct Hb as [Hlen Hrange].
      destruct (fillLoop_run (randomFillBoard fuel) (board m) x y (firstn n vi')
                  Hlen Hx Hy Hc) with (m := m1)
        as (s & m' & E & F & T & H); auto.
      * intros v Hv Vb. apply (Permutation_in _ (Permutation_sym Hperm)) in Hv.
        rewrite <- Hcand in Hv. apply In_candidates in Hv; auto.
        now apply valid_fill.
      * intros v m2 Hv B2.
        apply (Permutation_in _ (Permutation_sym Hperm)) in Hv.
        rewrite <- Hcand in Hv. apply In_candidates in Hv; auto.
        destruct Hv as [Hv _]. apply IH.
        -- rewrite B2. apply wf_fill; auto. now split.
        -- rewrite B2.
           rewrite (emptyCells_fill (board m) y x v) in Hf; auto; lia.
      * exists s, m'. rewrite E. rewrite H1 in H. auto.
  - exists true, m. split; [reflexivity|]. split; [discriminate|]. split; [|auto].
    intros _. split; [assumption|]. split; [now apply nextEmpty_None|auto].
Qed.

(** ** The search order enumerates the completions *)

Lemma NoDup_flat_map {A B : Type} (f : A -> list B) (l : list A) :
  NoDup l -> (forall a, In a l -> NoDup (f a)) ->
  (forall a a' g, In a l -> In a' l -> In g (f a) -> In g (f a') -> a = a') ->
  NoDup (flat_map f l).
Proof.
  clear. induction 1 as [|a l Ha Hl IH]; intros Hf Hd; simpl; [constructor|].
  apply NoDup_app.
  - apply Hf. now left.
  - apply IH; [intros; apply Hf; now right|].
    intros a1 a2 g H1 H2. apply Hd; now right.
  - intros g Hg Hg'. apply in_flat_map in Hg'. destruct Hg' as (a' & Ha' & Hg').
    assert (a = a') by (apply (Hd a a' g); auto; [now left|now right]).
    subst a'. contradiction.
Qed.

Lemma completion_of_complete (b g : Grid) :
  wf b -> valid b -> complete b -> (completion b g <-> g = b).
Proof.
  clear - SIZE_pos. intros Hb Vb Cb. split.
  - intros ([Hg _] & _ & _ & He). destruct Hb as [Hb _].
    apply grid_ext; auto.
  - intros ->. refine (conj Hb (conj Cb (conj Vb _))). intros y x _ _ _. reflexivity.
Qed.

Lemma completion_step (b g : Grid) (x y : nat) :
  length b = SIZE * SIZE -> x < SIZE -> y < SIZE -> cell b y x = EMPTY ->
  (completion b g
   <-> exists v, In v (candidates b x y) /\ completion (setCell b y x v) g).
Proof.
  clear - SIZE_square SIZE_pos. intros Hl Hx Hy Hc. split.
  - intros (Wg & Cg & Vg & Eg). exists (cell g y x).
    assert (Hnz : cell g y x <> 0%Z) by now apply Cg.
    split.
    + apply In_candidates; auto. split.
      * pose proof (wf_cell_range g y x Wg). lia.
      * assert (K : forall y' x', y' < SIZE -> x' < SIZE -> sameUnit y x y' x' ->
                      cell b y' x' <> cell g y x).
        { intros y' x' Hy' Hx' Hu E.
          assert (Hne : (y, x) <> (y', x')) by (intros [= <- <-]; congruence).
          apply (Vg y x y' x'); auto.
          rewrite (Eg y' x'); auto. congruence. }
        repeat split.
        -- intros x' Hx'. apply K; auto. now left.
        -- intros y' Hy'. apply K; auto. right. now left.
        -- intros y' x' Hy' Hx' E1 E2. apply K; auto. right. right. auto.
    + refine (conj Wg (conj Cg (conj Vg _))).
      intros y' x' Hy' Hx'.
      destruct (Nat.eq_dec y' y) as [->|Ny]; [destruct (Nat.eq_dec x' x) as [->|Nx]|].
      * now rewrite cell_setCell_eq.
      * rewrite cell_setCell_neq by (auto; congruence). now apply Eg.
      * rewrite cell_setCell_neq by (auto; congruence). now apply Eg.
  - intros (v & Hv & Wg & Cg & Vg & Eg). refine (conj Wg (conj Cg (conj Vg _))).
    intros y' x' Hy' Hx' Hnz.
    rewrite <- (cell_setCell_neq b y x y' x' v); auto.
    + apply Eg; auto. rewrite cell_setCell_neq; auto. intros [= <- <-]. congruence.
    + intros [= <- <-]. congruence.
Qed.

Lemma searchOrder_spec (fuel : nat) :
  forall b, wf b -> valid b -> emptyCells b < fuel ->
    NoDup (searchOrder fuel b) /\
    forall g, In g (searchOrder fuel b) <-> completion b g.
Proof.
  clear - SIZE_square SIZE_pos.
  induction fuel as [|fuel IH]; intros b Wb Vb Hf; [lia|].
  simpl. destruct (nextEmpty b) as [[x y]|] eqn:En.
  - apply nextEmpty_Some in En. destruct En as (Hx & Hy & Hc).
    assert (Hl : length b = SIZE * SIZE) by apply Wb.
    assert (Hsub : forall v, In v (candidates b x y) ->
              NoDup (searchOrder fuel (setCell b y x v)) /\
              forall g, In g (searchOrder fuel (setCell b y x v))
                        <-> completion (setCell b y x v) g).
    { intros v Hv. apply In_candidates in Hv; auto. destruct Hv as [Hv Ha].
      apply IH.
      - now apply wf_fill.
      - now apply valid_fill.
      - rewrite (emptyCells_fill b y x v) in Hf; auto; lia. }
    split.
    + apply NoDup_flat_map.
      * apply NoDup_candidates.
      * intros v Hv. now apply Hsub.
      * intros v v' g Hv Hv' Hg Hg'.
        apply (Hsub v Hv) in Hg. apply (Hsub v' Hv') in Hg'.
        destruct Hg as (_ & _ & _ & Eg), Hg' as (_ & _ & _ & Eg').
        apply In_candidates in Hv, Hv'; auto.
        specialize (Eg y x Hy Hx). specialize (Eg' y x Hy Hx).
        rewrite cell_setCell_eq in Eg, Eg' by assumption.
        rewrite <- Eg, <- Eg' by lia. reflexivity.
    + intros g. rewrite in_flat_map, (completion_step b g x y) by assumption.
      split; intros (v & Hv & H); exists v; (split; [assumption|]);
        now apply (Hsub v Hv).
  - apply nextEmpty_None in En. split.
    + constructor; [intros []|constructor].
    + intros g. rewrite completion_of_complete by assumption.
      simpl. intuition.
Qed.

(** ** The boolean checkers *)

Lemma wfb_iff (b : Grid) : wfb b = true <-> wf b.
Proof.
  clear. unfold wfb, wf.
  rewrite andb_true_iff, Nat.eqb_eq, forallb_forall, Forall_forall.
  split; intros [H1 H2]; (split; [assumption|]); intros v Hv; specialize (H2 v Hv).
  - apply andb_true_iff in H2. lia.
  - apply andb_true_iff. lia.
Qed.

Lemma sameUnitb_iff (y x y' x' : nat) :
  sameUnitb y x y' x' = true <-> sameUnit y x y' x'.
Proof.
  clear. unfold sameUnitb, sameUnit.
  rewrite !orb_true_iff, andb_true_iff, !Nat.eqb_eq. tauto.
Qed.

Lemma validb_iff (b : Grid) : validb b = true <-> valid b.
Proof.
  clear. unfold validb, valid. split.
  - intros H y x y' x' Hy Hx Hy' Hx' Hne Hu Hnz E.
    rewrite forallb_forall in H. specialize (H y ltac:(apply in_seq; lia)).
    rewrite forallb_forall in H. specialize (H x ltac:(apply in_seq; lia)).
    rewrite forallb_forall in H. specialize (H y' ltac:(apply in_seq; lia)).
    rewrite forallb_forall in H. specialize (H x' ltac:(apply in_seq; lia)).
    apply sameUnitb_iff in Hu. rewrite Hu, <- E, Z.eqb_refl in H. simpl in H.
    rewrite orb_false_r, orb_false_r, orb_true_iff, andb_true_iff in H.
    destruct H as [[H1 H2]|H].
    + apply Nat.eqb_eq in H1, H2. congruence.
    + apply Z.eqb_eq in H. contradiction.
  - intros H.
    apply forallb_forall; intros y Hy. apply forallb_forall; intros x Hx.
    apply forallb_forall; intros y' Hy'. apply forallb_forall; intros x' Hx'.
    apply in_seq in Hy, Hx, Hy', Hx'.
    destruct (Nat.eqb_spec y y') as [Ey|Ny], (Nat.eqb_spec x x') as [Ex|Nx];
      simpl; auto;
      destruct (sameUnitb y x y' x') eqn:Hu; simpl; auto;
      apply sameUnitb_iff in Hu;
      destruct (Z.eqb_spec (cell b y x) 0) as [E0|N0]; simpl; auto;
      apply negb_true_iff, Z.eqb_neq; apply H; auto; try lia; congruence.
Qed.

(** ** generatePuzzle *)

Lemma cellNumber_position (c : Z) :
  (0 <= c < Z.of_nat (SIZE * SIZE))%Z ->
  let y := Z.to_nat (Z.quot c (Z.of_nat SIZE)) in
  let x := Z.to_nat (Z.rem c (Z.of_nat SIZE)) in
  y < SIZE /\ x < SIZE /\ Z.of_nat (y * SIZE + x) = c.
Proof.
  clear - SIZE_pos. intros Hc. cbv zeta.
  pose proof (Z.quot_rem' c (Z.of_nat SIZE)) as E.
  pose proof (Z.rem_bound_pos c (Z.of_nat SIZE) ltac:(lia) ltac:(lia)) as Hr.
  pose proof (Z.quot_pos c (Z.of_nat SIZE) ltac:(lia) ltac:(lia)) as Hq.
  set (q := Z.quot c (Z.of_nat SIZE)) in *.
  set (r := Z.rem c (Z.of_nat SIZE)) in *.
  assert (q < Z.of_nat SIZE)%Z by nia.
  repeat split; lia.
Qed.

Lemma emptyCells_clear (b : Grid) (y x : nat) :
  length b = SIZE * SIZE -> y < SIZE -> x < SIZE -> cell b y x <> EMPTY ->
  emptyCells (setCell b y x EMPTY) = S (emptyCells b).
Proof.
  clear. intros Hl Hy Hx Hc.
  rewrite (emptyCells_fill (setCell b y x 0%Z) y x (cell b y x)); auto.
  - now rewrite setCell_restore.
  - unfold setCell. now rewrite length_upd.
  - now apply cell_setCell_eq.
Qed.

Lemma emptyCells_bound (b : Grid) : emptyCells b <= length b.
Proof. clear. apply count_occ_bound. Qed.

Lemma complete_emptyCells (b : Grid) :
  length b = SIZE * SIZE -> complete b -> emptyCells b = 0.
Proof.
  clear - SIZE_pos. intros Hl Cb. apply count_occ_not_In. intros Hin.
  apply (In_nth _ _ 0%Z) in Hin. destruct Hin as (n & Hn & E).
  rewrite Hl in Hn.
  assert (n / SIZE < SIZE) by (apply Nat.Div0.div_lt_upper_bound; lia).
  assert (n mod SIZE < SIZE) by (apply Nat.mod_upper_bound; lia).
  apply (Cb (n / SIZE) (n mod SIZE)); auto. unfold cell.
  replace (n / SIZE * SIZE + n mod SIZE) with n; auto.
  rewrite (Nat.div_mod_eq n SIZE) at 1. lia.
Qed.

Lemma completion_mono (b b' g : Grid) :
  (forall y x, y < SIZE -> x < SIZE -> cell b' y x <> EMPTY ->
               cell b' y x = cell b y x) ->
  completion b g -> completion b' g.
Proof.
  clear. intros H (Wg & Cg & Vg & Eg). refine (conj Wg (conj Cg (conj Vg _))).
  intros y x Hy Hx Hnz. rewrite H by assumption. apply Eg; auto.
  now rewrite <- H.
Qed.

Lemma completion_clear (b g : Grid) (y x : nat) :
  length b = SIZE * SIZE -> y < SIZE -> x < SIZE ->
  completion b g -> completion (setCell b y x EMPTY) g.
Proof.
  clear. intros Hl Hy Hx. apply completion_mono. intros y' x' Hy' Hx' Hnz.
  destruct (Nat.eq_dec y' y) as [->|Ny]; [destruct (Nat.eq_dec x' x) as [->|Nx]|].
  - rewrite cell_setCell_eq in Hnz by assumption. congruence.
  - apply cell_setCell_neq; auto. congruence.
  - apply cell_setCell_neq; auto. congruence.
Qed.

Lemma atLeastTwo_clear (b : Grid) (y x y' x' : nat) :
  length b = SIZE * SIZE -> y < SIZE -> x < SIZE -> y' < SIZE -> x' < SIZE ->
  atLeastTwoCompletions (setCell b y' x' EMPTY) ->
  atLeastTwoCompletions (setCell (setCell b y x EMPTY) y' x' EMPTY).
Proof.
  clear. intros Hl Hy Hx Hy' Hx' (g1 & g2 & Hne & H1 & H2).
  assert (M : forall g, completion (setCell b y' x' 0%Z) g ->
                        completion (setCell (setCell b y x 0%Z) y' x' 0%Z) g).
  { intros g. apply completion_mono. intros y2 x2 Hy2 Hx2 Hnz.
    assert (L0 : length (setCell b y x 0%Z) = SIZE * SIZE)
      by (unfold setCell; now rewrite length_upd).
    destruct (Nat.eq_dec y2 y') as [->|Ny]; [destruct (Nat.eq_dec x2 x') as [->|Nx]|].
    - rewrite cell_setCell_eq in Hnz by assumption. congruence.
    - rewrite cell_setCell_neq in * by (auto; congruence).
      rewrite (cell_setCell_neq b y' x') by (auto; congruence).
      destruct (Nat.eq_dec y' y) as [->|Ny]; [destruct (Nat.eq_dec x2 x) as [->|Nx2]|].
      + rewrite cell_setCell_eq in Hnz by assumption. congruence.
      + apply cell_setCell_neq; auto. congruence.
      + apply cell_setCell_neq; auto. congruence.
    - rewrite cell_setCell_neq in * by (auto; congruence).
      rewrite (cell_setCell_neq b y' x') by (auto; congruence).
      destruct (Nat.eq_dec y2 y) as [->|Ny2]; [destruct (Nat.eq_dec x2 x) as [->|Nx2]|].
      + rewrite cell_setCell_eq in Hnz by assumption. congruence.
      + apply cell_setCell_neq; auto. congruence.
      + apply cell_setCell_neq; auto. congruence. }
  exists g1, g2. auto.
Qed.

Lemma two_of_NoDup {A : Type} (l : list A) :
  NoDup l -> 2 <= length l -> exists a b, a <> b /\ In a l /\ In b l.
Proof.
  clear. intros Hnd Hlen. destruct l as [|a [|b l]]; simpl in Hlen; try lia.
  exists a, b. repeat split; simpl; auto.
  inversion_clear Hnd as [|? ? Ha _]. intros ->. apply Ha. now left.
Qed.

Lemma only_of_singleton {A : Type} (l : list A) (a g : A) :
  length l = 1 -> In a l -> In g l -> g = a.
Proof.
  clear. destruct l as [|b [|c l]]; simpl; try discriminate.
  intros _ [<-|[]] [<-|[]]. reflexivity.
Qed.

(** One trial of the reduction: the state reached by [solveBoard] on the
    board with the cell cleared, and what its count says. *)
Lemma trial_run (fuel : nat) (m : Machine) (y x : nat) :
  SIZE * SIZE < fuel -> wf (board m) -> length (solution m) = SIZE * SIZE ->
  valid (board m) -> y < SIZE -> x < SIZE ->
  exists (l : list Grid) (m1 : Machine),
    solveBoard fuel (poke y x EMPTY m) = Some (Z.of_nat (length l), m1) /\
    NoDup l /\
    (forall g, In g l <-> completion (setCell (board m) y x EMPTY) g) /\
    board m1 = setCell (board m) y x EMPTY /\
    length (solution m1) = SIZE * SIZE /\
    (Forall valid (history m) -> Forall valid (history m1)).
Proof.
  clear - SIZE_square SIZE_pos. intros Hf Wb Hs Vb Hy Hx.
  assert (W0 : wf (setCell (board m) y x 0%Z)) by (apply wf_setCell; auto; lia).
  assert (V0 : valid (setCell (board m) y x 0%Z))
    by (apply valid_clear; auto; apply Wb).
  assert (F0 : emptyCells (setCell (board m) y x 0%Z) < fuel).
  { pose proof (emptyCells_bound (setCell (board m) y x 0%Z)) as Hb.
    destruct W0 as [L0 _]. lia. }
  destruct (solveBoard_run fuel (poke y x 0%Z m)) as (m1 & E & B & S1 & _ & H1);
    auto; [apply W0|].
  destruct (searchOrder_spec fuel _ W0 V0 F0) as [Hnd Hin].
  simpl in E, B, H1.
  exists (searchOrder fuel (setCell (board m) y x 0%Z)), m1.
  split; [exact E|]. split; [exact Hnd|]. split; [exact Hin|].
  split; [exact B|]. split; [exact S1|].
  intros Vh. apply H1; auto.
Qed.

Lemma reduceLoop_run (fuel : nat) (S0 : Grid) :
  SIZE * SIZE < fuel ->
  forall (cells : list Z) (index : nat) (removed : Z) (m : Machine),
    NoDup cells ->
    (forall c, In c cells -> (0 <= c < Z.of_nat (SIZE * SIZE))%Z) ->
    wf (board m) -> length (solution m) = SIZE * SIZE -> valid (board m) ->
    completion (board m) S0 ->
    (forall g, completion (board m) g -> g = S0) ->
    (forall y x, y < SIZE -> x < SIZE -> In (Z.of_nat (y * SIZE + x)) cells ->
                 cell (board m) y x <> EMPTY) ->
    removed = Z.of_nat (emptyCells (board m)) ->
    (forall y x, y < SIZE -> x < SIZE -> ~ In (Z.of_nat (y * SIZE + x)) cells ->
                 cell (board m) y x <> EMPTY ->
                 atLeastTwoCompletions (setCell (board m) y x EMPTY)) ->
    exists (index' : nat) (removed' : Z) (m' : Machine),
      reduceLoop fuel cells index removed m = Some (index', removed', m') /\
      reduceLoopSpec fuel cells index removed m = Some (index', removed', m') /\
      wf (board m') /\ valid (board m') /\
      completion (board m') S0 /\
      (forall g, completion (board m') g -> g = S0) /\
      removed' = Z.of_nat (emptyCells (board m')) /\
      (index' = index + length cells \/ (MAX_EMPTY <= removed')%Z) /\
      (index' = index + length cells ->
       forall y x, y < SIZE -> x < SIZE -> cell (board m') y x <> EMPTY ->
                   atLeastTwoCompletions (setCell (board m') y x EMPTY)).
Proof.
  clear - SIZE_square SIZE_pos. intros Hf.
  induction cells as [|c rest IH];
    intros index removed m Hnd Hrange Wb Hs Vb HS0 Huniq Hfilled Hrem Hmin.
  - exists index, removed, m. simpl. rewrite Nat.add_0_r.
    do 6 (split; [solve [auto]|]). split; [assumption|]. split; [now left|].
    intros _ y x Hy Hx. apply Hmin; auto.
  - cbn [reduceLoop reduceLoopSpec]. cbv zeta.
    destruct (Z.ltb_spec removed MAX_EMPTY) as [Hlt|Hge];
      destruct (Z.leb_spec MAX_EMPTY removed) as [Hle|Hgt]; try lia.
    2:{ exists index, removed, m.
        do 6 (split; [solve [auto]|]). split; [assumption|]. split; [now right|].
        simpl. intros; lia. }
    destruct (cellNumber_position c (Hrange c (or_introl eq_refl)))
      as (Hy & Hx & Hyx).
    set (y := Z.to_nat (Z.quot c (Z.of_nat SIZE))) in *.
    set (x := Z.to_nat (Z.rem c (Z.of_nat SIZE))) in *.
    assert (Hl : length (board m) = SIZE * SIZE) by apply Wb.
    assert (Hnz : cell (board m) y x <> 0%Z)
      by (apply Hfilled; auto; rewrite Hyx; now left).
    destruct (trial_run fuel m y x Hf Wb Hs Vb Hy Hx)
      as (l & m1 & E & Lnd & Lin & B1 & S1 & _).
    rewrite E.
    assert (HS0' : completion (setCell (board m) y x 0%Z) S0)
      by now apply completion_clear.
    assert (Hlen : 1 <= length l).
    { apply Lin in HS0'. destruct l; [destruct HS0'|simpl; lia]. }
    inversion_clear Hnd as [|? ? Hc Hnd'].
    assert (Hother : forall y' x', x' < SIZE ->
              In (Z.of_nat (y' * SIZE + x')) rest -> (y, x) <> (y', x')).
    { intros y' x' Hx' Hin [= <- <-]. rewrite Hyx in Hin. contradiction. }
    assert (Hrange' : forall c0, In c0 rest -> (0 <= c0 < Z.of_nat (SIZE * SIZE))%Z)
      by (intros c0 Hc0; apply Hrange; now right).
    destruct (Z.ltb_spec 1 (Z.of_nat (length l))) as [Hmany|Hone];
      destruct (Z.leb_spec 2 (Z.of_nat (length l))) as [Hmany'|Hone']; try lia;
      destruct (Z.eqb_spec (Z.of_nat (length l)) 1) as [Heq|Hneq]; try lia.
    + (* two completions or more: the recorded value is put back *)
      set (m2 := poke y x (cell (board m) y x) m1).
      assert (Bk : board m2 = board m)
        by (simpl; rewrite B1; apply setCell_restore).
      assert (P1 : forall y' x', y' < SIZE -> x' < SIZE ->
                 In (Z.of_nat (y' * SIZE + x')) rest -> cell (board m2) y' x' <> 0%Z).
      { intros y' x' Hy' Hx' Hin. rewrite Bk. apply Hfilled; auto. now right. }
      assert (P2 : forall y' x', y' < SIZE -> x' < SIZE ->
                 ~ In (Z.of_nat (y' * SIZE + x')) rest ->
                 cell (board m2) y' x' <> 0%Z ->
                 atLeastTwoCompletions (setCell (board m2) y' x' 0%Z)).
      { intros y' x' Hy' Hx' Hnin Hnz'. rewrite Bk in *.
        destruct (Z.eq_dec (Z.of_nat (y' * SIZE + x')) c) as [Ec|Nc].
        - rewrite <- Hyx in Ec. apply Nat2Z.inj in Ec.
          apply offset_inj in Ec; auto. destruct Ec as [-> ->].
          destruct (two_of_NoDup l Lnd ltac:(lia)) as (g1 & g2 & Hne & H1 & H2).
          exists g1, g2. split; [assumption|]. split; now apply Lin.
        - apply Hmin; auto. intros [Hin|Hin]; [congruence|contradiction]. }
      destruct (IH (S index) removed m2 Hnd' Hrange'
                   ltac:(rewrite Bk; assumption) S1 ltac:(rewrite Bk; assumption)
                   ltac:(rewrite Bk; assumption) ltac:(rewrite Bk; assumption)
                   P1 ltac:(rewrite Bk; assumption) P2)
        as (i' & r' & m' & E1 & E2 & R).
      exists i', r', m'. rewrite E1, E2.
      replace (index + length (c :: rest)) with (S index + length rest)
        by (simpl; lia).
      split; [reflexivity|]. split; [reflexivity|]. exact R.
    + (* a single completion: the cell stays empty *)
      assert (L1 : length l = 1) by lia.
      assert (W1 : wf (board m1))
        by (rewrite B1; apply wf_setCell; auto; lia).
      assert (V1 : valid (board m1))
        by (rewrite B1; apply valid_clear; auto).
      assert (C1 : completion (board m1) S0) by (rewrite B1; assumption).
      assert (U1 : forall g, completion (board m1) g -> g = S0).
      { intros g Hg. rewrite B1 in Hg. apply Lin in Hg. apply Lin in HS0'.
        now apply (only_of_singleton l S0 g). }
      assert (P1 : forall y' x', y' < SIZE -> x' < SIZE ->
                 In (Z.of_nat (y' * SIZE + x')) rest -> cell (board m1) y' x' <> 0%Z).
      { intros y' x' Hy' Hx' Hin. rewrite B1.
        rewrite cell_setCell_neq by auto.
        apply Hfilled; auto. now right. }
      assert (R1 : (removed + 1)%Z = Z.of_nat (emptyCells (board m1))).
      { rewrite B1, emptyCells_clear by auto. lia. }
      assert (P2 : forall y' x', y' < SIZE -> x' < SIZE ->
                 ~ In (Z.of_nat (y' * SIZE + x')) rest ->
                 cell (board m1) y' x' <> 0%Z ->
                 atLeastTwoCompletions (setCell (board m1) y' x' 0%Z)).
      { intros y' x' Hy' Hx' Hnin Hnz'. rewrite B1 in *.
        assert (Hne : (y, x) <> (y', x')).
        { intros [= <- <-]. rewrite cell_setCell_eq in Hnz' by auto. congruence. }
        rewrite cell_setCell_neq in Hnz' by auto.
        apply atLeastTwo_clear; auto. apply Hmin; auto.
        intros [Hin|Hin]; [|contradiction].
        rewrite <- Hyx in Hin. apply Nat2Z.inj in Hin.
        apply offset_inj in Hin; auto. destruct Hin as [-> ->]. congruence. }
      destruct (IH (S index) (removed + 1)%Z m1 Hnd' Hrange' W1 S1 V1 C1 U1 P1 R1 P2)
        as (i' & r' & m' & E1 & E2 & R).
      exists i', r', m'. rewrite E1, E2.
      replace (index + length (c :: rest)) with (S index + length rest)
        by (simpl; lia).
      split; [reflexivity|]. split; [reflexivity|]. exact R.
Qed.

Lemma reduceLoop_history (fuel : nat) :
  SIZE * SIZE < fuel ->
  forall (cells : list Z) (index : nat) (removed : Z) (m : Machine),
    (forall c, In c cells -> (0 <= c < Z.of_nat (SIZE * SIZE))%Z) ->
    wf (board m) -> length (solution m) = SIZE * SIZE -> valid (board m) ->
    Forall valid (history m) ->
    exists (r : nat * Z) (m' : Machine),
      reduceLoop fuel cells index removed m = Some (r, m') /\
      Forall valid (history m').
Proof.
  clear - SIZE_square SIZE_pos. intros Hf.
  induction cells as [|c rest IH]; intros index removed m Hrange Wb Hs Vb Vh.
  - exists (index, removed), m. auto.
  - cbn [reduceLoop]. cbv zeta.
    destruct (removed <? MAX_EMPTY)%Z; [|exists (index, removed), m; auto].
    destruct (cellNumber_position c (Hrange c (or_introl eq_refl)))
      as (Hy & Hx & _).
    set (y := Z.to_nat (Z.quot c (Z.of_nat SIZE))) in *.
    set (x := Z.to_nat (Z.rem c (Z.of_nat SIZE))) in *.
    destruct (trial_run fuel m y x Hf Wb Hs Vb Hy Hx)
      as (l & m1 & E & _ & _ & B1 & S1 & H1).
    rewrite E.
    assert (Hrange' : forall c0, In c0 rest -> (0 <= c0 < Z.of_nat (SIZE * SIZE))%Z)
      by (intros c0 Hc0; apply Hrange; now right).
    destruct (1 <? Z.of_nat (length l))%Z.
    + apply IH; auto.
      * simpl. rewrite B1, setCell_restore. assumption.
      * simpl. rewrite B1, setCell_restore. assumption.
      * simpl. constructor; [|now apply H1].
        rewrite B1, setCell_restore. assumption.
    + apply IH; auto.
      * rewrite B1. apply wf_setCell; auto. lia.
      * rewrite B1. apply valid_clear; auto. apply Wb.
Qed.

Lemma shuffled_cells (m : Machine) :
  let '(cells, m0) := shuffled (map Z.of_nat (seq 0 (SIZE * SIZE))) (SIZE * SIZE) m in
  firstn (SIZE * SIZE) cells = cells /\
  Permutation (map Z.of_nat (seq 0 (SIZE * SIZE))) cells /\
  board m0 = board m /\ solution m0 = solution m /\ history m0 = history m.
Proof.
  clear. pose proof (shuffled_spec (map Z.of_nat (seq 0 (SIZE * SIZE)))
                                   (SIZE * SIZE) m) as H.
  rewrite length_map, length_seq in H. specialize (H (le_n _)).
  destruct (shuffled _ _ m) as [cells m0].
  destruct H as (L & P & B & S1 & _ & H).
  assert (F : forall l : list Z, length l = SIZE * SIZE -> firstn (SIZE * SIZE) l = l)
    by (intros l <-; apply firstn_all).
  rewrite (F cells) in P by assumption.
  rewrite F in P by (now rewrite length_map, length_seq).
  repeat split; auto.
Qed.

Lemma cells_facts (cells : list Z) :
  Permutation (map Z.of_nat (seq 0 (SIZE * SIZE))) cells ->
  NoDup cells /\
  (forall c, In c cells -> (0 <= c < Z.of_nat (SIZE * SIZE))%Z) /\
  (forall y x, y < SIZE -> x < SIZE -> In (Z.of_nat (y * SIZE + x)) cells).
Proof.
  clear. intros P. split; [|split].
  - apply (Permutation_NoDup P), NoDup_map_of_nat, seq_NoDup.
  - intros c Hc. apply (Permutation_in _ (Permutation_sym P)) in Hc.
    apply in_map_iff in Hc. destruct Hc as (k & <- & Hk). apply in_seq in Hk. lia.
  - intros y x Hy Hx. apply (Permutation_in _ P), in_map, in_seq.
    pose proof (offset_lt y x Hy Hx). lia.
Qed.

Lemma generatePuzzle_run (fuel : nat) (m : Machine) :
  wf (board m) -> complete (board m) -> valid (board m) ->
  length (solution m) = SIZE * SIZE -> SIZE * SIZE < fuel ->
  exists (cells : list Z) (m0 : Machine) (index : nat) (removed : Z) (m' : Machine),
    shuffled (map Z.of_nat (seq 0 (SIZE * SIZE))) (SIZE * SIZE) m = (cells, m0) /\
    Permutation (map Z.of_nat (seq 0 (SIZE * SIZE))) cells /\
    generatePuzzle fuel m = Some (index, removed, m') /\
    reduceLoopSpec fuel cells 0 0%Z m0 = Some (index, removed, m') /\
    completion (board m') (board m) /\
    (forall g, completion (board m') g -> g = board m) /\
    removed = Z.of_nat (emptyCells (board m')) /\
    (index = SIZE * SIZE \/ (MAX_EMPTY <= removed)%Z) /\
    (index = SIZE * SIZE ->
     forall y x, y < SIZE -> x < SIZE -> cell (board m') y x <> EMPTY ->
                 atLeastTwoCompletions (setCell (board m') y x EMPTY)).
Proof.
  clear - SIZE_square SIZE_pos. intros Wb Cb Vb Hs Hf.
  unfold generatePuzzle.
  pose proof (shuffled_cells m) as Hsh.
  destruct (shuffled _ _ m) as [cells m0].
  destruct Hsh as (F & P & B0 & S0 & _).
  destruct (cells_facts cells P) as (Hnd & Hrange & Hall).
  rewrite F.
  assert (Hlen : length cells = SIZE * SIZE).
  { rewrite <- (Permutation_length P). now rewrite length_map, length_seq. }
  destruct (reduceLoop_run fuel (board m) Hf cells 0 0%Z m0)
    as (i' & r' & m' & E1 & E2 & _ & _ & C' & U' & R' & Stop & Min);
    auto; try (rewrite B0; auto).
  - congruence.
  - now apply completion_of_complete.
  - intros g Hg. now apply (completion_of_complete (board m) g).
  - rewrite complete_emptyCells; auto. apply Wb.
  - intros y x Hy Hx Hnin. exfalso. apply Hnin. now apply Hall.
  - exists cells, m0, i', r', m'. rewrite Hlen in Stop, Min. simpl in Stop, Min.
    repeat (split; [assumption || reflexivity|]). assumption.
Qed.

Lemma completeb_iff (b : Grid) : completeb b = true <-> complete b.
Proof.
  clear. unfold completeb, complete. rewrite forallb_forall. split.
  - intros H y x Hy Hx. specialize (H y ltac:(apply in_seq; lia)).
    rewrite forallb_forall in H. specialize (H x ltac:(apply in_seq; lia)).
    now apply negb_true_iff, Z.eqb_neq in H.
  - intros H y Hy. apply forallb_forall. intros x Hx.
    apply in_seq in Hy, Hx. apply negb_true_iff, Z.eqb_neq, H; lia.
Qed.

(** ** generateBoard *)

Lemma fold_left_pointwise {A B : Type} (f g : A -> B -> A) (l : list B) (a : A) :
  (forall a b, f a b = g a b) -> fold_left f l a = fold_left g l a.
Proof.
  clear. intros H. revert a. induction l as [|b l IH]; intros a; simpl; auto.
  now rewrite H, IH.
Qed.

Lemma board_zero_row (i : nat) (l : list nat) (m : Machine) :
  board (fold_left (fun m j => poke i j 0%Z m) l m)
  = fold_left (fun w j => setCell w i j 0%Z) l (board m).
Proof.
  clear. revert m. induction l as [|j l IH]; intros m; simpl; auto.
Qed.

Lemma board_zeroBoard (m : Machine) :
  length (board m) = SIZE * SIZE -> board (zeroBoard m) = repeat 0%Z (SIZE * SIZE).
Proof.
  clear - SIZE_pos. intros Hl.
  rewrite <- (duplicateBoard_copy (repeat 0%Z (SIZE * SIZE)) (board m));
    [|apply repeat_length|assumption].
  unfold zeroBoard, duplicateBoard.
  assert (G : forall (ly : list nat) (m : Machine),
            board (fold_left
                     (fun m i => fold_left (fun m j => poke i j 0%Z m) (seq 0 SIZE) m)
                     ly m)
            = fold_left
                (fun w i =>
                   fold_left
                     (fun w j => setCell w i j (cell (repeat 0%Z (SIZE * SIZE)) i j))
                     (seq 0 SIZE) w)
                ly (board m)).
  { induction ly as [|i ly IH]; intros m1; simpl; auto.
    rewrite IH, board_zero_row. f_equal.
    apply fold_left_pointwise. intros w j. unfold cell. now rewrite nth_repeat. }
  apply G.
Qed.

Lemma generateBoard_run (fuel : nat) (m : Machine) :
  length (board m) = SIZE * SIZE -> SIZE * SIZE < fuel ->
  exists (solved : bool) (m' : Machine),
    randomFillBoard fuel (zeroBoard m) = Some (solved, m') /\
    generateBoard fuel m = Some (1%Z, m').
Proof.
  clear - SIZE_square SIZE_pos. intros Hl Hf.
  pose proof (board_zeroBoard m Hl) as Hz.
  destruct (randomFillBoard_run fuel (zeroBoard m)) as (s & m' & E & _).
  - rewrite Hz. split; [apply repeat_length|].
    apply Forall_forall. intros v Hv. apply repeat_spec in Hv. subst v. lia.
  - rewrite Hz. pose proof (emptyCells_bound (repeat 0%Z (SIZE * SIZE))) as Hb.
    rewrite repeat_length in Hb. lia.
  - exists s, m'. unfold generateBoard. now rewrite E.
Qed.

(** ** The accesses of shuffleValues *)

Lemma shiftDown_log_mono (e : Access) (n i : nat) (l : list Z) (log : list Access) :
  In e log -> In e (snd (shiftDown n i l log)).
Proof.
  clear. revert i l log. induction n as [|n IH]; intros i l log H; simpl; auto.
  apply IH. now right; right.
Qed.

Lemma shiftDown_reads_end (n i : nat) (l : list Z) (log : list Access) :
  1 <= n -> In (Rd (i + n)) (snd (shiftDown n i l log)).
Proof.
  clear. revert i l log. induction n as [|n IH]; intros i l log H; [lia|].
  simpl. destruct n as [|n].
  - simpl. right. left. f_equal. lia.
  - replace (i + S (S n)) with (S i + S n) by lia. apply IH. lia.
Qed.

Lemma shuffleLoop_log_mono (e : Access) (n : nat) :
  forall (l : list Z) (k : nat) (log : list Access),
    In e log -> In e (snd (shuffleLoop n l k log)).
Proof.
  clear. induction n as [|n IH]; intros l k log H; [assumption|].
  cbn [shuffleLoop].
  pose proof (shiftDown_log_mono e (S n - rand k mod S n) (rand k mod S n) l
                (Rd (rand k mod S n) :: log) (or_intror H)) as H1.
  destruct (shiftDown _ _ l _) as [l1 log1]. simpl in H1.
  apply IH. now right.
Qed.

Lemma shuffleLoop_reads_listSize (n : nat) (l : list Z) (k : nat) (log : list Access) :
  1 <= n -> In (Rd n) (snd (shuffleLoop n l k log)).
Proof.
  clear. intros Hn. destruct n as [|n]; [lia|].
  cbn [shuffleLoop].
  assert (Hr : rand k mod S n <= n)
    by (pose proof (Nat.mod_upper_bound (rand k) (S n)); lia).
  pose proof (shiftDown_reads_end (S n - rand k mod S n) (rand k mod S n) l
                (Rd (rand k mod S n) :: log) ltac:(lia)) as H1.
  replace (rand k mod S n + (S n - rand k mod S n)) with (S n) in H1 by lia.
  destruct (shiftDown _ _ l _) as [l1 log1]. simpl in H1.
  apply shuffleLoop_log_mono. now right.
Qed.

(** ** The solution array after solveBoard *)

Lemma solveBoard_saves_last_found (fuel : nat) (m : Machine) :
  length (board m) = SIZE * SIZE -> length (solution m) = SIZE * SIZE ->
  emptyCells (board m) < fuel ->
  exists (found : Z) (m' : Machine),
    solveBoard fuel m = Some (found, m') /\
    solution m' = last (searchOrder fuel (board m)) (solution m).
Proof.
  clear - SIZE_square SIZE_pos. intros Hb Hs Hf.
  destruct (solveBoard_run fuel m Hb Hs Hf) as (m' & E & _ & _ & S' & _).
  eauto.
Qed.

(** * Main theorems *)

(** C5. On a grid of order [SIZE], for a cell [(x, y)] holding EMPTY, the
    first [intIndex] entries of the array filled by [getValidIntegers] are
    exactly the values of [1, SIZE] that appear nowhere in row [y], in
    column [x] or in the box of [(x, y)]; EMPTY is never among them; and on
    an all-EMPTY grid they are the whole of [1 .. SIZE] (so [1 .. 9] for
    every cell of the 9 by 9 grid).  The function only reads the board: it
    returns no new board. *)
Theorem getValidIntegers_spec (b : Grid) (x y : nat) :
  wf b -> x < SIZE -> y < SIZE -> cell b y x = EMPTY ->
  let '(intIndex, validIntegers) := getValidIntegers b x y (repeat 0%Z SIZE) in
  (forall v, In v (firstn intIndex validIntegers)
             <-> (1 <= v <= Z.of_nat SIZE)%Z /\ absent b x y v) /\
  ~ In EMPTY (firstn intIndex validIntegers) /\
  ((forall y' x', cell b y' x' = EMPTY) ->
   intIndex = SIZE /\ firstn intIndex validIntegers = map Z.of_nat (seq 1 SIZE)).
Proof.
  clear - SIZE_square SIZE_pos. intros Wb Hx Hy Hc.
  pose proof (In_candidates b x y) as HI.
  pose proof (candidates_eq b x y) as HE.
  pose proof (getValidIntegers_length b x y) as [HL HN].
  unfold candidates in HI, HE.
  destruct (getValidIntegers b x y (repeat 0%Z SIZE)) as [n vi].
  simpl in HL, HN.
  split; [intros v; now apply HI|]. split.
  - intros H0. apply HI in H0; auto. lia.
  - intros Hempty.
    assert (Hall : firstn n vi = map Z.of_nat (seq 1 SIZE)).
    { rewrite HE. f_equal. apply forallb_filter_id, forallb_forall.
      intros k Hk. apply in_seq in Hk.
      apply permittedValue_spec; auto; [lia|].
      repeat split; intros; rewrite Hempty; lia. }
    split; [|assumption].
    apply (f_equal (@length Z)) in Hall.
    rewrite length_map, length_seq, length_firstn in Hall. lia.
Qed.

(** The completions are no more than the boards the search order lists. *)
Lemma atMostCompletions_search (fuel : nat) (b : Grid) (n : Z) :
  wf b -> valid b -> emptyCells b < fuel ->
  (Z.of_nat (length (searchOrder fuel b)) <= n)%Z -> atMostCompletions b n.
Proof.
  clear - SIZE_square SIZE_pos. intros Wb Vb Hf Hn l Hnd Hl.
  destruct (searchOrder_spec fuel b Wb Vb Hf) as [_ Hin].
  apply Z.le_trans with (Z.of_nat (length (searchOrder fuel b))); [|exact Hn].
  apply inj_le, NoDup_incl_length; [exact Hnd|].
  intros g Hg. now apply Hin, Hl.
Qed.

(** C1. On a grid whose filled cells satisfy validity and whose completions
    number [INT_MAX] at most, with any fuel above the number of empty cells,
    [solveBoard] returns the number of distinct complete valid grids that
    fill the empty cells of the board: the length of a duplicate-free list
    holding exactly the completions, a value of the C type [int].  It
    returns 0 when the board has no completion and 1 when it has no empty
    cell. *)
Theorem solveBoard_counts_completions (fuel : nat) (m : Machine) :
  wf (board m) -> length (solution m) = SIZE * SIZE -> valid (board m) ->
  emptyCells (board m) < fuel ->
  atMostCompletions (board m) INT_MAX ->
  exists (l : list Grid) (m' : Machine),
    NoDup l /\ (forall g, In g l <-> completion (board m) g) /\
    (0 <= Z.of_nat (length l) <= INT_MAX)%Z /\
    solveBoard fuel m = Some (Z.of_nat (length l), m') /\
    ((forall g, ~ completion (board m) g) -> solveBoard fuel m = Some (0%Z, m')) /\
    (complete (board m) -> solveBoard fuel m = Some (1%Z, m')).
Proof.
  clear - SIZE_square SIZE_pos. intros Wb Hs Vb Hf Hmax.
  destruct (solveBoard_run fuel m (proj1 Wb) Hs Hf) as (m' & E & _).
  destruct (searchOrder_spec fuel (board m) Wb Vb Hf) as [Hnd Hin].
  exists (searchOrder fuel (board m)), m'.
  split; [exact Hnd|]. split; [exact Hin|].
  split; [split; [apply Nat2Z.is_nonneg|apply Hmax; [exact Hnd|apply Hin]]|].
  split; [exact E|]. split.
  - intros Hnone. rewrite E.
    destruct (searchOrder fuel (board m)) as [|g l]; [reflexivity|].
    exfalso. apply (Hnone g), Hin. now left.
  - intros Cb. rewrite E. destruct fuel; [lia|].
    simpl. now rewrite (complete_nextEmpty _ Cb).
Qed.

(** C3. For every grid, with any fuel above the number of empty cells,
    [solveBoard] returns with the board cell for cell as it was at the
    call. *)
Theorem solveBoard_restores_board (fuel : nat) (m : Machine) :
  wf (board m) -> length (solution m) = SIZE * SIZE ->
  emptyCells (board m) < fuel ->
  exists (found : Z) (m' : Machine),
    solveBoard fuel m = Some (found, m') /\ board m' = board m.
Proof.
  clear - SIZE_square SIZE_pos. intros Wb Hs Hf.
  destruct (solveBoard_run fuel m (proj1 Wb) Hs Hf) as (m' & E & B & _).
  eauto.
Qed.

(** C4. On a valid, possibly partly filled grid, with any fuel above the
    number of empty cells, [randomFillBoard] returns; when it returns TRUE
    the board has no EMPTY cell, holds values of [1, SIZE] only and is
    valid; when it returns FALSE the board is cell for cell as it was at
    the call. *)
Theorem randomFillBoard_result (fuel : nat) (m : Machine) :
  wf (board m) -> valid (board m) -> emptyCells (board m) < fuel ->
  exists (solved : bool) (m' : Machine),
    randomFillBoard fuel m = Some (solved, m') /\
    (solved = true -> wf (board m') /\ complete (board m') /\ valid (board m')) /\
    (solved = false -> board m' = board m).
Proof.
  clear - SIZE_square SIZE_pos. intros Wb Vb Hf.
  destruct (randomFillBoard_run fuel m Wb Hf) as (s & m' & E & F & T & _).
  exists s, m'. split; [exact E|]. split; [|exact F].
  intros Hs. destruct (T Hs) as (W & C & V). auto.
Qed.

(** C6. On a complete valid grid, [generatePuzzle] takes the cells in the
    order of the shuffled list of all [SIZE * SIZE] cell numbers and treats
    each as the specification says: its run is the run of [reduceLoopSpec]
    (cell cleared, counter invoked, value restored exactly when the count is
    at least 2, tally increased exactly when the count is 1, stop when the
    list is exhausted or the tally has reached [MAX_EMPTY]); and the value
    returned is the number of EMPTY cells of the final board. *)
Theorem generatePuzzle_follows_reduction (fuel : nat) (m : Machine) :
  wf (board m) -> complete (board m) -> valid (board m) ->
  length (solution m) = SIZE * SIZE -> SIZE * SIZE < fuel ->
  exists (cells : list Z) (m0 : Machine) (index : nat) (removed : Z) (m' : Machine),
    shuffled (map Z.of_nat (seq 0 (SIZE * SIZE))) (SIZE * SIZE) m = (cells, m0) /\
    Permutation (map Z.of_nat (seq 0 (SIZE * SIZE))) cells /\
    generatePuzzle fuel m = Some (index, removed, m') /\
    reduceLoopSpec fuel cells 0 0%Z m0 = Some (index, removed, m') /\
    (index = SIZE * SIZE \/ (MAX_EMPTY <= removed)%Z) /\
    removed = Z.of_nat (emptyCells (board m')).
Proof.
  clear - SIZE_square SIZE_pos. intros Wb Cb Vb Hs Hf.
  destruct (generatePuzzle_run fuel m Wb Cb Vb Hs Hf)
    as (cells & m0 & i & r & m' & H1 & H2 & H3 & H4 & _ & _ & H5 & H6 & _).
  exists cells, m0, i, r, m'. repeat (split; [assumption|]). assumption.
Qed.

(** C7. On a complete valid grid [generatePuzzle] returns the number of
    EMPTY cells of the puzzle it leaves, and it stops only with the list of
    cells exhausted or with that number at [MAX_EMPTY].  The puzzle has
    exactly one completion (the grid it started from); and whenever the
    list was exhausted, as it must have been when the number returned is
    below [MAX_EMPTY], clearing any one filled cell of the puzzle gives a
    grid with two completions at least. *)
Theorem generatePuzzle_locally_minimal (fuel : nat) (m : Machine) :
  wf (board m) -> complete (board m) -> valid (board m) ->
  length (solution m) = SIZE * SIZE -> SIZE * SIZE < fuel ->
  exists (index : nat) (removed : Z) (m' : Machine),
    generatePuzzle fuel m = Some (index, removed, m') /\
    removed = Z.of_nat (emptyCells (board m')) /\
    (index = SIZE * SIZE \/ (MAX_EMPTY <= removed)%Z) /\
    completion (board m') (board m) /\
    (forall g, completion (board m') g -> g = board m) /\
    (index = SIZE * SIZE \/ (removed < MAX_EMPTY)%Z ->
     forall y x, y < SIZE -> x < SIZE -> cell (board m') y x <> EMPTY ->
                 atLeastTwoCompletions (setCell (board m') y x EMPTY)).
Proof.
  clear - SIZE_square SIZE_pos. intros Wb Cb Vb Hs Hf.
  destruct (generatePuzzle_run fuel m Wb Cb Vb Hs Hf)
    as (cells & m0 & i & r & m' & _ & _ & H3 & _ & H5 & H6 & Hr & Hstop & H7).
  exists i, r, m'.
  split; [exact H3|]. split; [exact Hr|]. split; [exact Hstop|].
  split; [exact H5|]. split; [exact H6|].
  intros Hend. apply H7. destruct Hend as [Hend|Hend]; [exact Hend|].
  destruct Hstop as [Hstop|Hstop]; [exact Hstop|lia].
Qed.

(** C8. Starting from a valid grid whose earlier stores all left it valid,
    every store that [randomFillBoard], [solveBoard] and [generatePuzzle]
    make to the board (trial values, erasures and restorations alike) leaves
    the grid valid: each board recorded in the history is valid. *)
Theorem stores_preserve_validity (fuel : nat) (m : Machine) :
  wf (board m) -> valid (board m) -> length (solution m) = SIZE * SIZE ->
  Forall valid (history m) -> SIZE * SIZE < fuel ->
  (exists solved m', randomFillBoard fuel m = Some (solved, m') /\
                     Forall valid (history m')) /\
  (exists found m', solveBoard fuel m = Some (found, m') /\
                    Forall valid (history m')) /\
  (exists r m', generatePuzzle fuel m = Some (r, m') /\
                Forall valid (history m')).
Proof.
  clear - SIZE_square SIZE_pos. intros Wb Vb Hs Vh Hf.
  assert (Hfuel : emptyCells (board m) < fuel).
  { pose proof (emptyCells_bound (board m)). destruct Wb as [L _]. lia. }
  split; [|split].
  - destruct (randomFillBoard_run fuel m Wb Hfuel) as (s & m' & E & _ & _ & H).
    exists s, m'. auto.
  - destruct (solveBoard_run fuel m (proj1 Wb) Hs Hfuel) as (m' & E & _ & _ & _ & H).
    eauto.
  - unfold generatePuzzle.
    pose proof (shuffled_cells m) as Hsh.
    destruct (shuffled _ _ m) as [cells m0].
    destruct Hsh as (F & P & B0 & S0 & H0).
    destruct (cells_facts cells P) as (_ & Hrange & _).
    rewrite F. apply reduceLoop_history; rewrite ?B0, ?S0, ?H0; auto.
Qed.

(** C9 (as amended). The order is the compile-time constant [SIZE] and
    [generateBoard] never examines it: for every perfect-square order,
    supported or not, with any fuel above the number of cells, it zeroes the
    board and runs the backtracking search of [randomFillBoard] on it; it
    returns with the board the search left, and with 1 when the search
    succeeded.  No configuration error is reported. *)
Theorem generateBoard_checks_no_order (fuel : nat) (m : Machine) :
  length (board m) = SIZE * SIZE -> SIZE * SIZE < fuel ->
  exists (solved : bool) (result : Z) (m' : Machine),
    board (zeroBoard m) = repeat 0%Z (SIZE * SIZE) /\
    randomFillBoard fuel (zeroBoard m) = Some (solved, m') /\
    generateBoard fuel m = Some (result, m') /\
    (solved = true -> result = 1%Z).
Proof.
  clear - SIZE_square SIZE_pos. intros Hl Hf.
  destruct (generateBoard_run fuel m Hl Hf) as (s & m' & E1 & E2).
  exists s, 1%Z, m'. split; [now apply board_zeroBoard|]. auto.
Qed.

(** C10 (what the code does). Whenever [listSize] is at least 1, the shift
    loop of the first turn of [shuffleValues] reads the element at index
    [listSize], one place beyond the last item of the list. *)
Theorem shuffleValues_reads_listSize (lst : list Z) (listSize k : nat) :
  1 <= listSize -> In (Rd listSize) (snd (shuffleValues lst listSize k)).
Proof.
  clear. intros H. unfold shuffleValues. now apply shuffleLoop_reads_listSize.
Qed.

(** * Further properties *)

(** ** nextEmpty returns the first empty cell *)

Lemma scanRow_first (b : Grid) (y n x0 x : nat) :
  scanRow b y n x0 = Some x -> forall x', x0 <= x' < x -> cell b y x' <> EMPTY.
Proof. clear.
  revert x0; induction n as [|n IH]; intros x0 H x' Hx'; simpl in H; [discriminate|].
  destruct (Z.eqb_spec (cell b y x0) 0) as [E|E].
  - injection H as <-. lia.
  - destruct (Nat.eq_dec x' x0) as [->|Hne]; [assumption|].
    apply (IH (S x0)); [assumption|lia].
Qed.

Lemma scanRows_first (b : Grid) (n y0 x y : nat) :
  scanRows b n y0 = Some (x, y) ->
  (forall x', x' < x -> cell b y x' <> EMPTY) /\
  (forall y' x', y0 <= y' < y -> x' < SIZE -> cell b y' x' <> EMPTY).
Proof. clear.
  revert y0; induction n as [|n IH]; intros y0 H; simpl in H; [discriminate|].
  destruct (scanRow b y0 SIZE 0) as [x1|] eqn:E.
  - injection H as <- <-. split.
    + intros x' Hx'. apply (scanRow_first _ _ _ _ _ E). lia.
    + intros y' x' Hy'. lia.
  - destruct (IH _ H) as [H1 H2]. split; [assumption|].
    intros y' x' Hy' Hx'. destruct (Nat.eq_dec y' y0) as [->|Hne].
    + apply (scanRow_None _ _ _ _ E). lia.
    + apply H2; [lia|assumption].
Qed.

(** X1. [nextEmpty] reports the first EMPTY cell in row-major order (lowest
    row, then lowest column): the cell it returns is EMPTY and every cell
    before it is filled; it reports FALSE only on a board without EMPTY
    cell. *)
Theorem nextEmpty_first_empty (b : Grid) :
  match nextEmpty b with
  | Some (x, y) =>
      x < SIZE /\ y < SIZE /\ cell b y x = EMPTY /\
      forall y' x', y' < SIZE -> x' < SIZE ->
                    y' < y \/ (y' = y /\ x' < x) -> cell b y' x' <> EMPTY
  | None => complete b
  end.
Proof. clear.
  destruct (nextEmpty b) as [[x y]|] eqn:E; [|now apply nextEmpty_None].
  destruct (nextEmpty_Some _ _ _ E) as (Hx & Hy & Hc).
  destruct (scanRows_first _ _ _ _ _ E) as [H1 H2].
  repeat split; auto.
  intros y' x' Hy' Hx' [Hlt|[-> Hlt]]; [apply H2; [lia|assumption]|now apply H1].
Qed.

(** ** duplicateBoard makes a full copy *)

(** X2. [duplicateBoard] overwrites every cell of [write]: whatever [write]
    held, it ends equal to [read]. *)
Theorem duplicateBoard_overwrites (read write : Grid) :
  length read = SIZE * SIZE -> length write = SIZE * SIZE ->
  duplicateBoard read write = read.
Proof. clear - SIZE_pos. apply duplicateBoard_copy. Qed.

(** ** shuffleValues permutes the first listSize entries *)

Lemma skipn_nth_ext {A : Type} (n : nat) (l l' : list A) (d : A) :
  length l' = length l -> (forall j, n <= j -> nth j l' d = nth j l d) ->
  skipn n l' = skipn n l.
Proof. clear.
  intros Hl H. apply nth_ext with (d := d) (d' := d).
  - rewrite !length_skipn. lia.
  - intros j _. rewrite !nth_skipn. apply H. lia.
Qed.

(** X3. Called with [listSize] at least 1 (the body of the [do ... while]
    runs before [listSize] is tested, and divides by it) and no larger than
    the array, [shuffleValues] leaves in the first [listSize] places a
    permutation of what they held, leaves every place from [listSize] on as
    it was, and draws exactly [listSize] numbers from [rand()]. *)
Theorem shuffleValues_permutes (lst : list Z) (listSize k : nat) :
  1 <= listSize -> listSize <= length lst ->
  let '(lst', k', _) := shuffleValues lst listSize k in
  length lst' = length lst /\
  Permutation (firstn listSize lst) (firstn listSize lst') /\
  skipn listSize lst' = skipn listSize lst /\
  k' = k + listSize.
Proof. clear.
  intros _ H. unfold shuffleValues.
  destruct (shuffleLoop_spec listSize lst k [] H) as (H1 & H2 & H3 & H4).
  destruct (shuffleLoop listSize lst k []) as [[lst' k'] log]. simpl in *.
  repeat split; auto. now apply (skipn_nth_ext _ _ _ stale).
Qed.

(** ** The list built by getValidIntegers *)

Lemma getValidIntegers_loop_rest (permitted : list bool) (l : list nat)
    (intIndex : nat) (validIntegers : list Z) :
  let '(n, vi) :=
    fold_left
      (fun '(intIndex, validIntegers) permitIndex =>
         if nth permitIndex permitted false
         then (S intIndex, upd intIndex (Z.of_nat permitIndex) validIntegers)
         else (intIndex, validIntegers))
      l (intIndex, validIntegers) in
  intIndex <= n /\
  forall j, n <= j -> nth j vi 0%Z = nth j validIntegers 0%Z.
Proof. clear.
  revert intIndex validIntegers.
  induction l as [|a l IH]; intros i vi; simpl.
  - split; auto.
  - destruct (nth a permitted false).
    + specialize (IH (S i) (upd i (Z.of_nat a) vi)).
      destruct (fold_left _ l _) as [n vi']. destruct IH as [H1 H2].
      split; [lia|]. intros j Hj. rewrite H2 by assumption.
      apply nth_upd_neq. lia.
    + specialize (IH i vi).
      destruct (fold_left _ l _) as [n vi']. assumption.
Qed.

Lemma sorted_filter_seq (P : nat -> bool) (n s : nat) :
  StronglySorted Z.lt (map Z.of_nat (filter P (seq s n))).
Proof. clear.
  revert s. induction n as [|n IH]; intros s; simpl; [constructor|].
  destruct (P s); simpl; [|apply IH].
  constructor; [apply IH|].
  apply Forall_forall. intros v Hv. apply in_map_iff in Hv.
  destruct Hv as (k & <- & Hk). apply filter_In in Hk. destruct Hk as [Hk _].
  apply in_seq in Hk. lia.
Qed.

(** X5. The values [getValidIntegers] hands back are in strictly increasing
    order; there are at most [SIZE] of them, and the places of the array
    after them still hold the 0 they were initialised with. *)
Theorem getValidIntegers_ascending (b : Grid) (x y : nat) :
  wf b -> x < SIZE -> y < SIZE ->
  let '(intIndex, validIntegers) := getValidIntegers b x y (repeat 0%Z SIZE) in
  intIndex <= SIZE /\ length validIntegers = SIZE /\
  StronglySorted Z.lt (firstn intIndex validIntegers) /\
  forall j, intIndex <= j -> nth j validIntegers 0%Z = 0%Z.
Proof. clear.
  intros _ _ _.
  pose proof (candidates_eq b x y) as HE.
  pose proof (getValidIntegers_length b x y) as [HL HN].
  unfold candidates in HE. unfold getValidIntegers in *.
  pose proof (getValidIntegers_loop_rest
                (permittedValue b x y (repeat false (SIZE + 1)))
                (seq 1 SIZE) 0 (repeat 0%Z SIZE)) as HR.
  destruct (fold_left _ (seq 1 SIZE) _) as [n vi]. simpl in HL, HN.
  destruct HR as [_ HR].
  repeat split; auto.
  - rewrite HE. apply sorted_filter_seq.
  - intros j Hj. rewrite HR by assumption. apply nth_repeat.
Qed.


(** ** Rows of a full valid grid *)

Lemma NoDup_map_on {A B : Type} (f : A -> B) (l : list A) :
  NoDup l -> (forall a a', In a l -> In a' l -> f a = f a' -> a = a') ->
  NoDup (map f l).
Proof. clear.
  induction 1 as [|a l Ha Hl IH]; intros Hinj; simpl; constructor.
  - rewrite in_map_iff. intros (a' & E & Ha').
    assert (a' = a) by (apply Hinj; simpl; auto). now subst.
  - apply IH. intros a1 a2 H1 H2. apply Hinj; now right.
Qed.

(** In a full valid grid every value of [1, SIZE] occurs in every row. *)
Lemma row_has_value (b : Grid) (y : nat) (v : Z) :
  wf b -> complete b -> valid b -> y < SIZE -> (1 <= v <= Z.of_nat SIZE)%Z ->
  exists x, x < SIZE /\ cell b y x = v.
Proof. clear.
  intros Wb Cb Vb Hy Hv.
  set (row := map (fun x => cell b y x) (seq 0 SIZE)).
  assert (Hnd : NoDup row).
  { apply NoDup_map_on; [apply seq_NoDup|].
    intros x x' Hx Hx' E. apply in_seq in Hx, Hx'.
    destruct (Nat.eq_dec x x') as [|Hne]; [assumption|]. exfalso.
    apply (Vb y x y x'); auto; try lia.
    - congruence.
    - now left.
    - apply Cb; lia. }
  assert (Hincl : incl row (map Z.of_nat (seq 1 SIZE))).
  { intros c Hc. apply in_map_iff in Hc. destruct Hc as (x & <- & Hx).
    apply in_seq in Hx. apply in_map_iff. exists (Z.to_nat (cell b y x)).
    pose proof (wf_cell_range b y x Wb) as Hr.
    assert (cell b y x <> 0%Z) by (apply Cb; lia).
    split; [lia|]. apply in_seq. lia. }
  assert (Hin : In v row).
  { apply (NoDup_length_incl Hnd (l' := map Z.of_nat (seq 1 SIZE))); auto.
    - unfold row. rewrite !length_map, !length_seq. lia.
    - apply in_map_iff. exists (Z.to_nat v). split; [lia|]. apply in_seq. lia. }
  apply in_map_iff in Hin. destruct Hin as (x & E & Hx). apply in_seq in Hx.
  exists x. split; [lia|assumption].
Qed.

(** X6. On a full valid grid [getValidIntegers] finds no candidate for any
    cell: it returns 0. *)
Theorem getValidIntegers_full_board (b : Grid) (x y : nat) :
  wf b -> complete b -> valid b -> x < SIZE -> y < SIZE ->
  fst (getValidIntegers b x y (repeat 0%Z SIZE)) = 0.
Proof. clear - SIZE_square SIZE_pos.
  intros Wb Cb Vb Hx Hy.
  assert (Hnil : candidates b x y = []).
  { destruct (candidates b x y) as [|v l] eqn:E; [reflexivity|]. exfalso.
    assert (Hv : In v (candidates b x y)) by (rewrite E; now left).
    apply In_candidates in Hv; auto. destruct Hv as [Hv (Hrow & _)].
    destruct (row_has_value b y v Wb Cb Vb Hy Hv) as (x' & Hx' & E').
    now apply (Hrow x'). }
  pose proof (getValidIntegers_length b x y) as [HL HN].
  unfold candidates in Hnil.
  destruct (getValidIntegers b x y (repeat 0%Z SIZE)) as [n vi]. simpl in *.
  apply (f_equal (@length Z)) in Hnil. rewrite length_firstn in Hnil.
  simpl in Hnil. lia.
Qed.

(** ** A full grid with one cell cleared *)

Lemma single_gap_completion (b g : Grid) (y x : nat) :
  wf b -> complete b -> valid b -> y < SIZE -> x < SIZE ->
  completion (setCell b y x EMPTY) g -> g = b.
Proof. clear - SIZE_pos.
  intros Wb Cb Vb Hy Hx (Wg & Cg & Vg & Eg).
  assert (Hl : length b = SIZE * SIZE) by apply Wb.
  assert (Hother : forall y' x', y' < SIZE -> x' < SIZE -> (y, x) <> (y', x') ->
                     cell g y' x' = cell b y' x').
  { intros y' x' Hy' Hx' Hne.
    rewrite <- (cell_setCell_neq b y x y' x' 0%Z) by assumption.
    apply Eg; auto. rewrite cell_setCell_neq by assumption. now apply Cb. }
  apply grid_ext; auto; [apply Wg|].
  intros y' x' Hy' Hx'.
  destruct (Nat.eq_dec y' y) as [->|Ny];
    [destruct (Nat.eq_dec x' x) as [->|Nx]|]; try (apply Hother; auto; congruence).
  assert (Hv : (1 <= cell g y x <= Z.of_nat SIZE)%Z).
  { pose proof (wf_cell_range g y x Wg). assert (cell g y x <> 0%Z) by now apply Cg.
    lia. }
  destruct (row_has_value b y _ Wb Cb Vb Hy Hv) as (x1 & Hx1 & E1).
  destruct (Nat.eq_dec x1 x) as [->|Hne]; [now symmetry|]. exfalso.
  apply (Vg y x y x1 Hy Hx Hy Hx1);
    [congruence|now left|now apply Cg|].
  rewrite (Hother y x1) by (auto; congruence). now symmetry.
Qed.

Lemma NoDup_all_same {A : Type} (l : list A) (a : A) :
  NoDup l -> In a l -> (forall g, In g l -> g = a) -> l = [a].
Proof. clear.
  intros Hnd Hin Hall. destruct l as [|h [|h2 t]]; [destruct Hin| |].
  - f_equal. apply Hall. now left.
  - exfalso. inversion_clear Hnd as [|? ? Hh _]. apply Hh.
    rewrite (Hall h) by (now left). rewrite (Hall h2) by (right; now left).
    now left.
Qed.

Lemma single_gap_run (fuel : nat) (m : Machine) (b : Grid) (y x : nat) :
  wf b -> complete b -> valid b -> y < SIZE -> x < SIZE ->
  board m = setCell b y x EMPTY -> length (solution m) = SIZE * SIZE ->
  1 < fuel ->
  exists m', solveBoard fuel m = Some (1%Z, m') /\
             solution m' = b /\ board m' = board m.
Proof. clear - SIZE_square SIZE_pos.
  intros Wb Cb Vb Hy Hx Hm Hs Hf.
  assert (Hl : length b = SIZE * SIZE) by apply Wb.
  assert (W0 : wf (board m)) by (rewrite Hm; apply wf_setCell; auto; lia).
  assert (V0 : valid (board m)) by (rewrite Hm; now apply valid_clear).
  assert (F0 : emptyCells (board m) < fuel).
  { rewrite Hm, emptyCells_clear, complete_emptyCells; auto. }
  destruct (solveBoard_run fuel m (proj1 W0) Hs F0) as (m' & E & B & _ & S' & _).
  destruct (searchOrder_spec fuel (board m) W0 V0 F0) as [Hnd Hin].
  assert (Hone : searchOrder fuel (board m) = [b]).
  { apply NoDup_all_same; auto.
    - apply Hin. rewrite Hm. apply completion_clear; auto.
      now apply completion_of_complete.
    - intros g Hg. apply Hin in Hg. rewrite Hm in Hg.
      now apply (single_gap_completion b g y x). }
  rewrite Hone in E, S'. exists m'. auto.
Qed.

(** X7. A full valid grid from which one cell, any cell, has been cleared
    has a single completion: [solveBoard] returns 1, puts the full grid in
    the solution array and leaves the board with its gap. *)
Theorem solveBoard_single_gap (fuel : nat) (m : Machine) (b : Grid) (y x : nat) :
  wf b -> complete b -> valid b -> y < SIZE -> x < SIZE ->
  board m = setCell b y x EMPTY -> length (solution m) = SIZE * SIZE ->
  1 < fuel ->
  exists m', solveBoard fuel m = Some (1%Z, m') /\
             solution m' = b /\ board m' = board m.
Proof. clear - SIZE_square SIZE_pos. apply single_gap_run. Qed.

(** ** solveBoard on a board without empty cell *)

(** X8. [solveBoard] never examines the filled cells: on any board without
    EMPTY cell, valid or not, it returns 1 and copies the board into the
    solution array, changing nothing else. *)
Theorem solveBoard_full_board (fuel : nat) (m : Machine) :
  length (board m) = SIZE * SIZE -> length (solution m) = SIZE * SIZE ->
  complete (board m) -> 0 < fuel ->
  solveBoard fuel m
  = Some (1%Z, mkMachine (board m) (board m) (backtrackCount m) (randCalls m)
                         (history m)).
Proof. clear - SIZE_pos.
  intros Hb Hs Cb Hf. destruct fuel; [lia|]. simpl.
  rewrite (complete_nextEmpty _ Cb). unfold saveSolution.
  now rewrite duplicateBoard_copy.
Qed.

(** ** What solveBoard leaves in the solution array *)

Lemma last_In {A : Type} (l : list A) (d : A) : l <> [] -> In (last l d) l.
Proof. clear.
  induction l as [|a l IH]; intros H; [congruence|].
  destruct l as [|a' l]; [now left|].
  right. apply IH. discriminate.
Qed.

(** X9. After [solveBoard] the solution array holds the complete board the
    search reached last.  On a valid grid that is a completion of the board
    when there is one, and the array is left as it was when there is
    none. *)
Theorem solveBoard_output_is_last_found (fuel : nat) (m : Machine) :
  wf (board m) -> length (solution m) = SIZE * SIZE -> valid (board m) ->
  emptyCells (board m) < fuel ->
  exists (found : Z) (m' : Machine),
    solveBoard fuel m = Some (found, m') /\
    solution m' = last (searchOrder fuel (board m)) (solution m) /\
    ((exists g, completion (board m) g) -> completion (board m) (solution m')) /\
    ((forall g, ~ completion (board m) g) -> solution m' = solution m).
Proof. clear - SIZE_square SIZE_pos.
  intros Wb Hs Vb Hf.
  destruct (solveBoard_run fuel m (proj1 Wb) Hs Hf) as (m' & E & _ & _ & S' & _).
  destruct (searchOrder_spec fuel (board m) Wb Vb Hf) as [Hnd Hin].
  exists (Z.of_nat (length (searchOrder fuel (board m)))), m'.
  split; [exact E|]. split; [exact S'|]. split.
  - intros (g & Hg). rewrite S'. apply Hin, last_In.
    apply Hin in Hg. intros Hnil. now rewrite Hnil in Hg.
  - intros Hnone. rewrite S'.
    destruct (searchOrder fuel (board m)) as [|g l]; [reflexivity|].
    exfalso. apply (Hnone g), Hin. now left.
Qed.

(** ** Clearing a cell never lowers the count *)

(** X10. On a valid grid that, with the cell [(y, x)] cleared, has [INT_MAX]
    completions at most, the count [solveBoard] returns after the cell has
    been cleared is at least the count it returns before, and both counts
    are values of the C type [int]. *)
Theorem solveBoard_count_grows_on_clearing (fuel : nat) (m : Machine) (y x : nat) :
  wf (board m) -> valid (board m) -> length (solution m) = SIZE * SIZE ->
  y < SIZE -> x < SIZE -> SIZE * SIZE < fuel ->
  atMostCompletions (setCell (board m) y x EMPTY) INT_MAX ->
  exists (before after : Z) (m1 m2 : Machine),
    solveBoard fuel m = Some (before, m1) /\
    solveBoard fuel (poke y x EMPTY m) = Some (after, m2) /\
    (0 <= before <= after)%Z /\ (after <= INT_MAX)%Z.
Proof. clear - SIZE_square SIZE_pos.
  intros Wb Vb Hs Hy Hx Hf Hmax.
  assert (Hfuel : emptyCells (board m) < fuel).
  { pose proof (emptyCells_bound (board m)). destruct Wb as [L _]. lia. }
  destruct (solveBoard_run fuel m (proj1 Wb) Hs Hfuel) as (m1 & E1 & _).
  destruct (searchOrder_spec fuel (board m) Wb Vb Hfuel) as [Hnd Hin].
  destruct (trial_run fuel m y x Hf Wb Hs Vb Hy Hx)
    as (l0 & m2 & E2 & Hnd0 & Hin0 & _).
  exists (Z.of_nat (length (searchOrder fuel (board m)))), (Z.of_nat (length l0)),
         m1, m2.
  split; [exact E1|]. split; [exact E2|].
  split; [split; [apply Nat2Z.is_nonneg|]|apply Hmax; [exact Hnd0|apply Hin0]].
  apply inj_le, NoDup_incl_length; [assumption|].
  intros g Hg. apply Hin0, completion_clear; auto; [apply Wb|]. now apply Hin.
Qed.


(** ** The empty board can always be filled *)

Lemma cell_canonicalGrid (y x : nat) :
  y < SIZE -> x < SIZE ->
  cell canonicalGrid y x
  = Z.of_nat ((squareSize * (y mod squareSize) + y / squareSize + x) mod SIZE + 1).
Proof. clear.
  intros Hy Hx. unfold cell, canonicalGrid.
  pose proof (offset_lt y x Hy Hx) as Hlt.
  rewrite (nth_indep _ 0%Z (Z.of_nat ((squareSize * ((0 / SIZE) mod squareSize)
             + (0 / SIZE) / squareSize + 0 mod SIZE) mod SIZE + 1)))
    by (now rewrite length_map, length_seq).
  rewrite (map_nth (fun i => Z.of_nat ((squareSize * ((i / SIZE) mod squareSize)
             + (i / SIZE) / squareSize + i mod SIZE) mod SIZE + 1))).
  rewrite seq_nth by assumption. simpl.
  replace ((y * SIZE + x) / SIZE) with y
    by (apply (Nat.div_unique _ _ y x); lia).
  replace ((y * SIZE + x) mod SIZE) with x
    by (apply (Nat.mod_unique _ _ y x); lia).
  reflexivity.
Qed.

Lemma mod_eq_close (n a a' : nat) :
  a mod n = a' mod n -> a <= a' -> a' < a + n -> a = a'.
Proof. clear.
  intros E Hle Hlt. destruct n as [|n]; [lia|].
  pose proof (Nat.div_mod_eq a (S n)) as Ha.
  pose proof (Nat.div_mod_eq a' (S n)) as Ha'.
  rewrite E in Ha.
  assert (a / S n = a' / S n) by nia. nia.
Qed.

Lemma mod_eq_near (n a a' : nat) :
  a mod n = a' mod n -> a < a' + n -> a' < a + n -> a = a'.
Proof. clear.
  intros E H1 H2. destruct (Nat.le_gt_cases a a').
  - now apply (mod_eq_close n).
  - symmetry. apply (mod_eq_close n); auto; lia.
Qed.

Lemma valid_canonicalGrid : valid canonicalGrid.
Proof. clear - SIZE_square SIZE_pos.
  intros y x y' x' Hy Hx Hy' Hx' Hne Hu _ E.
  rewrite !cell_canonicalGrid in E by assumption.
  apply Nat2Z.inj in E.
  pose proof squareSize_pos as Hk.
  set (k := squareSize) in *.
  pose proof (Nat.div_mod_eq y k) as Dy. pose proof (Nat.div_mod_eq y' k) as Dy'.
  pose proof (Nat.div_mod_eq x k) as Dx. pose proof (Nat.div_mod_eq x' k) as Dx'.
  pose proof (Nat.mod_upper_bound y k ltac:(lia)) as My.
  pose proof (Nat.mod_upper_bound y' k ltac:(lia)) as My'.
  pose proof (Nat.mod_upper_bound x k ltac:(lia)) as Mx.
  pose proof (Nat.mod_upper_bound x' k ltac:(lia)) as Mx'.
  assert (Qy : y / k < k) by (apply Nat.Div0.div_lt_upper_bound; lia).
  assert (Qy' : y' / k < k) by (apply Nat.Div0.div_lt_upper_bound; lia).
  assert (Qx : x / k < k) by (apply Nat.Div0.div_lt_upper_bound; lia).
  assert (Qx' : x' / k < k) by (apply Nat.Div0.div_lt_upper_bound; lia).
  set (r := y mod k) in *. set (q := y / k) in *.
  set (r' := y' mod k) in *. set (q' := y' / k) in *.
  set (t := x mod k) in *. set (s := x / k) in *.
  set (t' := x' mod k) in *. set (s' := x' / k) in *.
  assert (B : k * r + q < SIZE) by nia.
  assert (B' : k * r' + q' < SIZE) by nia.
  assert (E1 : (k * r + q + x) mod SIZE = (k * r' + q' + x') mod SIZE) by lia.
  apply Hne.
  destruct Hu as [Ey|[Ex|[Eq Es]]].
  - (* same row *)
    subst y'. f_equal.
    assert (Er : r' = r) by reflexivity. assert (Eq : q' = q) by reflexivity.
    assert (k * r + q + x = k * r' + q' + x') by (apply (mod_eq_near SIZE); lia).
    lia.
  - (* same column *)
    subst x'.
    assert (H : k * r + q + x = k * r' + q' + x) by (apply (mod_eq_near SIZE); lia).
    assert (r = r') by nia. assert (q = q') by lia.
    f_equal. lia.
  - (* same box *)
    fold k in Eq, Es. fold q q' in Eq. fold s s' in Es.
    assert (Ks : k * s = k * s') by (now rewrite Es).
    assert (Bt : k * r + t < SIZE) by nia.
    assert (Bt' : k * r' + t' < SIZE) by nia.
    assert (H : k * r + q + x = k * r' + q' + x').
    { apply (mod_eq_near SIZE); auto; lia. }
    assert (r = r') by nia. assert (t = t') by lia.
    f_equal; lia.
Qed.

Lemma wf_canonicalGrid : wf canonicalGrid.
Proof. clear - SIZE_pos.
  split.
  - unfold canonicalGrid. now rewrite length_map, length_seq.
  - apply Forall_forall. intros v Hv. unfold canonicalGrid in Hv.
    apply in_map_iff in Hv. destruct Hv as (i & <- & _).
    match goal with
    | |- (_ <= Z.of_nat (?a mod SIZE + 1) <= _)%Z =>
        pose proof (Nat.mod_upper_bound a SIZE ltac:(lia))
    end. lia.
Qed.

Lemma complete_canonicalGrid : complete canonicalGrid.
Proof. clear.
  intros y x Hy Hx. rewrite cell_canonicalGrid by assumption. lia.
Qed.

Lemma blank_has_completion :
  completion (repeat 0%Z (SIZE * SIZE)) canonicalGrid.
Proof. clear - SIZE_square SIZE_pos.
  refine (conj wf_canonicalGrid
            (conj complete_canonicalGrid (conj valid_canonicalGrid _))).
  intros y x _ _ H. exfalso. apply H. unfold cell. apply nth_repeat.
Qed.

(** ** randomFillBoard fails only on a board without completion *)

Lemma extends_fill (b g : Grid) (y x : nat) (v : Z) :
  x < SIZE -> cell b y x = EMPTY -> extends (setCell b y x v) g -> extends b g.
Proof. clear.
  intros Hx Hc He y' x' Hy' Hx' Hnz.
  assert (Hne : (y, x) <> (y', x')) by (intros [= <- <-]; congruence).
  rewrite <- (cell_setCell_neq b y x y' x' v) by assumption.
  apply He; auto. now rewrite cell_setCell_neq.
Qed.

Lemma fillLoop_search (rec : Machine -> option (bool * Machine)) (b : Grid) (x y : nat)
    (vals : list Z) :
  length b = SIZE * SIZE -> x < SIZE -> y < SIZE -> cell b y x = EMPTY ->
  (forall v m, In v vals -> board m = setCell b y x v ->
     exists s m', rec m = Some (s, m') /\
       (s = false -> board m' = board m /\ forall g, ~ completion (board m) g) /\
       (s = true -> extends (board m) (board m'))) ->
  forall m, board m = b ->
    exists s m',
      fillLoop rec x y vals false m = Some (s, m') /\
      (s = false -> board m' = b /\
                    forall v g, In v vals -> ~ completion (setCell b y x v) g) /\
      (s = true -> extends b (board m')).
Proof. clear.
  intros Hl Hx Hy Hc. induction vals as [|v vs IH]; intros Hrec m Hb.
  - exists false, m. simpl. split; [reflexivity|]. split; [|discriminate].
    intros _. split; [assumption|]. intros v g [].
  - simpl.
    destruct (Hrec v (poke y x v m)) as (s & m1 & E1 & F1 & T1);
      [now left|simpl; now rewrite Hb|].
    rewrite E1. simpl in F1, T1. rewrite Hb in F1, T1.
    destruct s.
    + exists true, m1. split; [destruct vs; reflexivity|].
      split; [discriminate|]. intros _.
      apply (extends_fill b _ y x v); auto.
    + destruct (F1 eq_refl) as [B1 N1].
      destruct (IH (fun v' m' H => Hrec v' m' (or_intror H)) (poke y x 0%Z m1))
        as (s & m2 & E2 & F2 & T2).
      { simpl. rewrite B1, <- Hc. apply setCell_restore. }
      exists s, m2. rewrite E2. split; [reflexivity|]. split; [|assumption].
      intros Hs. destruct (F2 Hs) as [B2 N2]. split; [assumption|].
      intros v' g [<-|Hin]; [apply N1|now apply N2].
Qed.

Lemma randomFillBoard_search (fuel : nat) :
  forall m, wf (board m) -> emptyCells (board m) < fuel ->
    exists s m',
      randomFillBoard fuel m = Some (s, m') /\
      (s = false -> board m' = board m /\ forall g, ~ completion (board m) g) /\
      (s = true -> extends (board m) (board m')).
Proof. clear - SIZE_square SIZE_pos.
  induction fuel as [|fuel IH]; intros m Hb Hf; [lia|].
  simpl. destruct (nextEmpty (board m)) as [[x y]|] eqn:En.
  - apply nextEmpty_Some in En. destruct En as (Hx & Hy & Hc).
    assert (Hlen : length (board m) = SIZE * SIZE) by apply Hb.
    pose proof (fun g => completion_step (board m) g x y Hlen Hx Hy Hc) as Hstep.
    assert (Hcand : candidates (board m) x y
                    = let '(n, vi) := getValidIntegers (board m) x y (repeat 0%Z SIZE)
                      in firstn n vi) by reflexivity.
    pose proof (getValidIntegers_length (board m) x y) as [Lvi Ln].
    destruct (getValidIntegers (board m) x y (repeat 0%Z SIZE)) as [n vi].
    simpl in Lvi, Ln.
    destruct (Nat.leb_spec n 0) as [Hn|Hn].
    + exists false, m. split; [reflexivity|]. split; [|discriminate].
      intros _. split; [reflexivity|]. intros g Hg.
      apply Hstep in Hg. destruct Hg as (v & Hv & _).
      rewrite Hcand in Hv. replace n with 0 in Hv by lia. destruct Hv.
    + pose proof (shuffled_spec vi n m ltac:(lia)) as Hsh.
      destruct (shuffled vi n m) as [vi' m1].
      destruct Hsh as (_ & Hperm & B1 & _).
      destruct (fillLoop_search (randomFillBoard fuel) (board m) x y (firstn n vi')
                  Hlen Hx Hy Hc) with (m := m1)
        as (s & m' & E & F & T); auto.
      * intros v m2 Hv B2.
        apply (Permutation_in _ (Permutation_sym Hperm)) in Hv.
        rewrite <- Hcand in Hv. apply In_candidates in Hv; auto.
        destruct Hv as [Hv _]. apply IH.
        -- rewrite B2. now apply wf_fill.
        -- rewrite B2.
           rewrite (emptyCells_fill (board m) y x v) in Hf; auto; lia.
      * exists s, m'. rewrite E. split; [reflexivity|]. split; [|assumption].
        intros Hs. destruct (F Hs) as [B N]. split; [assumption|].
        intros g Hg. apply Hstep in Hg. destruct Hg as (v & Hv & Hg).
        apply (N v g); [|assumption].
        rewrite Hcand in Hv. now apply (Permutation_in _ Hperm).
  - exists true, m. split; [reflexivity|]. split; [discriminate|].
    intros _ y x _ _ _. reflexivity.
Qed.

Lemma randomFillBoard_decides (fuel : nat) (m : Machine) :
  wf (board m) -> valid (board m) -> emptyCells (board m) < fuel ->
  exists (solved : bool) (m' : Machine),
    randomFillBoard fuel m = Some (solved, m') /\
    (solved = true -> completion (board m) (board m')) /\
    (solved = false -> board m' = board m /\ forall g, ~ completion (board m) g).
Proof. clear - SIZE_square SIZE_pos.
  intros Wb Vb Hf.
  destruct (randomFillBoard_run fuel m Wb Hf) as (s & m' & E & _ & T & _).
  destruct (randomFillBoard_search fuel m Wb Hf) as (s2 & m2 & E2 & F2 & T2).
  rewrite E in E2. injection E2 as <- <-.
  exists s, m'. split; [exact E|]. split; [|exact F2].
  intros Hs. destruct (T Hs) as (W & C & V).
  exact (conj W (conj C (conj (V Vb) (T2 Hs)))).
Qed.

(** X11. On a valid grid [randomFillBoard] returns TRUE exactly when the
    grid has a completion: TRUE comes with a completion of the board it was
    given (every cell that was filled keeps its value), FALSE only when no
    completion exists. *)
Theorem randomFillBoard_finds_completion (fuel : nat) (m : Machine) :
  wf (board m) -> valid (board m) -> emptyCells (board m) < fuel ->
  exists (solved : bool) (m' : Machine),
    randomFillBoard fuel m = Some (solved, m') /\
    (solved = true <-> exists g, completion (board m) g) /\
    (solved = true -> completion (board m) (board m')).
Proof. clear - SIZE_square SIZE_pos.
  intros Wb Vb Hf.
  destruct (randomFillBoard_decides fuel m Wb Vb Hf) as (s & m' & E & T & F).
  exists s, m'. split; [exact E|]. split; [|exact T]. split.
  - intros Hs. exists (board m'). now apply T.
  - intros (g & Hg). destruct s; [reflexivity|].
    exfalso. now apply (proj2 (F eq_refl) g).
Qed.

(** ** generateBoard always delivers a full valid grid *)

Lemma generateBoard_succeeds (fuel : nat) (m : Machine) :
  length (board m) = SIZE * SIZE -> SIZE * SIZE < fuel ->
  exists m', randomFillBoard fuel (zeroBoard m) = Some (true, m') /\
             generateBoard fuel m = Some (1%Z, m') /\
             wf (board m') /\ complete (board m') /\ valid (board m').
Proof. clear - SIZE_square SIZE_pos.
  intros Hl Hf.
  pose proof (board_zeroBoard m Hl) as Hz.
  assert (Wz : wf (board (zeroBoard m))).
  { rewrite Hz. split; [apply repeat_length|].
    apply Forall_forall. intros v Hv. apply repeat_spec in Hv. subst v. lia. }
  assert (Vz : valid (board (zeroBoard m))).
  { rewrite Hz. intros y x y' x' _ _ _ _ _ _ H. exfalso. apply H.
    unfold cell. apply nth_repeat. }
  assert (Fz : emptyCells (board (zeroBoard m)) < fuel).
  { pose proof (emptyCells_bound (board (zeroBoard m))) as Hb.
    destruct Wz as [L _]. lia. }
  destruct (randomFillBoard_decides fuel (zeroBoard m) Wz Vz Fz)
    as (s & m' & E & T & F).
  destruct s.
  - exists m'. split; [exact E|]. split; [unfold generateBoard; now rewrite E|].
    destruct (T eq_refl) as (W & C & V & _). auto.
  - exfalso. apply (proj2 (F eq_refl) canonicalGrid).
    rewrite Hz. apply blank_has_completion.
Qed.

(** X12. For every perfect-square order, and whatever the array held
    before, [generateBoard] ends with a full valid grid in it: the search it
    starts on the zeroed board always succeeds, so the 1 it returns is never
    wrong. *)
Theorem generateBoard_fills_board (fuel : nat) (m : Machine) :
  length (board m) = SIZE * SIZE -> SIZE * SIZE < fuel ->
  exists m', generateBoard fuel m = Some (1%Z, m') /\
             wf (board m') /\ complete (board m') /\ valid (board m').
Proof. clear - SIZE_square SIZE_pos.
  intros Hl Hf.
  destruct (generateBoard_succeeds fuel m Hl Hf) as (m' & _ & H).
  now exists m'.
Qed.


(** ** More on generatePuzzle *)

Lemma reduceLoop_bounds (fuel : nat) :
  forall (cells : list Z) (index : nat) (removed : Z) (m : Machine)
         (index' : nat) (removed' : Z) (m' : Machine),
    reduceLoop fuel cells index removed m = Some (index', removed', m') ->
    index <= index' <= index + length cells /\
    (removed <= removed' <= Z.max removed MAX_EMPTY)%Z /\
    (removed' - removed <= Z.of_nat (index' - index))%Z /\
    ((MAX_EMPTY <= removed)%Z -> index' = index /\ removed' = removed /\ m' = m) /\
    ((removed < MAX_EMPTY)%Z -> cells <> [] -> index < index').
Proof. clear.
  induction cells as [|c rest IH]; intros index removed m i' r' m' H;
    cbn [reduceLoop] in H; cbv zeta in H.
  - injection H as <- <- <-. simpl. repeat split; try lia. congruence.
  - destruct (Z.ltb_spec removed MAX_EMPTY) as [Hlt|Hge].
    + destruct (solveBoard fuel _) as [[found m1]|]; [|discriminate].
      destruct (1 <? found)%Z; apply IH in H;
        destruct H as (H1 & H2 & H3 & _ & _); simpl; repeat split; lia.
    + injection H as <- <- <-. simpl. repeat split; try lia.
Qed.

(** What the loop leaves in the solution array: nothing new when no trial
    ran, and otherwise a completion of the final board taken with the cell
    tried last cleared. *)
Lemma reduceLoop_output (fuel : nat) (S0 : Grid) :
  SIZE * SIZE < fuel ->
  forall (cells : list Z) (index : nat) (removed : Z) (m : Machine),
    (forall c, In c cells -> (0 <= c < Z.of_nat (SIZE * SIZE))%Z) ->
    wf (board m) -> length (solution m) = SIZE * SIZE -> valid (board m) ->
    completion (board m) S0 ->
    exists (r : nat * Z) (m' : Machine),
      reduceLoop fuel cells index removed m = Some (r, m') /\
      wf (board m') /\ valid (board m') /\ length (solution m') = SIZE * SIZE /\
      ((r = (index, removed) /\ m' = m) \/
       exists y x, y < SIZE /\ x < SIZE /\
                   completion (setCell (board m') y x EMPTY) (solution m')).
Proof. clear - SIZE_square SIZE_pos.
  intros Hf. induction cells as [|c rest IH];
    intros index removed m Hrange Wb Hs Vb HS0.
  - exists (index, removed), m. simpl.
    repeat (split; [assumption || reflexivity|]). left. split; reflexivity.
  - cbn [reduceLoop]. cbv zeta.
    destruct (removed <? MAX_EMPTY)%Z;
      [|exists (index, removed), m;
        repeat (split; [assumption || reflexivity|]); left; split; reflexivity].
    destruct (cellNumber_position c (Hrange c (or_introl eq_refl)))
      as (Hy & Hx & _).
    set (y := Z.to_nat (Z.quot c (Z.of_nat SIZE))) in *.
    set (x := Z.to_nat (Z.rem c (Z.of_nat SIZE))) in *.
    assert (Hl : length (board m) = SIZE * SIZE) by apply Wb.
    assert (W0 : wf (setCell (board m) y x 0%Z)) by (apply wf_setCell; auto; lia).
    assert (V0 : valid (setCell (board m) y x 0%Z)) by now apply valid_clear.
    assert (F0 : emptyCells (setCell (board m) y x 0%Z) < fuel).
    { pose proof (emptyCells_bound (setCell (board m) y x 0%Z)) as Hb.
      destruct W0 as [L0 _]. lia. }
    assert (C0 : completion (setCell (board m) y x 0%Z) S0)
      by now apply completion_clear.
    destruct (solveBoard_run fuel (poke y x 0%Z m)) as (m1 & E & B1 & S1 & S1' & _);
      auto; [apply W0|].
    destruct (searchOrder_spec fuel _ W0 V0 F0) as [_ Hin].
    simpl in E, B1, S1'. rewrite E.
    assert (P1 : completion (setCell (board m) y x 0%Z) (solution m1)).
    { rewrite S1'. apply Hin, last_In. intros Hnil.
      apply Hin in C0. now rewrite Hnil in C0. }
    assert (Hrange' : forall c0, In c0 rest -> (0 <= c0 < Z.of_nat (SIZE * SIZE))%Z)
      by (intros c0 Hc0; apply Hrange; now right).
    destruct (1 <? Z.of_nat (length (searchOrder fuel (setCell (board m) y x 0%Z))))%Z.
    + set (m2 := poke y x (cell (board m) y x) m1).
      assert (B2 : board m2 = board m)
        by (simpl; rewrite B1; apply setCell_restore).
      destruct (IH (S index) removed m2 Hrange'
                   ltac:(rewrite B2; assumption) S1 ltac:(rewrite B2; assumption)
                   ltac:(rewrite B2; assumption))
        as (r & m' & E' & W' & V' & S' & D).
      exists r, m'. split; [exact E'|]. split; [exact W'|]. split; [exact V'|].
      split; [exact S'|]. right.
      destruct D as [[_ ->]|D]; [|exact D].
      exists y, x. rewrite B2. auto.
    + destruct (IH (S index) (removed + 1)%Z m1 Hrange'
                   ltac:(rewrite B1; assumption) S1 ltac:(rewrite B1; assumption)
                   ltac:(rewrite B1; assumption))
        as (r & m' & E' & W' & V' & S' & D).
      exists r, m'. split; [exact E'|]. split; [exact W'|]. split; [exact V'|].
      split; [exact S'|]. right.
      destruct D as [[_ ->]|D]; [|exact D].
      exists y, x. rewrite B1. unfold setCell. rewrite upd_upd. auto.
Qed.

Lemma generatePuzzle_output (fuel : nat) (m : Machine) :
  wf (board m) -> complete (board m) -> valid (board m) ->
  length (solution m) = SIZE * SIZE -> SIZE * SIZE < fuel ->
  exists (index : nat) (removed : Z) (m' : Machine),
    generatePuzzle fuel m = Some (index, removed, m') /\
    wf (board m') /\ valid (board m') /\ length (solution m') = SIZE * SIZE /\
    completion (board m') (board m) /\
    (forall g, completion (board m') g -> g = board m) /\
    (removed <= Z.of_nat index)%Z /\ index <= SIZE * SIZE /\
    (0 <= removed <= Z.max 0 MAX_EMPTY)%Z /\
    ((MAX_EMPTY <= 0)%Z -> index = 0 /\ board m' = board m) /\
    ((1 <= MAX_EMPTY)%Z ->
     (1 <= removed)%Z /\
     exists y x, y < SIZE /\ x < SIZE /\
                 completion (setCell (board m') y x EMPTY) (solution m')).
Proof. clear - SIZE_square SIZE_pos.
  intros Wb Cb Vb Hs Hf. unfold generatePuzzle.
  pose proof (shuffled_cells m) as Hsh.
  destruct (shuffled _ _ m) as [cells m0].
  destruct Hsh as (F & P & B0 & S0 & _).
  destruct (cells_facts cells P) as (Hnd & Hrange & Hall).
  rewrite F.
  assert (Hlen : length cells = SIZE * SIZE).
  { rewrite <- (Permutation_length P). now rewrite length_map, length_seq. }
  assert (HC : completion (board m0) (board m))
    by (rewrite B0; now apply completion_of_complete).
  destruct (reduceLoop_run fuel (board m) Hf cells 0 0%Z m0)
    as (i' & r' & m' & E1 & _ & W' & V' & C' & U' & R' & _);
    auto; try (rewrite B0; auto).
  { congruence. }
  { intros g Hg. now apply (completion_of_complete (board m) g). }
  { rewrite complete_emptyCells; auto. apply Wb. }
  { intros y x Hy Hx Hnin. exfalso. apply Hnin. now apply Hall. }
  destruct (reduceLoop_output fuel (board m) Hf cells 0 0%Z m0 Hrange)
    as (r & m2 & E2 & _ & _ & S2 & D); try (rewrite B0; auto); try congruence.
  rewrite E1 in E2. injection E2 as <- <-.
  destruct (reduceLoop_bounds fuel _ _ _ _ _ _ _ E1) as (Bi & Br & Bd & Bstop & Bgo).
  exists i', r', m'. split; [exact E1|].
  do 5 (split; [assumption|]).
  split; [lia|]. split; [lia|]. split; [lia|]. split.
  - intros Hmax. destruct (Bstop Hmax) as (-> & _ & ->). auto.
  - intros Hmax. split.
    + (* the first trial clears a cell of a full grid: it is always kept *)
      destruct cells as [|c rest]; [simpl in Hlen; lia|].
      cbn [reduceLoop] in E1. cbv zeta in E1.
      destruct (Z.ltb_spec 0 MAX_EMPTY) as [_|]; [|lia].
      destruct (cellNumber_position c (Hrange c (or_introl eq_refl)))
        as (Hy & Hx & _).
      set (y := Z.to_nat (Z.quot c (Z.of_nat SIZE))) in *.
      set (x := Z.to_nat (Z.rem c (Z.of_nat SIZE))) in *.
      destruct (single_gap_run fuel (poke y x 0%Z m0) (board m) y x Wb Cb Vb Hy Hx
                  ltac:(simpl; now rewrite B0) ltac:(simpl; congruence)
                  ltac:(lia))
        as (m1 & E & _).
      rewrite E in E1. simpl in E1.
      apply reduceLoop_bounds in E1. lia.
    + destruct D as [[D _]|D]; [|exact D].
      injection D as -> _. exfalso.
      assert (0 < 0); [|lia].
      apply Bgo; [lia|]. intros ->. simpl in Hlen. lia.
Qed.

(** X13. On a complete valid grid [generatePuzzle] empties at least one cell
    when [MAX_EMPTY] is 1 or more (the cell tried first is always kept
    empty) and never more than [MAX_EMPTY]; it tries at most [SIZE * SIZE]
    cells and empties no more cells than it tried; with [MAX_EMPTY] at 0 or
    below it tries nothing and leaves the board as it was. *)
Theorem generatePuzzle_bounds (fuel : nat) (m : Machine) :
  wf (board m) -> complete (board m) -> valid (board m) ->
  length (solution m) = SIZE * SIZE -> SIZE * SIZE < fuel ->
  exists (index : nat) (removed : Z) (m' : Machine),
    generatePuzzle fuel m = Some (index, removed, m') /\
    (0 <= removed <= Z.max 0 MAX_EMPTY)%Z /\
    (removed <= Z.of_nat index)%Z /\ index <= SIZE * SIZE /\
    ((1 <= MAX_EMPTY)%Z -> (1 <= removed)%Z) /\
    ((MAX_EMPTY <= 0)%Z -> index = 0 /\ board m' = board m).
Proof. clear - SIZE_square SIZE_pos.
  intros Wb Cb Vb Hs Hf.
  destruct (generatePuzzle_output fuel m Wb Cb Vb Hs Hf)
    as (i & r & m' & E & _ & _ & _ & _ & _ & H1 & H2 & H3 & H4 & H5).
  exists i, r, m'. repeat (split; [assumption|]). split; [|assumption].
  intros Hmax. now apply H5.
Qed.

(** X14. The puzzle [generatePuzzle] leaves, given back to [solveBoard],
    counts 1, and the solution array then holds the complete grid the
    puzzle was cut from. *)
Theorem generatePuzzle_then_solveBoard (fuel : nat) (m : Machine) :
  wf (board m) -> complete (board m) -> valid (board m) ->
  length (solution m) = SIZE * SIZE -> SIZE * SIZE < fuel ->
  exists (index : nat) (removed : Z) (m' m'' : Machine),
    generatePuzzle fuel m = Some (index, removed, m') /\
    solveBoard fuel m' = Some (1%Z, m'') /\
    solution m'' = board m /\ board m'' = board m'.
Proof. clear - SIZE_square SIZE_pos.
  intros Wb Cb Vb Hs Hf.
  destruct (generatePuzzle_output fuel m Wb Cb Vb Hs Hf)
    as (i & r & m' & E & W' & V' & S' & C' & U' & _).
  assert (F' : emptyCells (board m') < fuel).
  { pose proof (emptyCells_bound (board m')). destruct W' as [L _]. lia. }
  destruct (solveBoard_run fuel m' (proj1 W') S' F') as (m2 & E2 & B2 & _ & S2 & _).
  destruct (searchOrder_spec fuel (board m') W' V' F') as [Hnd Hin].
  assert (Hone : searchOrder fuel (board m') = [board m]).
  { apply NoDup_all_same; auto; [now apply Hin|].
    intros g Hg. apply U'. now apply Hin. }
  rewrite Hone in E2, S2. exists i, r, m', m2. auto.
Qed.

(** X15. When [generatePuzzle] returns (with [MAX_EMPTY] at least 1, so that
    a trial ran), the solution array holds the grid saved by the last call
    of [solveBoard]: a completion of the puzzle taken with the cell tried
    last cleared.  It agrees with the puzzle everywhere except, possibly,
    at that one cell. *)
Theorem generatePuzzle_solution_array (fuel : nat) (m : Machine) :
  wf (board m) -> complete (board m) -> valid (board m) ->
  length (solution m) = SIZE * SIZE -> SIZE * SIZE < fuel ->
  (1 <= MAX_EMPTY)%Z ->
  exists (index : nat) (removed : Z) (m' : Machine),
    generatePuzzle fuel m = Some (index, removed, m') /\
    exists y x, y < SIZE /\ x < SIZE /\
                completion (setCell (board m') y x EMPTY) (solution m').
Proof. clear - SIZE_square SIZE_pos.
  intros Wb Cb Vb Hs Hf Hmax.
  destruct (generatePuzzle_output fuel m Wb Cb Vb Hs Hf)
    as (i & r & m' & E & _ & _ & _ & _ & _ & _ & _ & _ & _ & H).
  exists i, r, m'. split; [exact E|]. now apply H.
Qed.


(** ** The counters *)

Lemma solveLoop_frame (rec : Machine -> option (Z * Machine)) (x y : nat)
    (vals : list Z) :
  (forall m r m', rec m = Some (r, m') -> triesAndErases m m') ->
  forall total m r m',
    solveLoop rec x y vals total m = Some (r, m') -> triesAndErases m m'.
Proof. clear.
  intros Hrec. induction vals as [|v vs IH]; intros total m r m' H; simpl in H.
  - injection H as _ <-. unfold triesAndErases. repeat split; lia.
  - destruct (rec (poke y x v m)) as [[found m1]|] eqn:E1; [|discriminate].
    apply Hrec in E1. apply IH in H.
    unfold triesAndErases in *.
    cbn [poke bumpBacktrack randCalls backtrackCount history length] in *.
    destruct E1 as (R1 & B1 & H1), H as (R2 & B2 & H2).
    repeat split; lia.
Qed.

Lemma solveBoard_frame (fuel : nat) :
  forall m r m', solveBoard fuel m = Some (r, m') -> triesAndErases m m'.
Proof. clear.
  induction fuel as [|fuel IH]; intros m r m' H; [discriminate|].
  simpl in H. destruct (nextEmpty (board m)) as [[x y]|].
  - destruct (getValidIntegers (board m) x y (repeat 0%Z SIZE)) as [n vi].
    destruct (0 <? n).
    + now apply (solveLoop_frame _ _ _ _ IH) in H.
    + injection H as _ <-. unfold triesAndErases. repeat split; lia.
  - injection H as _ <-. unfold triesAndErases.
    cbn [saveSolution randCalls backtrackCount history]. repeat split; lia.
Qed.

Lemma trialBound_nonneg (e : nat) : (0 <= trialBound e)%Z.
Proof.
  clear. pose proof (Nat2Z.is_nonneg SIZE).
  induction e as [|e IH]; cbn [trialBound]; [lia|nia].
Qed.

Lemma solveLoop_trials (rec : Machine -> option (Z * Machine)) (b : Grid) (x y : nat)
    (vals : list Z) (t : Z) :
  cell b y x = EMPTY ->
  (forall v m r m', In v vals -> board m = setCell b y x v ->
     rec m = Some (r, m') ->
     board m' = board m /\ (backtrackCount m' - backtrackCount m <= t)%Z) ->
  forall total m r m', board m = b ->
    solveLoop rec x y vals total m = Some (r, m') ->
    board m' = b /\
    (backtrackCount m' - backtrackCount m <= Z.of_nat (length vals) * (1 + t))%Z.
Proof. clear.
  intros Hc. induction vals as [|v vs IH]; intros Hrec total m r m' Hb H; simpl in H.
  - injection H as _ <-. split; [exact Hb|]. simpl. lia.
  - destruct (rec (poke y x v m)) as [[found m1]|] eqn:E1; [|discriminate].
    destruct (Hrec v (poke y x v m) found m1 (or_introl eq_refl)) as [B1 T1];
      [simpl; now rewrite Hb|exact E1|].
    apply IH in H.
    + destruct H as [B2 T2]. split; [exact B2|].
      cbn [poke bumpBacktrack backtrackCount length] in *.
      rewrite Nat2Z.inj_succ. lia.
    + intros v' m2 r2 m2' Hv'. apply Hrec. now right.
    + simpl. rewrite B1. simpl. rewrite Hb, <- Hc. apply setCell_restore.
Qed.

(** The trial values written on a board with [e] empty cells number
    [trialBound e] at most. *)
Lemma solveBoard_trials (fuel : nat) :
  forall m r m', length (board m) = SIZE * SIZE ->
    solveBoard fuel m = Some (r, m') ->
    board m' = board m /\
    (backtrackCount m' - backtrackCount m <= trialBound (emptyCells (board m)))%Z.
Proof. clear - SIZE_square SIZE_pos.
  induction fuel as [|fuel IH]; intros m r m' Hl H; [discriminate|].
  simpl in H. destruct (nextEmpty (board m)) as [[x y]|] eqn:En.
  - apply nextEmpty_Some in En. destruct En as (Hx & Hy & Hc).
    assert (Hcand : candidates (board m) x y
                    = let '(n, vi) := getValidIntegers (board m) x y (repeat 0%Z SIZE)
                      in firstn n vi) by reflexivity.
    pose proof (getValidIntegers_length (board m) x y) as [_ Hn].
    destruct (getValidIntegers (board m) x y (repeat 0%Z SIZE)) as [n vi].
    cbn [fst] in Hn.
    destruct (0 <? n).
    + assert (He : forall v, In v (firstn n vi) ->
                emptyCells (board m) = S (emptyCells (setCell (board m) y x v))).
      { intros v Hv. rewrite <- Hcand in Hv. apply In_candidates in Hv; auto.
        apply emptyCells_fill; auto. lia. }
      destruct (emptyCells (board m)) as [|e] eqn:Ee.
      * destruct (firstn n vi) as [|v vs]; [|discriminate (He v (or_introl eq_refl))].
        simpl in H. injection H as _ <-. split; [reflexivity|simpl; lia].
      * apply (solveLoop_trials _ (board m) x y _ (trialBound e) Hc) in H; auto.
        -- destruct H as [B T]. split; [exact B|].
           pose proof (trialBound_nonneg e) as Ht.
           assert (Hlen : length (firstn n vi) <= SIZE)
             by (rewrite length_firstn; lia).
           cbn [trialBound]. nia.
        -- intros v m1 r1 m1' Hv B1 E1.
           specialize (He v Hv). injection He as He.
           apply IH in E1; [|rewrite B1; unfold setCell; now rewrite length_upd].
           rewrite B1 in E1 at 2. rewrite <- He in E1. exact E1.
    + injection H as _ <-. split; [reflexivity|].
      pose proof (trialBound_nonneg (emptyCells (board m))). lia.
  - injection H as _ <-. split; [reflexivity|].
    pose proof (trialBound_nonneg (emptyCells (board m))).
    cbn [saveSolution backtrackCount]. lia.
Qed.

(** X16. From a state whose [backtrackCount] leaves room for the trials of
    the board (those of a board with [e] empty cells number
    [trialBound e] at most), [solveBoard] draws no number from [rand()],
    never lowers [backtrackCount], keeps it within the range of the C type
    [int], and raises it by one for each trial value it writes: as every
    trial value is erased again, the stores it makes to the board number
    exactly twice the rise of the counter. *)
Theorem solveBoard_counts_trials (fuel : nat) (m : Machine) :
  wf (board m) -> length (solution m) = SIZE * SIZE ->
  emptyCells (board m) < fuel ->
  (INT_MIN <= backtrackCount m)%Z ->
  (backtrackCount m + trialBound (emptyCells (board m)) <= INT_MAX)%Z ->
  exists (found : Z) (m' : Machine),
    solveBoard fuel m = Some (found, m') /\
    randCalls m' = randCalls m /\
    (backtrackCount m <= backtrackCount m' <= INT_MAX)%Z /\
    (backtrackCount m' - backtrackCount m <= trialBound (emptyCells (board m)))%Z /\
    Z.of_nat (length (history m'))
    = (Z.of_nat (length (history m))
       + 2 * (backtrackCount m' - backtrackCount m))%Z.
Proof. clear - SIZE_square SIZE_pos.
  intros Wb Hs Hf _ Hroom.
  destruct (solveBoard_run fuel m (proj1 Wb) Hs Hf) as (m' & E & _).
  destruct (solveBoard_frame fuel _ _ _ E) as (F1 & F2 & F3).
  destruct (solveBoard_trials fuel _ _ _ (proj1 Wb) E) as [_ T].
  eexists. exists m'. split; [exact E|]. split; [exact F1|].
  split; [lia|]. split; [exact T|exact F3].
Qed.

Lemma reduceLoop_rand (fuel : nat) :
  forall (cells : list Z) (index : nat) (removed : Z) (m : Machine)
         (r : nat * Z) (m' : Machine),
    reduceLoop fuel cells index removed m = Some (r, m') ->
    randCalls m' = randCalls m.
Proof. clear.
  induction cells as [|c rest IH]; intros index removed m r m' H;
    cbn [reduceLoop] in H; cbv zeta in H.
  - now injection H as _ <-.
  - destruct (removed <? MAX_EMPTY)%Z; [|now injection H as _ <-].
    destruct (solveBoard fuel _) as [[found m1]|] eqn:E; [|discriminate].
    apply solveBoard_frame in E. destruct E as (R1 & _).
    destruct (1 <? found)%Z; apply IH in H; simpl in *; congruence.
Qed.

(** X17. [generatePuzzle] draws exactly [SIZE * SIZE] numbers from
    [rand()], all of them for the shuffle of the cell list: the trials
    themselves use no randomness. *)
Theorem generatePuzzle_rand_draws (fuel : nat) (m : Machine) :
  wf (board m) -> complete (board m) -> valid (board m) ->
  length (solution m) = SIZE * SIZE -> SIZE * SIZE < fuel ->
  exists (index : nat) (removed : Z) (m' : Machine),
    generatePuzzle fuel m = Some (index, removed, m') /\
    randCalls m' = randCalls m + SIZE * SIZE.
Proof. clear - SIZE_square SIZE_pos.
  intros Wb Cb Vb Hs Hf.
  destruct (generatePuzzle_run fuel m Wb Cb Vb Hs Hf)
    as (cells & m0 & i & r & m' & Hsh & _ & E & _).
  exists i, r, m'. split; [exact E|].
  unfold generatePuzzle in E. rewrite Hsh in E.
  apply reduceLoop_rand in E. rewrite E.
  unfold shuffled, shuffleValues in Hsh.
  pose proof (shuffleLoop_spec (SIZE * SIZE) (map Z.of_nat (seq 0 (SIZE * SIZE)))
                (randCalls m) []) as Hk.
  rewrite length_map, length_seq in Hk. specialize (Hk (le_n _)).
  destruct Hk as (_ & _ & _ & Hk).
  destruct (shuffleLoop _ _ (randCalls m) []) as [[l k] log].
  injection Hsh as _ <-. simpl in *. exact Hk.
Qed.


(** ** main *)

Lemma fillLoop_keeps_solution (rec : Machine -> option (bool * Machine)) (x y : nat)
    (vals : list Z) :
  (forall m s m', rec m = Some (s, m') -> solution m' = solution m) ->
  forall solved m s m',
    fillLoop rec x y vals solved m = Some (s, m') -> solution m' = solution m.
Proof. clear.
  intros Hrec. induction vals as [|v vs IH]; intros solved m s m' H; simpl in H.
  - now injection H as _ <-.
  - destruct solved; [now injection H as _ <-|].
    destruct (rec (poke y x v m)) as [[s1 m1]|] eqn:E1; [|discriminate].
    apply Hrec in E1. apply IH in H. destruct s1; simpl in *; congruence.
Qed.

Lemma randomFillBoard_keeps_solution (fuel : nat) :
  forall m s m', randomFillBoard fuel m = Some (s, m') -> solution m' = solution m.
Proof. clear.
  induction fuel as [|fuel IH]; intros m s m' H; [discriminate|].
  simpl in H. destruct (nextEmpty (board m)) as [[x y]|].
  - destruct (getValidIntegers (board m) x y (repeat 0%Z SIZE)) as [n vi].
    destruct (n <=? 0); [now injection H as _ <-|].
    unfold shuffled in H.
    destruct (shuffleValues vi n (randCalls m)) as [[vi' k] log].
    now apply (fillLoop_keeps_solution _ _ _ _ IH) in H.
  - now injection H as _ <-.
Qed.

Lemma solution_zeroBoard (m : Machine) : solution (zeroBoard m) = solution m.
Proof. clear.
  unfold zeroBoard.
  assert (R : forall i (l : list nat) (m : Machine),
            solution (fold_left (fun m j => poke i j 0%Z m) l m) = solution m).
  { intros i l. induction l as [|j l IH]; intros m1; simpl; auto.
    now rewrite IH. }
  assert (Q : forall (lx ly : list nat) (m : Machine),
            solution (fold_left
              (fun m i => fold_left (fun m j => poke i j 0%Z m) lx m) ly m)
            = solution m).
  { intros lx ly. induction ly as [|i ly IH]; intros m1; simpl; auto.
    now rewrite IH, R. }
  apply Q.
Qed.

(** X18. [main] ends with status 0 and never prints the generation warning.
    It prints a puzzle that has exactly one completion, then the number of
    filled cells of that very puzzle, the prompt, and the solution array;
    with [MAX_EMPTY] at least 1 that array is a completion of the puzzle
    taken with one cell cleared, the grid saved by the last trial. *)
Theorem main_prints_puzzle (fuel : nat) :
  SIZE * SIZE < fuel ->
  exists (puzzle shown full : Grid),
    main fuel = Some (0%Z, report puzzle shown (Z.of_nat (emptyCells puzzle))) /\
    wf full /\ complete full /\ valid full /\
    completion puzzle full /\
    (forall g, completion puzzle g -> g = full) /\
    ((1 <= MAX_EMPTY)%Z ->
     exists y x, y < SIZE /\ x < SIZE /\
                 completion (setCell puzzle y x EMPTY) shown).
Proof. clear - SIZE_square SIZE_pos.
  intros Hf. unfold main.
  set (m := mkMachine (repeat 0%Z (SIZE * SIZE)) (repeat 0%Z (SIZE * SIZE)) 0%Z 0 []).
  destruct (generateBoard_succeeds fuel m (repeat_length _ _) Hf)
    as (m1 & Efill & Egen & W1 & C1 & V1).
  rewrite Egen.
  assert (S1 : length (solution m1) = SIZE * SIZE).
  { rewrite (randomFillBoard_keeps_solution _ _ _ _ Efill), solution_zeroBoard.
    apply repeat_length. }
  destruct (generatePuzzle_run fuel m1 W1 C1 V1 S1 Hf)
    as (cells & m0 & i & r & m' & _ & _ & E & _ & C' & U' & R' & _).
  destruct (generatePuzzle_output fuel m1 W1 C1 V1 S1 Hf)
    as (i2 & r2 & m2 & E2 & _ & _ & _ & _ & _ & _ & _ & _ & _ & H).
  rewrite E in E2. injection E2 as <- <- <-.
  rewrite E. exists (board m'), (solution m'), (board m1).
  split; [simpl; now rewrite R'|].
  do 5 (split; [assumption|]).
  intros Hmax. now apply H.
Qed.


(** ** printBoard *)

Lemma string_app_assoc (a b c : string) :
  ((a ++ b) ++ c)%string = (a ++ (b ++ c))%string.
Proof. clear. induction a as [|ch a IH]; simpl; congruence. Qed.

Lemma string_app_nil_r (a : string) : (a ++ EmptyString)%string = a.
Proof. clear. induction a as [|ch a IH]; simpl; congruence. Qed.

Lemma string_length_app (a b : string) :
  String.length (a ++ b) = String.length a + String.length b.
Proof. clear. induction a as [|ch a IH]; simpl; congruence. Qed.

Lemma plain_app (a b : string) : plain (a ++ b) = plain a && plain b.
Proof.
  clear. induction a as [|ch a IH]; simpl; auto.
  now rewrite IH, andb_assoc.
Qed.

Lemma fold_append {B : Type} (g : B -> string) (l : list B) (acc : string) :
  fold_left (fun out i => (out ++ g i)%string) l acc
  = (acc ++ fold_right append EmptyString (map g l))%string.
Proof.
  clear. revert acc. induction l as [|i l IH]; intros acc; simpl.
  - now rewrite string_app_nil_r.
  - now rewrite IH, string_app_assoc.
Qed.

Lemma unlines_app (l1 l2 : list string) :
  unlines (l1 ++ l2) = (unlines l1 ++ unlines l2)%string.
Proof.
  clear. induction l1 as [|r l1 IH]; simpl; auto.
  now rewrite IH, !string_app_assoc.
Qed.

Lemma unlines_flat_map {B : Type} (L : B -> list string) (l : list B) :
  fold_right append EmptyString (map (fun i => unlines (L i)) l)
  = unlines (flat_map L l).
Proof.
  clear. induction l as [|i l IH]; simpl; auto.
  now rewrite unlines_app, IH.
Qed.

Lemma length_joined (l : list string) :
  String.length (fold_right append EmptyString l)
  = list_sum (map String.length l).
Proof.
  clear. induction l as [|r l IH]; simpl; auto.
  now rewrite string_length_app, IH.
Qed.

Lemma plain_joined (l : list string) :
  (forall r, In r l -> plain r = true) ->
  plain (fold_right append EmptyString l) = true.
Proof.
  clear. induction l as [|r l IH]; intros H; simpl; auto.
  rewrite plain_app, (H r (or_introl eq_refl)), IH; auto.
  intros r' Hr'. apply H. now right.
Qed.

Lemma dashes_layout {B : Type} (l : list B) (acc : string) :
  String.length (fold_left (fun out _ => (out ++ "---")%string) l acc)
  = String.length acc + 3 * length l /\
  plain (fold_left (fun out _ => (out ++ "---")%string) l acc) = plain acc.
Proof.
  clear. revert acc. induction l as [|i l IH]; intros acc; simpl.
  - split; [lia|reflexivity].
  - destruct (IH (acc ++ "---")%string) as [E1 E2].
    rewrite E1, E2, string_length_app, plain_app. simpl.
    split; [lia|]. now rewrite andb_true_r.
Qed.

(** Every value from -99 to 999 takes exactly three columns under [%3d]. *)
Lemma width3_layout (v : Z) :
  (-99 <= v <= 999)%Z ->
  String.length (width3 v) = 3 /\ plain (width3 v) = true.
Proof.
  clear. intros Hv.
  assert (A : forallb (fun n => let s := width3 (Z.of_nat n - 99) in
                                (String.length s =? 3) && plain s)
                      (seq 0 1099) = true) by (vm_compute; reflexivity).
  rewrite forallb_forall in A.
  specialize (A (Z.to_nat (v + 99))).
  replace (Z.of_nat (Z.to_nat (v + 99)) - 99)%Z with v in A by lia.
  cbv zeta in A. apply andb_true_iff in A; [|apply in_seq; lia].
  destruct A as [A1 A2]. apply Nat.eqb_eq in A1. now split.
Qed.

Lemma div_pred_step (n k : nat) :
  0 < k -> 0 < n ->
  n / k = (n - 1) / k + (if n mod k =? 0 then 1 else 0).
Proof.
  clear. intros Hk Hn.
  pose proof (Nat.div_mod_eq n k) as E.
  pose proof (Nat.mod_upper_bound n k ltac:(lia)) as U.
  destruct (n mod k =? 0) eqn:Z0.
  - apply Nat.eqb_eq in Z0.
    assert (Q : 1 <= n / k) by nia.
    assert (n / k - 1 = (n - 1) / k)
      by (apply Nat.div_unique with (r := k - 1); nia).
    lia.
  - apply Nat.eqb_neq in Z0.
    assert (n / k = (n - 1) / k)
      by (apply Nat.div_unique with (r := n mod k - 1); nia).
    lia.
Qed.

(** Counting over [0 .. n-1] when every multiple of [k] but 0 adds [c]. *)
Lemma layout_sum (k c d : nat) (f : nat -> nat) (n : nat) :
  0 < k ->
  (forall j, j < n ->
     f j = (if (j mod k =? 0) && (0 <? j) then c else 0) + d) ->
  list_sum (map f (seq 0 n)) = n * d + ((n - 1) / k) * c.
Proof.
  clear. intros Hk. induction n as [|n IH]; intros Hf.
  - simpl. rewrite Nat.Div0.div_0_l; lia.
  - rewrite seq_S, map_app, list_sum_app, IH by (intros; apply Hf; lia).
    simpl. rewrite (Hf n) by lia.
    replace (n - 0) with n by lia.
    destruct n as [|n'].
    + simpl. rewrite Nat.Div0.mod_0_l, !Nat.Div0.div_0_l. simpl. lia.
    + rewrite (div_pred_step (S n') k) by lia.
      replace (0 <? S n') with true by (symmetry; apply Nat.ltb_lt; lia).
      rewrite andb_true_r.
      destruct (S n' mod k =? 0); nia.
Qed.

Lemma subSquare_facts :
  0 < subSquareLength /\ (SIZE - 1) / subSquareLength = subSquareLength - 1.
Proof.
  clear - SIZE_square SIZE_pos.
  change squareSize with subSquareLength in SIZE_square.
  assert (K : 0 < subSquareLength) by nia.
  split; [exact K|].
  symmetry. apply Nat.div_unique with (r := subSquareLength - 1); nia.
Qed.

Lemma cell_in_range (P : Z -> Prop) (b : Grid) (i j : nat) :
  Forall P b -> P 0%Z -> P (cell b i j).
Proof.
  clear. intros F P0. unfold cell.
  destruct (Nat.lt_ge_cases (i * SIZE + j) (length b)) as [H|H].
  - rewrite Forall_forall in F. apply F, nth_In, H.
  - now rewrite nth_overflow.
Qed.

(** The text of row [i] without its line break. *)
Lemma printRow_layout (b : Grid) (i : nat) :
  Forall (fun v => (-99 <= v <= 999)%Z) b ->
  exists r, printRow b i = (r ++ newline)%string /\
            String.length r = 3 * (SIZE + subSquareLength - 1) /\
            plain r = true.
Proof.
  clear - SIZE_square SIZE_pos. intros F.
  destruct subSquare_facts as [K D].
  unfold printRow. cbv zeta.
  set (g := fun j =>
         ((if Nat.eqb (j mod subSquareLength) 0 && Nat.ltb 0 j
           then "  |" else EmptyString)
          ++ width3 (cell b i j))%string).
  rewrite (fold_left_pointwise _ (fun out j => (out ++ g j)%string)).
  2:{ intros a j. unfold g.
      destruct ((j mod subSquareLength =? 0) && (0 <? j));
        [now rewrite string_app_assoc|reflexivity]. }
  rewrite fold_append. cbn [append].
  eexists. split; [reflexivity|].
  assert (W : forall j, String.length (width3 (cell b i j)) = 3 /\
                        plain (width3 (cell b i j)) = true).
  { intros j. apply width3_layout.
    apply (cell_in_range (fun v => (-99 <= v <= 999)%Z)); [exact F|lia]. }
  split.
  - rewrite length_joined, map_map.
    rewrite (layout_sum subSquareLength 3 3 _ SIZE K).
    + rewrite D. lia.
    + intros j _. unfold g. rewrite string_length_app, (proj1 (W j)).
      now destruct ((j mod subSquareLength =? 0) && (0 <? j)).
  - apply plain_joined. intros r Hr. apply in_map_iff in Hr.
    destruct Hr as (j & <- & _). unfold g.
    rewrite plain_app, (proj2 (W j)).
    now destruct ((j mod subSquareLength =? 0) && (0 <? j)).
Qed.

Lemma printRule_layout :
  exists r, printRule = (r ++ newline)%string /\
            String.length r = 3 * (SIZE + subSquareLength - 1) /\
            plain r = true.
Proof.
  clear - SIZE_square SIZE_pos.
  destruct subSquare_facts as [K _].
  unfold printRule. cbv zeta. eexists. split; [reflexivity|].
  destruct (dashes_layout (seq 0 SIZE) EmptyString) as [E1 E2].
  destruct (dashes_layout (seq 0 (subSquareLength - 1))
              (fold_left (fun out _ => (out ++ "---")%string) (seq 0 SIZE) EmptyString))
    as [E3 E4].
  rewrite E3, E4, E1, E2, !length_seq. simpl. split; [lia|reflexivity].
Qed.

(** X19. On a board whose values take at most three columns each (from -99
    to 999), what [printBoard] prints is a block of text:
    [SIZE + subSquareLength - 1] lines, the rows and the horizontal lines
    between the sub-squares, each of exactly
    [3 * (SIZE + subSquareLength - 1)] characters before its line break. *)
Theorem printBoard_layout (b : Grid) :
  length b = SIZE * SIZE ->
  Forall (fun v => (-99 <= v <= 999)%Z) b ->
  exists rows : list string,
    printBoard b = unlines rows /\
    length rows = SIZE + subSquareLength - 1 /\
    forall r, In r rows ->
      String.length r = 3 * (SIZE + subSquareLength - 1) /\ plain r = true.
Proof.
  clear - SIZE_square SIZE_pos. intros _ F.
  destruct subSquare_facts as [K D].
  destruct printRule_layout as (rule & Erule & Lrule & Prule).
  assert (R : forall i, exists r, printRow b i = (r ++ newline)%string /\
              String.length r = 3 * (SIZE + subSquareLength - 1) /\
              plain r = true) by (intros i; now apply printRow_layout).
  set (rowText := fun i =>
         fold_left
           (fun out j =>
              let out :=
                if (j mod subSquareLength =? 0) && (0 <? j)
                then (out ++ "  |")%string else out in
              (out ++ width3 (cell b i j))%string)
           (seq 0 SIZE) EmptyString).
  assert (Erow : forall i, printRow b i = (rowText i ++ newline)%string)
    by reflexivity.
  assert (Rt : forall i, String.length (rowText i) = 3 * (SIZE + subSquareLength - 1)
                         /\ plain (rowText i) = true).
  { intros i. destruct (R i) as (r & E & Lr & Pr). rewrite Erow in E.
    assert (rowText i = r); [|now subst r].
    clear - E. revert E. generalize (rowText i). intros a. revert r.
    induction a as [|c a IH]; intros [|c' r] E; simpl in E; auto.
    - destruct r; discriminate.
    - destruct a; discriminate.
    - injection E as -> E. f_equal. now apply IH. }
  set (L := fun i =>
         (if (i mod subSquareLength =? 0) && (0 <? i) then [rule] else [])
         ++ [rowText i]).
  exists (flat_map L (seq 0 SIZE)).
  split; [|split].
  - unfold printBoard.
    rewrite (fold_left_pointwise _ (fun out i => (out ++ unlines (L i))%string)).
    + rewrite fold_append. cbn [append]. apply unlines_flat_map.
    + intros a i. unfold L. rewrite Erow, Erule.
      destruct ((i mod subSquareLength =? 0) && (0 <? i)); simpl;
        now rewrite ?string_app_assoc, ?string_app_nil_r.
  - rewrite length_flat_map.
    rewrite (layout_sum subSquareLength 1 1 _ SIZE K).
    + rewrite D. lia.
    + intros i _. unfold L. rewrite length_app.
      now destruct ((i mod subSquareLength =? 0) && (0 <? i)).
  - intros r Hr. apply in_flat_map in Hr. destruct Hr as (i & _ & Hr).
    unfold L in Hr. apply in_app_or in Hr. destruct Hr as [Hr|[<-|[]]].
    + destruct ((i mod subSquareLength =? 0) && (0 <? i)); [|destruct Hr].
      destruct Hr as [<-|[]]. now split.
    + apply Rt.
Qed.


(** ** permittedValue *)

Lemma length_forbid_all {A : Type} (f : A -> Z) (l : list A) (p : list bool) :
  length (fold_left (fun p a => forbid (f a) p) l p) = length p.
Proof.
  clear. revert p; induction l as [|a l IH]; intros p; simpl; auto.
  rewrite IH. apply length_upd.
Qed.

Lemma length_permittedValue (b : Grid) (x y : nat) (p : list bool) :
  length (permittedValue b x y p) = length p.
Proof.
  clear. unfold permittedValue. cbv zeta.
  assert (B : forall (ly lx : list nat) (q : list bool),
            length (fold_left
                      (fun p i => fold_left (fun p j => forbid (cell b i j) p) lx p)
                      ly q) = length q).
  { intros ly lx. induction ly as [|i ly IH]; intros q; simpl; auto.
    now rewrite IH, (length_forbid_all (fun j => cell b i j)). }
  rewrite B, (length_forbid_all (fun yval => cell b yval x)),
    (length_forbid_all (fun xval => cell b y xval)).
  unfold forbid. rewrite length_upd.
  generalize (seq 1 SIZE). intros l. revert p.
  induction l as [|i l IH]; intros p; simpl; auto.
  now rewrite IH, length_upd.
Qed.

Lemma permittedValue_overwrites (b : Grid) (x y k : nat) (p : list bool) :
  length p = SIZE + 1 -> 1 <= k <= SIZE ->
  nth k (permittedValue b x y p) false
  = nth k (permittedValue b x y (repeat false (SIZE + 1))) false.
Proof.
  clear. intros Hp Hk. unfold permittedValue. cbv zeta.
  rewrite !nth_forbid_box.
  rewrite !(nth_forbid_all (fun yval => cell b yval x)).
  rewrite !(nth_forbid_all (fun xval => cell b y xval)).
  rewrite !nth_forbid.
  rewrite !nth_permit_all;
    [reflexivity|rewrite repeat_length; lia|right; apply in_seq; lia
    |lia|right; apply in_seq; lia].
Qed.

(** X20. [permittedValue] sets every entry of [permitted], whatever the
    array held before: entry 0 is FALSE, and for [k] from 1 to [SIZE] entry
    [k] is TRUE exactly when [k] appears nowhere in the row, the column and
    the sub-square of the cell. The array keeps its [SIZE + 1] entries. *)
Theorem permittedValue_flags (b : Grid) (xPos yPos : nat) (permitted : list bool) :
  wf b -> xPos < SIZE -> yPos < SIZE -> length permitted = SIZE + 1 ->
  length (permittedValue b xPos yPos permitted) = SIZE + 1 /\
  nth 0 (permittedValue b xPos yPos permitted) false = false /\
  forall k, 1 <= k <= SIZE ->
    (nth k (permittedValue b xPos yPos permitted) false = true
     <-> absent b xPos yPos (Z.of_nat k)).
Proof.
  clear - SIZE_square SIZE_pos. intros _ Hx Hy Hp.
  split; [now rewrite length_permittedValue|]. split.
  - unfold permittedValue. cbv zeta.
    rewrite nth_forbid_box.
    rewrite (nth_forbid_all (fun yval => cell b yval xPos)).
    rewrite (nth_forbid_all (fun xval => cell b yPos xval)).
    rewrite nth_forbid. cbn [Z.to_nat Nat.eqb negb].
    now rewrite andb_false_r.
  - intros k Hk. rewrite (permittedValue_overwrites b xPos yPos k permitted Hp Hk).
    now apply permittedValue_spec.
Qed.

End Sudoku.

Local Open Scope nat_scope.

(** ** The value read past the end does not matter

    The element that the shift loop fetches from index [listSize] lands at
    index [listSize - 1], which the same turn overwrites with the drawn
    item: the shuffled array is the same whatever lies past the list. *)

Lemma shuffle_turn_ignores_stale (stale1 stale2 : Z) (n' r : nat) (l : list Z)
    (log1 log2 : list Access) :
  r <= n' -> S n' <= length l ->
  upd n' (nth r l stale1) (fst (shiftDown stale1 (S n' - r) r l log1))
  = upd n' (nth r l stale2) (fst (shiftDown stale2 (S n' - r) r l log2)).
Proof.
  intros Hr Hn.
  destruct (shiftDown_spec stale1 (S n' - r) r l log1) as [L1 N1]; [lia|].
  destruct (shiftDown_spec stale2 (S n' - r) r l log2) as [L2 N2]; [lia|].
  apply nth_ext with (d := 0%Z) (d' := 0%Z); [now rewrite !length_upd, L1, L2|].
  intros j Hj. rewrite length_upd, L1 in Hj.
  destruct (Nat.eq_dec j n') as [->|Hne].
  - rewrite !nth_upd_eq by lia. apply nth_indep. lia.
  - rewrite !nth_upd_neq by lia.
    rewrite (nth_indep _ 0%Z stale1) by lia.
    rewrite (nth_indep _ 0%Z stale2) by lia.
    rewrite N1, N2.
    destruct (Nat.leb_spec r j), (Nat.ltb_spec j (r + (S n' - r)));
      simpl; apply nth_indep; lia.
Qed.

Lemma shuffleLoop_ignores_stale (rand : nat -> nat) (stale1 stale2 : Z) (n : nat) :
  forall (l : list Z) (k : nat) (log1 log2 : list Access),
    n <= length l ->
    fst (shuffleLoop rand stale1 n l k log1) = fst (shuffleLoop rand stale2 n l k log2).
Proof.
  induction n as [|n IH]; intros l k log1 log2 Hn; [reflexivity|].
  cbn [shuffleLoop].
  assert (Hr : rand k mod S n <= n)
    by (pose proof (Nat.mod_upper_bound (rand k) (S n)); lia).
  pose proof (shuffle_turn_ignores_stale stale1 stale2 n (rand k mod S n) l
                (Rd (rand k mod S n) :: log1) (Rd (rand k mod S n) :: log2) Hr Hn)
    as T.
  pose proof (shiftDown_spec stale1 (S n - rand k mod S n) (rand k mod S n) l
                (Rd (rand k mod S n) :: log1) ltac:(lia)) as [L1 _].
  destruct (shiftDown stale1 _ _ l _) as [l1 log1'].
  destruct (shiftDown stale2 _ _ l _) as [l2 log2'].
  cbn [fst] in T, L1. rewrite T. apply IH.
  rewrite <- T, length_upd. lia.
Qed.

Lemma shuffleValues_ignores_stale (rand : nat -> nat) (stale1 stale2 : Z)
    (lst : list Z) (listSize k : nat) :
  listSize <= length lst ->
  fst (shuffleValues rand stale1 lst listSize k)
  = fst (shuffleValues rand stale2 lst listSize k).
Proof.
  intros H. unfold shuffleValues. now apply shuffleLoop_ignores_stale.
Qed.

(** X4. Called with [listSize] at least 1 and no larger than the array,
    [shuffleValues] leaves the same array and has drawn the same numbers
    from [rand()] whatever value lies past the end of the list: the element
    fetched from index [listSize] never survives in the result. *)
Theorem shuffleValues_result_ignores_past_end (rand : nat -> nat) (stale1 stale2 : Z)
    (lst : list Z) (listSize k : nat) :
  1 <= listSize -> listSize <= length lst ->
  let '(lst1, k1, _) := shuffleValues rand stale1 lst listSize k in
  let '(lst2, k2, _) := shuffleValues rand stale2 lst listSize k in
  lst1 = lst2 /\ k1 = k2.
Proof.
  intros _ H.
  pose proof (shuffleLoop_ignores_stale rand stale1 stale2 listSize lst k [] [] H) as E.
  unfold shuffleValues.
  destruct (shuffleLoop rand stale1 listSize lst k []) as [[l1 k1] log1].
  destruct (shuffleLoop rand stale2 listSize lst k []) as [[l2 k2] log2].
  cbn [fst] in E. now injection E as -> ->.
Qed.

(** * Examples *)

(** C2 (what the code does). [twoWays9] has two completions.  The search
    reaches [swapped9] first and [solved9] second; [solveBoard] returns 2
    and leaves [solved9], the solution found last, in the output array:
    [totalSolutions] is a local that is still 0 at every leaf, so every
    complete board overwrites the one saved before. *)
Theorem solveBoard_keeps_last_solution :
  searchOrder 9 5 twoWays9 = [swapped9; solved9] /\
  swapped9 <> solved9 /\
  exists m', solveBoard 9 5 (start twoWays9) = Some (2%Z, m') /\
             solution m' = solved9.
Proof.
  split; [vm_compute; reflexivity|]. split; [discriminate|].
  eexists. split; [vm_compute; reflexivity|reflexivity].
Qed.

(** ** A board with more completions than an int can count *)

Lemma allBits_length (n : nat) :
  forall bits, In bits (allBits n) -> length bits = n.
Proof.
  induction n as [|n IH]; intros bits H; simpl in H.
  - destruct H as [<-|[]]. reflexivity.
  - apply in_app_or in H. rewrite !in_map_iff in H.
    destruct H as [(t & <- & Ht)|(t & <- & Ht)]; simpl; f_equal; now apply IH.
Qed.

Lemma allBits_NoDup (n : nat) : NoDup (allBits n).
Proof.
  induction n as [|n IH]; simpl.
  - constructor; [intros []|constructor].
  - apply NoDup_app.
    + apply NoDup_map_on; [exact IH|]. intros a a' _ _ E. now injection E.
    + apply NoDup_map_on; [exact IH|]. intros a a' _ _ E. now injection E.
    + intros a Ha Ha'. rewrite in_map_iff in Ha, Ha'.
      destruct Ha as (t & <- & _), Ha' as (t' & E & _). discriminate.
Qed.

Lemma allBits_count (n : nat) :
  Z.of_nat (length (allBits n)) = (2 ^ Z.of_nat n)%Z.
Proof.
  induction n as [|n IH]; [reflexivity|].
  cbn [allBits]. rewrite length_app, !length_map, Nat2Z.inj_add, IH.
  rewrite Nat2Z.inj_succ, Z.pow_succ_r by apply Nat2Z.is_nonneg. lia.
Qed.

Lemma cell_switched16 (bits : list bool) (y x : nat) :
  y < 16 -> x < 16 ->
  cell 16 (switched16 bits) y x
  = value16 y x (nth (rectangle16 y x) bits false).
Proof.
  intros Hy Hx. unfold cell, switched16.
  set (f := fun i => value16 (i / 16) (i mod 16)
                             (nth (rectangle16 (i / 16) (i mod 16)) bits false)).
  rewrite (nth_indep _ 0%Z (f 0)) by (rewrite length_map, length_seq; lia).
  rewrite (map_nth f), seq_nth by lia. unfold f.
  replace ((0 + (y * 16 + x)) / 16) with y
    by (apply Nat.div_unique with (r := x); lia).
  replace ((0 + (y * 16 + x)) mod 16) with x
    by (apply Nat.mod_unique with (q := y); lia).
  reflexivity.
Qed.

Lemma value16_range (y x : nat) (switched : bool) :
  (1 <= value16 y x switched <= 16)%Z.
Proof.
  unfold value16.
  pose proof (Nat.mod_upper_bound
                (4 * (y mod 4) + y / 4 + x + (if switched then 8 else 0)) 16).
  lia.
Qed.

(** Two cells of one row, column or box hold different values, whether
    their rectangles have been exchanged or not; when they lie in the same
    rectangle, it is exchanged for both or for neither. *)
Lemma value16_distinct (y x y' x' : nat) (s s' : bool) :
  y < 16 -> x < 16 -> y' < 16 -> x' < 16 ->
  (y, x) <> (y', x') -> sameUnit 16 y x y' x' ->
  (rectangle16 y x = rectangle16 y' x' -> s = s') ->
  value16 y x s <> value16 y' x' s'.
Proof.
  intros Hy Hx Hy' Hx' Hne Hu Hs.
  assert (K : forallb (fun y => forallb (fun x => forallb (fun y' => forallb (fun x' =>
              forallb (fun s => forallb (fun s' =>
                ((y =? y') && (x =? x'))
                || negb (sameUnitb 16 y x y' x')
                || ((rectangle16 y x =? rectangle16 y' x') && negb (Bool.eqb s s'))
                || negb (value16 y x s =? value16 y' x' s')%Z)
              [false; true]) [false; true])
              (seq 0 16)) (seq 0 16)) (seq 0 16)) (seq 0 16) = true)
    by (vm_compute; reflexivity).
  rewrite forallb_forall in K. specialize (K y ltac:(apply in_seq; lia)).
  rewrite forallb_forall in K. specialize (K x ltac:(apply in_seq; lia)).
  rewrite forallb_forall in K. specialize (K y' ltac:(apply in_seq; lia)).
  rewrite forallb_forall in K. specialize (K x' ltac:(apply in_seq; lia)).
  rewrite forallb_forall in K.
  specialize (K s ltac:(destruct s; simpl; auto)).
  rewrite forallb_forall in K.
  specialize (K s' ltac:(destruct s'; simpl; auto)).
  rewrite !orb_true_iff in K. destruct K as [[[K|K]|K]|K].
  - apply andb_true_iff in K. destruct K as [K1 K2].
    apply Nat.eqb_eq in K1, K2. congruence.
  - apply negb_true_iff in K. apply sameUnitb_iff in Hu. congruence.
  - apply andb_true_iff in K. destruct K as [K1 K2].
    apply Nat.eqb_eq in K1. apply Hs in K1. subst s'.
    now rewrite Bool.eqb_reflx in K2.
  - now apply negb_true_iff, Z.eqb_neq in K.
Qed.

Lemma completion_switched16 (bits : list bool) :
  completion 16 (blank 16) (switched16 bits).
Proof.
  split; [|split; [|split]].
  - split.
    + unfold switched16. now rewrite length_map, length_seq.
    + apply Forall_forall. intros v Hv. unfold switched16 in Hv.
      apply in_map_iff in Hv. destruct Hv as (i & <- & _).
      pose proof (value16_range (i / 16) (i mod 16)
                    (nth (rectangle16 (i / 16) (i mod 16)) bits false)).
      lia.
  - intros y x Hy Hx. rewrite cell_switched16 by assumption.
    pose proof (value16_range y x (nth (rectangle16 y x) bits false)). lia.
  - intros y x y' x' Hy Hx Hy' Hx' Hne Hu _.
    rewrite !cell_switched16 by assumption.
    apply value16_distinct; auto. now intros ->.
  - intros y x Hy Hx Hc. exfalso. apply Hc.
    unfold cell, blank. apply nth_repeat.
Qed.

Lemma corner16_spec (i : nat) :
  i < 64 ->
  fst (corner16 i) < 16 /\ snd (corner16 i) < 16 /\
  rectangle16 (fst (corner16 i)) (snd (corner16 i)) = i /\
  value16 (fst (corner16 i)) (snd (corner16 i)) false
  <> value16 (fst (corner16 i)) (snd (corner16 i)) true.
Proof.
  intros Hi.
  assert (K : forallb (fun i =>
                (fst (corner16 i) <? 16) && (snd (corner16 i) <? 16)
                && (rectangle16 (fst (corner16 i)) (snd (corner16 i)) =? i)
                && negb (value16 (fst (corner16 i)) (snd (corner16 i)) false
                         =? value16 (fst (corner16 i)) (snd (corner16 i)) true)%Z)
              (seq 0 64) = true) by (vm_compute; reflexivity).
  rewrite forallb_forall in K. specialize (K i ltac:(apply in_seq; lia)).
  rewrite !andb_true_iff in K. destruct K as [[[K1 K2] K3] K4].
  apply Nat.ltb_lt in K1, K2. apply Nat.eqb_eq in K3.
  apply negb_true_iff, Z.eqb_neq in K4. auto.
Qed.

(** Different choices of rectangles give different grids. *)
Lemma switched16_inj (bits bits' : list bool) :
  length bits = 64 -> length bits' = 64 ->
  switched16 bits = switched16 bits' -> bits = bits'.
Proof.
  intros L L' E. apply nth_ext with (d := false) (d' := false); [congruence|].
  intros i Hi. rewrite L in Hi.
  destruct (corner16_spec i Hi) as (Hy & Hx & Hr & Hv).
  pose proof (cell_switched16 bits _ _ Hy Hx) as C.
  pose proof (cell_switched16 bits' _ _ Hy Hx) as C'.
  rewrite E, C', Hr in C.
  destruct (nth i bits false), (nth i bits' false); congruence.
Qed.

(** C1, counterexample. The empty board of order 16, one of the orders the
    program is written for, is a valid grid with more than [INT_MAX]
    completions: exchanging the two values of any choice among 64 disjoint
    rectangles of one full grid gives 2 ^ 64 different full valid grids.
    No value of the C type [int], the type of [totalSolutions] and of the
    value [solveBoard] returns, is the number of its completions. *)
Theorem blank16_completions_exceed_int :
  wf 16 (blank 16) /\ valid 16 (blank 16) /\
  ~ atMostCompletions 16 (blank 16) INT_MAX /\
  exists l : list Grid,
    NoDup l /\ (forall g, In g l -> completion 16 (blank 16) g) /\
    Z.of_nat (length l) = (2 ^ 64)%Z /\ (INT_MAX < Z.of_nat (length l))%Z.
Proof.
  assert (Hl : NoDup (map switched16 (allBits 64)) /\
               (forall g, In g (map switched16 (allBits 64)) ->
                          completion 16 (blank 16) g) /\
               Z.of_nat (length (map switched16 (allBits 64))) = (2 ^ 64)%Z).
  { split; [|split].
    - apply NoDup_map_on; [apply allBits_NoDup|].
      intros a a' Ha Ha'. apply switched16_inj; now apply allBits_length.
    - intros g Hg. apply in_map_iff in Hg. destruct Hg as (bits & <- & _).
      apply completion_switched16.
    - rewrite length_map. apply (allBits_count 64). }
  destruct Hl as (Hnd & Hin & Hcount).
  split; [apply wfb_iff; vm_compute; reflexivity|].
  split; [apply validb_iff; vm_compute; reflexivity|].
  split.
  - intros Hmax. specialize (Hmax _ Hnd Hin). rewrite Hcount in Hmax.
    revert Hmax. vm_compute. intros H. now apply H.
  - exists (map switched16 (allBits 64)).
    split; [exact Hnd|]. split; [exact Hin|]. split; [exact Hcount|].
    rewrite Hcount. vm_compute. reflexivity.
Qed.

(** C9, counterexample. Order 25 is outside the supported set; yet
    [generateBoard] runs the search and returns 1, the very value it returns
    for the supported order 9. *)
Lemma generateBoard_order_25_reports_no_error :
  (exists solved m',
     randomFillBoard 25 rand0 0%Z 626 (zeroBoard 25 (start (blank 25)))
     = Some (solved, m') /\
     generateBoard 25 rand0 0%Z 626 (start (blank 25)) = Some (1%Z, m')) /\
  (exists m', generateBoard 9 rand0 0%Z 82 (start (blank 9)) = Some (1%Z, m')).
Proof.
  split.
  - apply generateBoard_run; [reflexivity|simpl; lia|reflexivity|simpl; lia].
  - destruct (generateBoard_run 9 rand0 0%Z eq_refl ltac:(lia) 82 (start (blank 9)))
      as (s & m' & _ & E); [reflexivity|simpl; lia|].
    now exists m'.
Qed.

(** ** The theorems at concrete boards *)

Ltac by_checker :=
  first [apply wfb_iff | apply validb_iff | apply completeb_iff];
  vm_compute; reflexivity.

Lemma nine_pos : 0 < 9.
Proof. lia. Defined.

Lemma four_pos : 0 < 4.
Proof. lia. Defined.

Lemma getValidIntegers_spec_witness :
  let '(intIndex, validIntegers) := getValidIntegers 9 (blank 9) 3 4 (repeat 0%Z 9) in
  (forall v, In v (firstn intIndex validIntegers)
             <-> (1 <= v <= 9)%Z /\ absent 9 (blank 9) 3 4 v) /\
  ~ In 0%Z (firstn intIndex validIntegers) /\
  ((forall y' x', cell 9 (blank 9) y' x' = 0%Z) ->
   intIndex = 9 /\ firstn intIndex validIntegers = map Z.of_nat (seq 1 9)).
Proof.
  apply (getValidIntegers_spec 9 eq_refl nine_pos (blank 9) 3 4);
    [by_checker|lia|lia|reflexivity].
Defined.

Lemma solveBoard_counts_completions_witness :
  exists (l : list Grid) (m' : Machine),
    NoDup l /\ (forall g, In g l <-> completion 9 twoWays9 g) /\
    (0 <= Z.of_nat (length l) <= INT_MAX)%Z /\
    solveBoard 9 5 (start twoWays9) = Some (Z.of_nat (length l), m') /\
    ((forall g, ~ completion 9 twoWays9 g) ->
     solveBoard 9 5 (start twoWays9) = Some (0%Z, m')) /\
    (complete 9 twoWays9 -> solveBoard 9 5 (start twoWays9) = Some (1%Z, m')).
Proof.
  apply (solveBoard_counts_completions 9 eq_refl nine_pos 5 (start twoWays9));
    [by_checker|reflexivity|by_checker|vm_compute; lia|].
  apply (atMostCompletions_search 9 eq_refl nine_pos 5);
    [by_checker|by_checker|vm_compute; lia|vm_compute; discriminate].
Defined.

Lemma solveBoard_restores_board_witness :
  exists (found : Z) (m' : Machine),
    solveBoard 9 5 (start twoWays9) = Some (found, m') /\ board m' = twoWays9.
Proof.
  apply (solveBoard_restores_board 9 eq_refl nine_pos 5 (start twoWays9));
    [by_checker|reflexivity|vm_compute; lia].
Defined.

Lemma randomFillBoard_result_witness :
  exists (solved : bool) (m' : Machine),
    randomFillBoard 9 rand0 0%Z 82 (start (blank 9)) = Some (solved, m') /\
    (solved = true ->
     wf 9 (board m') /\ complete 9 (board m') /\ valid 9 (board m')) /\
    (solved = false -> board m' = blank 9).
Proof.
  apply (randomFillBoard_result 9 rand0 0%Z eq_refl nine_pos 82 (start (blank 9)));
    [by_checker|by_checker|vm_compute; lia].
Defined.

Lemma generatePuzzle_follows_reduction_witness :
  exists (cells : list Z) (m0 : Machine) (index : nat) (removed : Z) (m' : Machine),
    shuffled rand0 0%Z (map Z.of_nat (seq 0 16)) 16 (start solved4) = (cells, m0) /\
    Permutation (map Z.of_nat (seq 0 16)) cells /\
    generatePuzzle 4 16 rand0 0%Z 17 (start solved4) = Some (index, removed, m') /\
    reduceLoopSpec 4 16 17 cells 0 0%Z m0 = Some (index, removed, m') /\
    (index = 16 \/ (16 <= removed)%Z) /\
    removed = Z.of_nat (emptyCells (board m')).
Proof.
  apply (generatePuzzle_follows_reduction 4 16%Z rand0 0%Z eq_refl four_pos 17
           (start solved4));
    [by_checker|by_checker|by_checker|reflexivity|simpl; lia].
Defined.

Lemma generatePuzzle_locally_minimal_witness :
  exists (index : nat) (removed : Z) (m' : Machine),
    generatePuzzle 4 16 rand0 0%Z 17 (start solved4) = Some (index, removed, m') /\
    removed = Z.of_nat (emptyCells (board m')) /\
    (index = 16 \/ (16 <= removed)%Z) /\
    completion 4 (board m') solved4 /\
    (forall g, completion 4 (board m') g -> g = solved4) /\
    (index = 16 \/ (removed < 16)%Z ->
     forall y x, y < 4 -> x < 4 -> cell 4 (board m') y x <> 0%Z ->
                 atLeastTwoCompletions 4 (setCell 4 (board m') y x 0%Z)).
Proof.
  apply (generatePuzzle_locally_minimal 4 16%Z rand0 0%Z eq_refl four_pos 17
           (start solved4));
    [by_checker|by_checker|by_checker|reflexivity|simpl; lia].
Defined.

Lemma stores_preserve_validity_witness :
  (exists solved m', randomFillBoard 9 rand0 0%Z 82 (start twoWays9) = Some (solved, m') /\
                     Forall (valid 9) (history m')) /\
  (exists found m', solveBoard 9 82 (start twoWays9) = Some (found, m') /\
                    Forall (valid 9) (history m')) /\
  (exists r m', generatePuzzle 9 81 rand0 0%Z 82 (start twoWays9) = Some (r, m') /\
                Forall (valid 9) (history m')).
Proof.
  apply (stores_preserve_validity 9 81%Z rand0 0%Z eq_refl nine_pos 82
           (start twoWays9));
    [by_checker|by_checker|reflexivity|constructor|simpl; lia].
Defined.

Lemma generateBoard_checks_no_order_witness :
  exists (solved : bool) (result : Z) (m' : Machine),
    board (zeroBoard 25 (start (blank 25))) = repeat 0%Z (25 * 25) /\
    randomFillBoard 25 rand0 0%Z 626 (zeroBoard 25 (start (blank 25)))
    = Some (solved, m') /\
    generateBoard 25 rand0 0%Z 626 (start (blank 25)) = Some (result, m') /\
    (solved = true -> result = 1%Z).
Proof.
  apply (generateBoard_checks_no_order 25 rand0 0%Z eq_refl
           (Nat.lt_0_succ 24) 626 (start (blank 25)));
    [reflexivity|simpl; lia].
Defined.

Lemma shuffleValues_reads_listSize_witness :
  In (Rd 9) (snd (shuffleValues rand0 0%Z [1; 2; 3; 4; 5; 6; 7; 8; 9]%Z 9 0)).
Proof.
  apply (shuffleValues_reads_listSize rand0 0%Z [1; 2; 3; 4; 5; 6; 7; 8; 9]%Z 9 0).
  lia.
Defined.

(** ** The further properties at concrete boards *)

Lemma nextEmpty_first_empty_witness :
  match nextEmpty 9 twoWays9 with
  | Some (x, y) =>
      x < 9 /\ y < 9 /\ cell 9 twoWays9 y x = 0%Z /\
      (forall y' x', y' < 9 -> x' < 9 -> y' < y \/ (y' = y /\ x' < x) ->
                     cell 9 twoWays9 y' x' <> 0%Z)
  | None => complete 9 twoWays9
  end.
Proof.
  exact (nextEmpty_first_empty 9 twoWays9).
Defined.

Lemma duplicateBoard_overwrites_witness :
  duplicateBoard 9 solved9 twoWays9 = solved9.
Proof.
  apply (duplicateBoard_overwrites 9 nine_pos solved9 twoWays9); reflexivity.
Defined.

Lemma shuffleValues_permutes_witness :
  let '(lst', k', _) := shuffleValues rand0 0%Z [1; 2; 3; 4; 5]%Z 3 0 in
  length lst' = length [1; 2; 3; 4; 5]%Z /\
  Permutation (firstn 3 [1; 2; 3; 4; 5]%Z) (firstn 3 lst') /\
  skipn 3 lst' = skipn 3 [1; 2; 3; 4; 5]%Z /\
  k' = 0 + 3.
Proof.
  apply (shuffleValues_permutes rand0 0%Z [1; 2; 3; 4; 5]%Z 3 0); simpl; lia.
Defined.

Lemma shuffleValues_result_ignores_past_end_witness :
  let '(lst1, k1, _) := shuffleValues rand0 0%Z [1; 2; 3; 4; 5]%Z 5 0 in
  let '(lst2, k2, _) := shuffleValues rand0 7%Z [1; 2; 3; 4; 5]%Z 5 0 in
  lst1 = lst2 /\ k1 = k2.
Proof.
  apply (shuffleValues_result_ignores_past_end rand0 0%Z 7%Z [1; 2; 3; 4; 5]%Z 5 0);
    simpl; lia.
Defined.

Lemma getValidIntegers_ascending_witness :
  let '(intIndex, validIntegers) := getValidIntegers 9 twoWays9 0 0 (repeat 0%Z 9) in
  intIndex <= 9 /\
  length validIntegers = 9 /\
  StronglySorted Z.lt (firstn intIndex validIntegers) /\
  forall j, intIndex <= j -> nth j validIntegers 0%Z = 0%Z.
Proof.
  apply (getValidIntegers_ascending 9 twoWays9 0 0); [by_checker|lia|lia].
Defined.

Lemma getValidIntegers_full_board_witness :
  fst (getValidIntegers 9 solved9 4 4 (repeat 0%Z 9)) = 0.
Proof.
  apply (getValidIntegers_full_board 9 eq_refl nine_pos solved9 4 4);
    [by_checker|by_checker|by_checker|lia|lia].
Defined.

Lemma solveBoard_single_gap_witness :
  exists m',
    solveBoard 9 3 (start (setCell 9 solved9 4 4 0%Z)) = Some (1%Z, m') /\
    solution m' = solved9 /\
    board m' = board (start (setCell 9 solved9 4 4 0%Z)).
Proof.
  apply (solveBoard_single_gap 9 eq_refl nine_pos 3
           (start (setCell 9 solved9 4 4 0%Z)) solved9 4 4);
    [by_checker|by_checker|by_checker|lia|lia|reflexivity|reflexivity|lia].
Defined.

Lemma solveBoard_full_board_witness :
  solveBoard 9 1 (start solved9)
  = Some (1%Z, mkMachine (board (start solved9)) (board (start solved9))
                         (backtrackCount (start solved9))
                         (randCalls (start solved9)) (history (start solved9))).
Proof.
  apply (solveBoard_full_board 9 nine_pos 1 (start solved9));
    [reflexivity|reflexivity|by_checker|lia].
Defined.

Lemma solveBoard_output_is_last_found_witness :
  exists (found : Z) (m' : Machine),
    solveBoard 9 5 (start twoWays9) = Some (found, m') /\
    solution m' = last (searchOrder 9 5 (board (start twoWays9)))
                       (solution (start twoWays9)) /\
    ((exists g, completion 9 (board (start twoWays9)) g) ->
     completion 9 (board (start twoWays9)) (solution m')) /\
    ((forall g, ~ completion 9 (board (start twoWays9)) g) ->
     solution m' = solution (start twoWays9)).
Proof.
  apply (solveBoard_output_is_last_found 9 eq_refl nine_pos 5 (start twoWays9));
    [by_checker|reflexivity|by_checker|vm_compute; lia].
Defined.

Lemma solveBoard_count_grows_on_clearing_witness :
  exists (before after : Z) (m1 m2 : Machine),
    solveBoard 9 82 (start solved9) = Some (before, m1) /\
    solveBoard 9 82 (poke 9 4 4 0%Z (start solved9)) = Some (after, m2) /\
    (0 <= before <= after)%Z /\ (after <= INT_MAX)%Z.
Proof.
  apply (solveBoard_count_grows_on_clearing 9 eq_refl nine_pos 82 (start solved9) 4 4);
    [by_checker|by_checker|reflexivity|lia|lia|simpl; lia|].
  apply (atMostCompletions_search 9 eq_refl nine_pos 2);
    [by_checker|by_checker|vm_compute; lia|vm_compute; discriminate].
Defined.

Lemma randomFillBoard_finds_completion_witness :
  exists (solved : bool) (m' : Machine),
    randomFillBoard 9 rand0 0%Z 5 (start twoWays9) = Some (solved, m') /\
    (solved = true <-> exists g, completion 9 (board (start twoWays9)) g) /\
    (solved = true -> completion 9 (board (start twoWays9)) (board m')).
Proof.
  apply (randomFillBoard_finds_completion 9 rand0 0%Z eq_refl nine_pos 5
           (start twoWays9));
    [by_checker|by_checker|vm_compute; lia].
Defined.

Lemma generateBoard_fills_board_witness :
  exists m',
    generateBoard 9 rand0 0%Z 82 (start twoWays9) = Some (1%Z, m') /\
    wf 9 (board m') /\ complete 9 (board m') /\ valid 9 (board m').
Proof.
  apply (generateBoard_fills_board 9 rand0 0%Z eq_refl nine_pos 82 (start twoWays9));
    [reflexivity|simpl; lia].
Defined.

Lemma generatePuzzle_bounds_witness :
  exists (index : nat) (removed : Z) (m' : Machine),
    generatePuzzle 4 16 rand0 0%Z 17 (start solved4) = Some (index, removed, m') /\
    (0 <= removed <= Z.max 0 16)%Z /\
    (removed <= Z.of_nat index)%Z /\
    index <= 4 * 4 /\
    ((1 <= 16)%Z -> (1 <= removed)%Z) /\
    ((16 <= 0)%Z -> index = 0 /\ board m' = board (start solved4)).
Proof.
  apply (generatePuzzle_bounds 4 16%Z rand0 0%Z eq_refl four_pos 17 (start solved4));
    [by_checker|by_checker|by_checker|reflexivity|simpl; lia].
Defined.

Lemma generatePuzzle_then_solveBoard_witness :
  exists (index : nat) (removed : Z) (m' m'' : Machine),
    generatePuzzle 4 16 rand0 0%Z 17 (start solved4) = Some (index, removed, m') /\
    solveBoard 4 17 m' = Some (1%Z, m'') /\
    solution m'' = board (start solved4) /\
    board m'' = board m'.
Proof.
  apply (generatePuzzle_then_solveBoard 4 16%Z rand0 0%Z eq_refl four_pos 17
           (start solved4));
    [by_checker|by_checker|by_checker|reflexivity|simpl; lia].
Defined.

Lemma generatePuzzle_solution_array_witness :
  exists (index : nat) (removed : Z) (m' : Machine),
    generatePuzzle 4 16 rand0 0%Z 17 (start solved4) = Some (index, removed, m') /\
    exists y x, y < 4 /\ x < 4 /\
                completion 4 (setCell 4 (board m') y x 0%Z) (solution m').
Proof.
  apply (generatePuzzle_solution_array 4 16%Z rand0 0%Z eq_refl four_pos 17
           (start solved4));
    [by_checker|by_checker|by_checker|reflexivity|simpl; lia|lia].
Defined.

Lemma solveBoard_counts_trials_witness :
  exists (found : Z) (m' : Machine),
    solveBoard 9 5 (start twoWays9) = Some (found, m') /\
    randCalls m' = randCalls (start twoWays9) /\
    (backtrackCount (start twoWays9) <= backtrackCount m' <= INT_MAX)%Z /\
    (backtrackCount m' - backtrackCount (start twoWays9)
     <= trialBound 9 (emptyCells (board (start twoWays9))))%Z /\
    Z.of_nat (length (history m'))
    = (Z.of_nat (length (history (start twoWays9)))
       + 2 * (backtrackCount m' - backtrackCount (start twoWays9)))%Z.
Proof.
  apply (solveBoard_counts_trials 9 eq_refl nine_pos 5 (start twoWays9));
    [by_checker|reflexivity|vm_compute; lia
    |vm_compute; discriminate|vm_compute; discriminate].
Defined.

Lemma generatePuzzle_rand_draws_witness :
  exists (index : nat) (removed : Z) (m' : Machine),
    generatePuzzle 4 16 rand0 0%Z 17 (start solved4) = Some (index, removed, m') /\
    randCalls m' = randCalls (start solved4) + 4 * 4.
Proof.
  apply (generatePuzzle_rand_draws 4 16%Z rand0 0%Z eq_refl four_pos 17
           (start solved4));
    [by_checker|by_checker|by_checker|reflexivity|simpl; lia].
Defined.

Lemma main_prints_puzzle_witness :
  exists (puzzle shown full : Grid),
    main 4 16 rand0 0%Z 17
    = Some (0%Z, report 4 puzzle shown (Z.of_nat (emptyCells puzzle))) /\
    wf 4 full /\ complete 4 full /\ valid 4 full /\
    completion 4 puzzle full /\
    (forall g, completion 4 puzzle g -> g = full) /\
    ((1 <= 16)%Z ->
     exists y x, y < 4 /\ x < 4 /\ completion 4 (setCell 4 puzzle y x 0%Z) shown).
Proof.
  apply (main_prints_puzzle 4 16%Z rand0 0%Z eq_refl four_pos 17). simpl; lia.
Defined.

Lemma printBoard_layout_witness :
  exists rows : list string,
    printBoard 9 twoWays9 = unlines rows /\
    length rows = 9 + subSquareLength 9 - 1 /\
    forall r, In r rows ->
      String.length r = 3 * (9 + subSquareLength 9 - 1) /\ plain r = true.
Proof.
  apply (printBoard_layout 9 eq_refl nine_pos twoWays9); [reflexivity|].
  repeat (apply Forall_cons; [cbv beta; lia|]). apply Forall_nil.
Defined.

Lemma permittedValue_flags_witness :
  length (permittedValue 9 twoWays9 0 0 (repeat true (9 + 1))) = 9 + 1 /\
  nth 0 (permittedValue 9 twoWays9 0 0 (repeat true (9 + 1))) false = false /\
  forall k, 1 <= k <= 9 ->
    (nth k (permittedValue 9 twoWays9 0 0 (repeat true (9 + 1))) false = true
     <-> absent 9 twoWays9 0 0 (Z.of_nat k)).
Proof.
  apply (permittedValue_flags 9 eq_refl nine_pos twoWays9 0 0 (repeat true (9 + 1)));
    [by_checker|lia|lia|reflexivity].
Defined.
